(** * aspec: chunking, merge strategies and the validate/repair loop

    A shallow embedding of the Go packages [chunking] (tokenizer.go,
    merger.go) and [validate] (validator.go) of the aspec CLI, and of the
    branch of the extract command and of the renderer that chunks the
    input, together with the parts of Go's [strings], [unicode],
    [unicode/utf8] and [fmt] that these packages call.

    Conventions.
    - A Go [string] or [[]byte] is a [list byte]; [len] is the byte length.
    - A Go [int] is a [Z].  The integers computed below are bounded by the
      byte length of a text held in memory (a budget that a text exceeds is
      below a third of that length), hence far from the 64-bit limits; the
      one integer addition of two program values ([GetEstimatedChunkCount])
      is written with its wrap-around.
    - A [float64] value is kept as an integer numerator over a fixed power
      of two; each floating-point operation is the exact operation followed
      by rounding to 53 significant bits, ties to even.
    - Code that calls the completion provider, the logger or standard
      output runs in a state monad over a [World] that records every
      provider call, every logging call and every line printed. *)

From Stdlib Require Import Strings.Byte Strings.String Strings.Ascii.
From Stdlib Require Import Numbers.DecimalString.
From Stdlib Require Import ZArith Lia Bool Arith List.
Import ListNotations.

Local Open Scope Z_scope.

(** Go strings and byte slices. *)
Definition bytes := list byte.

Definition B (s : string) : bytes := list_byte_of_string s.

Definition len (s : bytes) : Z := Z.of_nat (length s).

Definition byte_val (b : byte) : Z := Z.of_N (Byte.to_N b).

Fixpoint bytes_eqb (s t : bytes) : bool :=
  match s, t with
  | [], [] => true
  | a :: s', b :: t' => Byte.eqb a b && bytes_eqb s' t'
  | _, _ => false
  end.

(** What running a piece of Go code yields: a value, a runtime panic
    (an index or slice bound out of range), or a loop that is still
    running when the fuel given to its model is used up. *)
Inductive outcome (A : Type) : Type :=
| Returned (a : A)
| Panicked
| OutOfFuel.
Arguments Returned {A} a.
Arguments Panicked {A}.
Arguments OutOfFuel {A}.

(** ** binary64 arithmetic *)
Module float64.

(** [round53 n] is the integer [n] rounded to 53 significant bits, ties to
    even: the conversion [float64(n)] of an integer, and the rounding step
    of every product below (rounding commutes with scaling by a power of
    two, so it is applied to the numerator). *)
Definition round53 (n : Z) : Z :=
  let a := Z.abs n in
  let s := Z.log2 a - 52 in
  if s <=? 0 then n
  else
    let q := a / 2 ^ s in
    let r := a mod 2 ^ s in
    let half := 2 ^ (s - 1) in
    let q' := if (half <? r) || ((r =? half) && Z.odd q) then q + 1 else q in
    Z.sgn n * (q' * 2 ^ s).

(** The float64 constant [1.1] is [m1_1 / 2^52] (bits 0x3FF199999999999A). *)
Definition m1_1 : Z := 4953959590107546.
(** The float64 constant [0.8] is [m0_8 / 2^53] (bits 0x3FE999999999999A). *)
Definition m0_8 : Z := 7205759403792794.

(** [int(float64(n) / 4.0)]: the conversion rounds, the division by a power
    of two is exact, and [int] truncates toward zero. *)
Definition div4_trunc (n : Z) : Z := Z.quot (round53 n) 4.

(** [int(float64(q) * 1.1)]. *)
Definition mul1_1_trunc (q : Z) : Z :=
  Z.quot (round53 (round53 q * m1_1)) (2 ^ 52).

(** [int(float64(m) * 4.0 * 0.8)]: the product by 4.0 is exact. *)
Definition mul4_mul0_8_trunc (m : Z) : Z :=
  Z.quot (round53 (round53 m * 4 * m0_8)) (2 ^ 53).

End float64.

(** ** unicode/utf8 *)
Module utf8.

Definition RuneError : Z := 0xFFFD.
Definition RuneSelf : Z := 0x80.
Definition UTFMax : nat := 4.

(** The entries of the table [first]: ASCII, invalid, or the size of the
    sequence a leading byte announces with the range its second byte must
    lie in ([acceptRanges]). *)
Inductive lead : Type :=
| LeadASCII
| LeadInvalid
| LeadSeq (size : nat) (lo hi : Z).

Definition first (c : Z) : lead :=
  if c <? 0x80 then LeadASCII
  else if c <? 0xC2 then LeadInvalid
  else if c <? 0xE0 then LeadSeq 2 0x80 0xBF
  else if c =? 0xE0 then LeadSeq 3 0xA0 0xBF
  else if c <? 0xED then LeadSeq 3 0x80 0xBF
  else if c =? 0xED then LeadSeq 3 0x80 0x9F
  else if c <? 0xF0 then LeadSeq 3 0x80 0xBF
  else if c =? 0xF0 then LeadSeq 4 0x90 0xBF
  else if c <? 0xF4 then LeadSeq 4 0x80 0xBF
  else if c =? 0xF4 then LeadSeq 4 0x80 0x8F
  else LeadInvalid.

Definition continuation (c : Z) : bool := (0x80 <=? c) && (c <=? 0xBF).

(** [DecodeRuneInString s]: the first rune of [s] and its width in bytes;
    [(RuneError, 0)] on the empty string and [(RuneError, 1)] on an invalid
    or short encoding. *)
Definition DecodeRuneInString (s : bytes) : Z * nat :=
  match s with
  | [] => (RuneError, 0%nat)
  | b0 :: s1 =>
    let s0 := byte_val b0 in
    match first s0 with
    | LeadASCII => (s0, 1%nat)
    | LeadInvalid => (RuneError, 1%nat)
    | LeadSeq sz lo hi =>
      match s1 with
      | [] => (RuneError, 1%nat)
      | b1 :: s2 =>
        let c1 := byte_val b1 in
        if (c1 <? lo) || (hi <? c1) then (RuneError, 1%nat)
        else if (sz <=? 2)%nat then
          (Z.lor (Z.shiftl (Z.land s0 0x1F) 6) (Z.land c1 0x3F), 2%nat)
        else
          match s2 with
          | [] => (RuneError, 1%nat)
          | b2 :: s3 =>
            let c2 := byte_val b2 in
            if negb (continuation c2) then (RuneError, 1%nat)
            else if (sz <=? 3)%nat then
              (Z.lor (Z.lor (Z.shiftl (Z.land s0 0x0F) 12)
                            (Z.shiftl (Z.land c1 0x3F) 6))
                     (Z.land c2 0x3F), 3%nat)
            else
              match s3 with
              | [] => (RuneError, 1%nat)
              | b3 :: _ =>
                let c3 := byte_val b3 in
                if negb (continuation c3) then (RuneError, 1%nat)
                else
                  (Z.lor (Z.lor (Z.lor (Z.shiftl (Z.land s0 0x07) 18)
                                       (Z.shiftl (Z.land c1 0x3F) 12))
                                (Z.shiftl (Z.land c2 0x3F) 6))
                         (Z.land c3 0x3F), 4%nat)
              end
          end
      end
    end
  end.

(** [RuneStart b]: [b] is not a continuation byte. *)
Definition RuneStart (c : Z) : bool := negb (Z.land c 0xC0 =? 0x80).

(** The loop of [DecodeLastRuneInString] that walks back from [end - 2] to
    [lim] looking for the start of the last rune. [k] counts the steps
    still allowed, [start] is the index looked at. *)
Fixpoint lastRuneStart (s : bytes) (k : nat) (start : Z) : Z :=
  match k with
  | O => start
  | S k' =>
    if RuneStart (byte_val (nth (Z.to_nat start) s x00)) then start
    else lastRuneStart s k' (start - 1)
  end.

(** [DecodeLastRuneInString s]: the last rune of [s] and its width. *)
Definition DecodeLastRuneInString (s : bytes) : Z * nat :=
  let e := len s in
  if e =? 0 then (RuneError, 0%nat)
  else
    let r := byte_val (nth (Z.to_nat (e - 1)) s x00) in
    if r <? RuneSelf then (r, 1%nat)
    else
      let lim := Z.max (e - Z.of_nat UTFMax) 0 in
      let start := lastRuneStart s (Z.to_nat (e - 1 - lim)) (e - 2) in
      let start := if start <? 0 then 0 else start in
      let '(r, size) := DecodeRuneInString (skipn (Z.to_nat start) s) in
      if start + Z.of_nat size =? e then (r, size) else (RuneError, 1%nat).

(** [RuneCountInString s]: the number of runes of [s]; an invalid or short
    encoding counts as one rune of width 1, as in [DecodeRuneInString]. *)
Fixpoint runeCount (fuel : nat) (s : bytes) : Z :=
  match fuel with
  | O => 0
  | S fuel' =>
    match s with
    | [] => 0
    | _ :: _ => 1 + runeCount fuel' (skipn (snd (DecodeRuneInString s)) s)
    end
  end.

Definition RuneCountInString (s : bytes) : Z := runeCount (length s) s.

End utf8.

(** ** unicode *)
Module unicode.

(** [IsSpace r]: the Latin-1 cases of the source and the [White_Space]
    range table beyond Latin-1. *)
Definition IsSpace (r : Z) : bool :=
  if r <=? 0xFF then
    ((0x09 <=? r) && (r <=? 0x0D)) || (r =? 0x20) || (r =? 0x85) || (r =? 0xA0)
  else
    (r =? 0x1680) || ((0x2000 <=? r) && (r <=? 0x200A)) ||
    (r =? 0x2028) || (r =? 0x2029) || (r =? 0x202F) || (r =? 0x205F) ||
    (r =? 0x3000).

End unicode.

(** ** strings *)
Module strings.

Fixpoint HasPrefix (s prefix : bytes) {struct prefix} : bool :=
  match prefix, s with
  | [], _ => true
  | p :: prefix', c :: s' => Byte.eqb p c && HasPrefix s' prefix'
  | _ :: _, [] => false
  end.

(** [Index s substr]: the index of the first instance of [substr] in [s],
    or -1. *)
Fixpoint Index (s substr : bytes) : Z :=
  if HasPrefix s substr then 0
  else
    match s with
    | [] => -1
    | _ :: s' => let i := Index s' substr in if i <? 0 then -1 else 1 + i
    end.

Definition Contains (s substr : bytes) : bool := 0 <=? Index s substr.

(** [explode s]: [s] cut into its UTF-8 sequences, one per rune. *)
Fixpoint explode (fuel : nat) (s : bytes) : list bytes :=
  match fuel with
  | O => []
  | S fuel' =>
    match s with
    | [] => []
    | _ :: _ =>
      let size := snd (utf8.DecodeRuneInString s) in
      firstn size s :: explode fuel' (skipn size s)
    end
  end.

(** The loop of [genSplit]: cut at the first instance of [sep] as long as
    there is one. Each turn consumes at least one byte of [s] when [sep] is
    not empty, so [length s] turns are enough. *)
Fixpoint genSplit (fuel : nat) (s sep : bytes) : list bytes :=
  match fuel with
  | O => [s]
  | S fuel' =>
    let m := Index s sep in
    if m <? 0 then [s]
    else firstn (Z.to_nat m) s
         :: genSplit fuel' (skipn (Z.to_nat m + length sep) s) sep
  end.

(** [Split s sep]. *)
Definition Split (s sep : bytes) : list bytes :=
  match sep with
  | [] => explode (length s) s
  | _ :: _ => genSplit (length s) s sep
  end.

(** [Join elems sep]. *)
Fixpoint Join (elems : list bytes) (sep : bytes) : bytes :=
  match elems with
  | [] => []
  | [e] => e
  | e :: rest => e ++ sep ++ Join rest sep
  end.

(** [TrimLeftFunc s unicode.IsSpace]: drop leading runes while they are
    white space. *)
Fixpoint trimLeftSpace (fuel : nat) (s : bytes) : bytes :=
  match fuel with
  | O => s
  | S fuel' =>
    let '(r, size) := utf8.DecodeRuneInString s in
    if (0 <? size)%nat && unicode.IsSpace r
    then trimLeftSpace fuel' (skipn size s)
    else s
  end.

(** [TrimRightFunc s unicode.IsSpace]: drop trailing runes while they are
    white space. *)
Fixpoint trimRightSpace (fuel : nat) (s : bytes) : bytes :=
  match fuel with
  | O => s
  | S fuel' =>
    let '(r, size) := utf8.DecodeLastRuneInString s in
    if (0 <? size)%nat && unicode.IsSpace r
    then trimRightSpace fuel' (firstn (length s - size) s)
    else s
  end.

(** [TrimSpace s]: [s] without leading and trailing white space, as
    [TrimFunc s unicode.IsSpace] (the ASCII fast path of the library gives
    the same slice). *)
Definition TrimSpace (s : bytes) : bytes :=
  let t := trimLeftSpace (length s) s in
  trimRightSpace (length t) t.

End strings.

(** ** fmt *)
Module fmt.

(** The verb [%d] applied to an [int]. *)
Definition itoa (n : Z) : bytes := B (NilZero.string_of_int (Z.to_int n)).

End fmt.

(** ** chunking/tokenizer.go *)
Module tokenizer.

(** [TokenCounter]: [NewTokenCounter] is its only constructor and sets
    [charsPerToken] to 4.0. *)
Definition charsPerToken : Z := 4.

(** [CountTokens text]. *)
Definition CountTokens (text : bytes) : Z :=
  match text with
  | [] => 0
  | _ :: _ =>
    let charCount := utf8.RuneCountInString text in
    let tokenEstimate := float64.div4_trunc charCount in
    float64.mul1_1_trunc tokenEstimate
  end.

(** [Chunker]. *)
Record Chunker : Type := NewChunker { maxTokens : Z }.

(** The loop of [tryBoundary] over [parts[i:]]; [current] is the builder's
    content and [used] the number of parts already in it. *)
Fixpoint tryBoundaryLoop (c : Chunker) (text boundary : bytes)
    (parts : list bytes) (rest : list bytes) (i : Z)
    (current : bytes) (used : Z) : bytes * bytes :=
  match rest with
  | [] => (current, [])
  | part :: rest' =>
    let candidate := current ++ (if 0 <? i then boundary else []) ++ part in
    if maxTokens c <? CountTokens candidate then
      if used =? 0 then ([], text)
      else (current, strings.Join (skipn (Z.to_nat used) parts) boundary)
    else
      tryBoundaryLoop c text boundary parts rest' (i + 1) candidate (i + 1)
  end.

(** [tryBoundary text boundary]. *)
Definition tryBoundary (c : Chunker) (text boundary : bytes) : bytes * bytes :=
  let parts := strings.Split text boundary in
  if Z.of_nat (length parts) <=? 1 then ([], text)
  else tryBoundaryLoop c text boundary parts parts 0 [] 0.

(** The semantic boundaries, in order of preference. *)
Definition boundaries : list bytes :=
  [ [x0a; x0a; x0a];   (* multiple blank lines *)
    [x0a; x0a];        (* paragraph breaks *)
    [x0a];             (* line breaks *)
    B ". ";            (* sentence endings *)
    B "? ";            (* question endings *)
    B "! ";            (* exclamation endings *)
    B ", ";            (* comma breaks *)
    B " " ].           (* word boundaries *)

(** The loop of [findOptimalChunk] over the boundaries. *)
Fixpoint findOptimalChunkLoop (c : Chunker) (text : bytes) (bs : list bytes)
    (bestChunk bestRemaining : bytes) : bytes * bytes :=
  match bs with
  | [] => (bestChunk, bestRemaining)
  | boundary :: bs' =>
    let '(chunk, rest) := tryBoundary c text boundary in
    if negb (bytes_eqb chunk []) && (len bestChunk <? len chunk)
    then findOptimalChunkLoop c text bs' chunk rest
    else findOptimalChunkLoop c text bs' bestChunk bestRemaining
  end.

(** [findOptimalChunk text]. *)
Definition findOptimalChunk (c : Chunker) (text : bytes) : bytes * bytes :=
  if CountTokens text <=? maxTokens c then (text, [])
  else findOptimalChunkLoop c text boundaries [] text.

Definition isBlank (b : byte) : bool :=
  Byte.eqb b x20 || Byte.eqb b x0a || Byte.eqb b x09.

(** The loop of [forceSplit] that walks [cutPoint] back to a blank byte.
    [cutPoint] decreases at every turn and the loop stops at 0, so
    [cutPoint] turns are enough. *)
Fixpoint cutPointLoop (text : bytes) (fuel : nat) (cutPoint : Z) : Z :=
  match fuel with
  | O => cutPoint
  | S fuel' =>
    if (0 <? cutPoint) && (cutPoint <? len text) then
      if isBlank (nth (Z.to_nat cutPoint) text x00) then cutPoint
      else cutPointLoop text fuel' (cutPoint - 1)
    else cutPoint
  end.

(** [forceSplit text]. The slice expressions panic when [cutPoint] is out
    of range. *)
Definition forceSplit (c : Chunker) (text : bytes) : outcome (bytes * bytes) :=
  let charLimit := float64.mul4_mul0_8_trunc (maxTokens c) in
  if len text <=? charLimit then Returned (text, [])
  else
    let cutPoint := cutPointLoop text (Z.to_nat charLimit) charLimit in
    let cutPoint := if cutPoint =? 0 then charLimit else cutPoint in
    if (cutPoint <? 0) || (len text <? cutPoint) then Panicked
    else Returned (firstn (Z.to_nat cutPoint) text,
                   strings.TrimSpace (skipn (Z.to_nat cutPoint) text)).

(** The body of the [for] loop of [ChunkText]: the best chunk at a semantic
    boundary, or a forced split when there is none. *)
Definition nextChunk (c : Chunker) (remaining : bytes) : outcome (bytes * bytes) :=
  let '(chunk, rest) := findOptimalChunk c remaining in
  if bytes_eqb chunk [] then forceSplit c remaining
  else Returned (chunk, rest).

(** The [for] loop of [ChunkText]; it returns the chunks collected and the
    text that remains. *)
Fixpoint chunkLoop (c : Chunker) (fuel : nat) (remaining : bytes)
    (chunks : list bytes) : outcome (list bytes * bytes) :=
  if (0 <? len remaining) && (maxTokens c <? CountTokens remaining) then
    match fuel with
    | O => OutOfFuel
    | S fuel' =>
      match nextChunk c remaining with
      | Returned (chunk, rest) => chunkLoop c fuel' rest (chunks ++ [chunk])
      | Panicked => Panicked
      | OutOfFuel => OutOfFuel
      end
    end
  else Returned (chunks, remaining).

(** [ChunkText text] with [fuel] turns allowed to its loop. *)
Definition ChunkTextFuel (c : Chunker) (fuel : nat) (text : bytes)
    : outcome (list bytes) :=
  let totalTokens := CountTokens text in
  if totalTokens <=? maxTokens c then Returned [text]
  else
    match chunkLoop c fuel text [] with
    | Returned (chunks, remaining) =>
      if 0 <? len (strings.TrimSpace remaining)
      then Returned (chunks ++ [remaining])
      else Returned chunks
    | Panicked => Panicked
    | OutOfFuel => OutOfFuel
    end.

(** [ChunkText text]. A turn of the loop that ends leaves a shorter
    [remaining] or repeats for ever, so [length text] turns decide. *)
Definition ChunkText (c : Chunker) (text : bytes) : outcome (list bytes) :=
  ChunkTextFuel c (length text) text.

(** [ValidateBoundary text boundary]. *)
Definition ValidateBoundary (c : Chunker) (text boundary : bytes) : bool :=
  let parts := strings.Split text boundary in
  (1 <? Z.of_nat (length parts)) &&
  (Z.of_nat (length parts) <? Z.quot (len text) 10).

(** Go's [int] addition and subtraction. *)
Definition wrap64 (z : Z) : Z := (z + 2 ^ 63) mod 2 ^ 64 - 2 ^ 63.

(** [GetEstimatedChunkCount text]; the division panics on a zero divisor. *)
Definition GetEstimatedChunkCount (c : Chunker) (text : bytes) : outcome Z :=
  let totalTokens := CountTokens text in
  if totalTokens <=? maxTokens c then Returned 1
  else if maxTokens c =? 0 then Panicked
  else Returned
         (Z.quot (wrap64 (wrap64 (totalTokens + maxTokens c) - 1)) (maxTokens c)).

End tokenizer.

(** ** Go error values *)

(** An [error] is created with a text (by the provider, or by [fmt.Errorf]
    without [%w]) or wraps another one: [ErrorWrap p e] is
    [fmt.Errorf(p + "%w", e)]. *)
Inductive error : Type :=
| ErrorNew (msg : bytes)
| ErrorWrap (prefix : bytes) (err : error).

(** The method [Error()]. *)
Fixpoint ErrorText (e : error) : bytes :=
  match e with
  | ErrorNew msg => msg
  | ErrorWrap prefix err => prefix ++ ErrorText err
  end.

(** ** llm: the types of client.go the core uses *)
Module llm.

Record TokenUsage : Type := {
  PromptTokens : Z;
  CompletionTokens : Z;
  TotalTokens : Z
}.

Record CompletionResponse : Type := {
  Content : bytes;
  TokensUsed : TokenUsage;
  Duration : Z;
  Model : bytes
}.

Record CompletionOptions : Type := { ForceJSON : bool }.

(** [MockClient]. The list stands for the map [responses] in the order one
    run of the program iterates over it. *)
Record MockClient : Type := {
  responses : list (bytes * bytes);
  model : bytes
}.

Definition NewMockClient (model : bytes) : MockClient :=
  {| responses := []; model := model |}.

(** The method [Complete] of [MockClient]: the reply and the client after
    the call. *)
Definition MockComplete (m : MockClient) (userPrompt : bytes)
    (opts : CompletionOptions) : (CompletionResponse + error) * MockClient :=
  let response :=
    match responses m with
    | [] => B "Mock response"
    | (_, resp) :: _ => resp
    end in
  (inl {| Content := response;
          TokensUsed := {| PromptTokens := 100;
                           CompletionTokens := 50;
                           TotalTokens := 150 |};
          Duration := 100 * 1000000;
          Model := model m |}, m).

End llm.

(** ** logging: what a call of [logging.Info] or [logging.Debug] passes *)
Module logging.

Inductive Level : Type :=
| LevelError | LevelWarn | LevelInfo | LevelDebug | LevelTrace.

Inductive FieldValue : Type :=
| FInt (n : Z)
| FString (s : bytes).

Record Entry : Type := {
  level : Level;
  message : bytes;
  fields : list (bytes * FieldValue)
}.

End logging.

(** ** The world the core runs in *)
Module effects.

(** One call of the client's [Complete]: what was asked and what came
    back. *)
Record Call : Type := {
  sent : bytes;
  sentOptions : llm.CompletionOptions;
  reply : llm.CompletionResponse + error
}.

Section World.

(** The object behind the client interface, and its method [Complete]:
    the reply to a prompt and the object's next state. *)
Variable Client : Type.
Variable provider :
  Client -> bytes -> llm.CompletionOptions ->
  (llm.CompletionResponse + error) * Client.

Record World : Type := {
  client : Client;
  calls : list Call;
  logCalls : list logging.Entry;
  stdout : list bytes
}.

Definition M (A : Type) : Type := World -> outcome A * World.

Definition ret {A} (a : A) : M A := fun w => (Returned a, w).

Definition bind {A C} (m : M A) (k : A -> M C) : M C :=
  fun w =>
    match m w with
    | (Returned a, w') => k a w'
    | (Panicked, w') => (Panicked, w')
    | (OutOfFuel, w') => (OutOfFuel, w')
    end.

Definition panic {A} : M A := fun w => (Panicked, w).

(** [client.Complete(ctx, prompt, options)]: the provider answers and the
    call is recorded. *)
Definition Complete (userPrompt : bytes) (opts : llm.CompletionOptions)
    : M (llm.CompletionResponse + error) :=
  fun w =>
    let '(r, cl) := provider (client w) userPrompt opts in
    (Returned r,
     {| client := cl;
        calls := calls w ++ [ {| sent := userPrompt; sentOptions := opts; reply := r |} ];
        logCalls := logCalls w;
        stdout := stdout w |}).

Definition log (lv : logging.Level) (msg : bytes)
    (fs : list (bytes * logging.FieldValue)) : M unit :=
  fun w =>
    (Returned tt,
     {| client := client w;
        calls := calls w;
        logCalls := logCalls w ++ [ {| logging.level := lv; logging.message := msg; logging.fields := fs |} ];
        stdout := stdout w |}).

(** [logging.Info] and [logging.Debug]. *)
Definition Info := log logging.LevelInfo.
Definition Debug := log logging.LevelDebug.

(** [fmt.Printf]. *)
Definition Printf (line : bytes) : M unit :=
  fun w =>
    (Returned tt,
     {| client := client w;
        calls := calls w;
        logCalls := logCalls w;
        stdout := stdout w ++ [line] |}).

End World.

Arguments client {Client} w.
Arguments calls {Client} w.
Arguments logCalls {Client} w.
Arguments stdout {Client} w.
Arguments ret {Client A} a.
Arguments bind {Client A C} m k.
Arguments panic {Client A}.
Arguments Info {Client} msg fs.
Arguments Debug {Client} msg fs.
Arguments Printf {Client} line.

End effects.

Notation "x <- m ;; k" := (effects.bind m (fun x => k))
  (at level 61, m at next level, right associativity).
Notation "m ;;; k" := (effects.bind m (fun _ => k))
  (at level 61, right associativity).

(** What a Go function returning [(T, error)] returns. *)
Definition result (A : Type) : Type := (option A * option error)%type.

(** ** specs: the fields of [Spec] the core reads *)
Module specs.

Record Spec : Type := {
  Slug : bytes;
  Title : bytes;
  Schema : bytes
}.

End specs.

(** ** chunking/merger.go *)
Module merger.

(** [MergeStrategy] is a string type. *)
Definition MergeStrategy : Type := bytes.
Definition StrategyIncremental : MergeStrategy := B "incremental".
Definition StrategyTwoPass : MergeStrategy := B "two-pass".
Definition StrategyTemplateDriven : MergeStrategy := B "template-driven".

Record MergeOptions : Type := {
  Strategy : MergeStrategy;
  Instructions : bytes;
  MaxRetries : Z;
  ShowStats : bool
}.

Record ChunkResult : Type := {
  ChunkIndex : Z;
  Content : bytes;
  JSONData : bytes;
  Stats : option llm.CompletionResponse;
  Error : option error
}.

(** [Merger]; its client is the one of the world. *)
Record Merger : Type := NewMerger {
  spec : specs.Spec;
  options : MergeOptions
}.

Definition quote : bytes := [x22].

Definition schemaTitle (m : Merger) : bytes :=
  if bytes_eqb (specs.Title (spec m)) [] then specs.Slug (spec m)
  else specs.Title (spec m).

(** [createExtractionPrompt chunk]. *)
Definition createExtractionPrompt (m : Merger) (chunk : bytes) : bytes :=
  B "Extract structured data from the following input according to the "
  ++ quote ++ schemaTitle m ++ quote ++
  B " specification.

Instructions:
- Extract only information that is explicitly present in this chunk
- Do not invent or infer information not directly stated
- Leave fields empty/null if the information is not available in this chunk
- Follow the JSON schema structure exactly
- This is part of a larger document, so partial information is expected

Input:
" ++ chunk ++ B "

JSON Schema Reference:
" ++ specs.Schema (spec m) ++ B "

Provide the extracted data as valid JSON:".

(** The default instruction text of [createMergePrompt]. *)
Definition defaultMergeInstructions : bytes :=
  B "Merge the new data with the existing data:
- Combine arrays by appending new items
- Update object fields with new information
- Preserve existing data when not conflicted
- Use new data to fill in missing fields
- When data conflicts, prefer the new data".

(** The [fmt.Sprintf] of [createMergePrompt], given the instruction text
    chosen. *)
Definition mergePromptText (m : Merger) (instructions previousJSON newChunk : bytes)
    : bytes :=
  B "You have existing extracted data and a new chunk of text to process. Merge the new information with the existing data according to the "
  ++ quote ++ schemaTitle m ++ quote ++ B " specification.

" ++ instructions ++ B "

Existing extracted data:
" ++ previousJSON ++ B "

New chunk to merge:
" ++ newChunk ++ B "

JSON Schema Reference:
" ++ specs.Schema (spec m) ++ B "

Provide the merged result as valid JSON that follows the schema:".

(** [createMergePrompt previousJSON newChunk]. *)
Definition createMergePrompt (m : Merger) (previousJSON newChunk : bytes)
    : bytes :=
  let instructions :=
    if bytes_eqb (Instructions (options m)) [] then defaultMergeInstructions
    else Instructions (options m) in
  mergePromptText m instructions previousJSON newChunk.

(** The default instruction text of [createConsolidationPrompt]. *)
Definition defaultConsolidationInstructions : bytes :=
  B "Consolidate all the partial results into a single comprehensive result:
- Merge arrays by combining all items
- Merge objects by combining all fields
- Remove duplicates where appropriate
- Ensure the final result follows the schema structure".

(** The loop of [createConsolidationPrompt] that writes the results. *)
Fixpoint resultsStr (jsonResults : list bytes) (i : Z) : bytes :=
  match jsonResults with
  | [] => []
  | r :: rest =>
    (B "Result " ++ fmt.itoa (i + 1) ++ B ":
" ++ r ++ B "

") ++ resultsStr rest (i + 1)
  end.

(** The [fmt.Sprintf] of [createConsolidationPrompt], given the instruction
    text chosen. *)
Definition consolidationPromptText (m : Merger) (instructions : bytes)
    (jsonResults : list bytes) : bytes :=
  B "Consolidate the following partial extraction results into a single comprehensive result.

" ++ instructions ++ B "

Partial results to consolidate:
" ++ resultsStr jsonResults 0 ++ B "

JSON Schema Reference:
" ++ specs.Schema (spec m) ++ B "

Provide the consolidated result as valid JSON:".

(** [createConsolidationPrompt jsonResults]. *)
Definition createConsolidationPrompt (m : Merger) (jsonResults : list bytes)
    : bytes :=
  let instructions :=
    if bytes_eqb (Instructions (options m)) [] then
      defaultConsolidationInstructions
    else Instructions (options m) in
  consolidationPromptText m instructions jsonResults.

Section WithClient.

Variable Client : Type.
Variable provider :
  Client -> bytes -> llm.CompletionOptions ->
  (llm.CompletionResponse + error) * Client.

Local Abbreviation M := (effects.M Client).
Local Abbreviation Complete := (effects.Complete Client provider).

Definition forceJSON : llm.CompletionOptions := {| llm.ForceJSON := true |}.

(** [processSingleChunk chunk index]. *)
Definition processSingleChunk (m : Merger) (chunk : bytes) (index : Z)
    : M (result ChunkResult) :=
  let prompt := createExtractionPrompt m chunk in
  effects.Debug (B "Generated chunk extraction prompt")
    [(B "chunk_index", logging.FInt index);
     (B "prompt", logging.FString prompt)] ;;;
  r <- Complete prompt forceJSON ;;
  match r with
  | inr err =>
    effects.ret (None, Some (ErrorWrap (B "extraction failed: ") err))
  | inl response =>
    effects.ret
      (Some {| ChunkIndex := index;
               Content := chunk;
               JSONData := llm.Content response;
               Stats := Some response;
               Error := None |}, None)
  end.

(** [mergeWithPrevious previousJSON newChunk chunkIndex]. *)
Definition mergeWithPrevious (m : Merger) (previousJSON newChunk : bytes)
    (chunkIndex : Z) : M (result ChunkResult) :=
  let prompt := createMergePrompt m previousJSON newChunk in
  effects.Debug (B "Generated chunk merge prompt")
    [(B "chunk_index", logging.FInt chunkIndex);
     (B "prompt", logging.FString prompt)] ;;;
  r <- Complete prompt forceJSON ;;
  match r with
  | inr err => effects.ret (None, Some (ErrorWrap (B "merge failed: ") err))
  | inl response =>
    effects.ret
      (Some {| ChunkIndex := chunkIndex;
               Content := newChunk;
               JSONData := llm.Content response;
               Stats := Some response;
               Error := None |}, None)
  end.

(** [mergeAllResults results]. *)
Definition mergeAllResults (m : Merger) (results : list ChunkResult)
    : M (result ChunkResult) :=
  match results with
  | [only] => effects.ret (Some only, None)
  | _ =>
    let jsonResults := map JSONData results in
    let prompt := createConsolidationPrompt m jsonResults in
    effects.Debug (B "Generated consolidation prompt")
      [(B "chunk_count", logging.FInt (Z.of_nat (length results)));
       (B "prompt", logging.FString prompt)] ;;;
    r <- Complete prompt forceJSON ;;
    match r with
    | inr err =>
      effects.ret (None, Some (ErrorWrap (B "consolidation failed: ") err))
    | inl response =>
      effects.ret
        (Some {| ChunkIndex := -1;
                 Content := B "consolidated";
                 JSONData := llm.Content response;
                 Stats := Some response;
                 Error := None |}, None)
    end
  end.

(** [mergeByTemplate results]. *)
Definition mergeByTemplate (m : Merger) (results : list ChunkResult)
    : M (result ChunkResult) :=
  mergeAllResults m results.

(** The text [fmt.Sprintf("%d/%d", i+1, total)]. *)
Definition progress (i total : Z) : bytes :=
  fmt.itoa (i + 1) ++ B "/" ++ fmt.itoa total.

(** The loop of [processIncremental] over [chunks[i:]]. *)
Fixpoint incrementalLoop (m : Merger) (total : Z) (rest : list bytes)
    (i : Z) (res : ChunkResult) : M (result ChunkResult) :=
  match rest with
  | [] => effects.ret (Some res, None)
  | chunk :: rest' =>
    effects.Info (B "Processing and merging chunk")
      [(B "chunk_index", logging.FInt i);
       (B "total", logging.FInt total);
       (B "progress", logging.FString (progress i total))] ;;;
    r <- mergeWithPrevious m (JSONData res) chunk i ;;
    match r with
    | (_, Some err) =>
      effects.ret
        (None, Some (ErrorWrap
                       (B "failed to merge chunk " ++ fmt.itoa i ++ B ": ") err))
    | (None, None) => effects.panic
    | (Some merged, None) =>
      effects.Info (B "Chunk merged successfully")
        [(B "chunk_index", logging.FInt i);
         (B "progress", logging.FString (progress i total))] ;;;
      incrementalLoop m total rest' (i + 1) merged
    end
  end.

(** [processIncremental chunks]; [chunks[0]] panics on an empty slice. *)
Definition processIncremental (m : Merger) (chunks : list bytes)
    : M (result ChunkResult) :=
  let total := Z.of_nat (length chunks) in
  effects.Info (B "Starting incremental processing")
    [(B "total_chunks", logging.FInt total);
     (B "strategy", logging.FString (B "incremental"))] ;;;
  effects.Info (B "Processing chunk")
    [(B "chunk_index", logging.FInt 0);
     (B "total", logging.FInt total);
     (B "progress", logging.FString (B "1/" ++ fmt.itoa total))] ;;;
  match chunks with
  | [] => effects.panic
  | chunk0 :: rest =>
    r <- processSingleChunk m chunk0 0 ;;
    match r with
    | (_, Some err) =>
      effects.ret
        (None, Some (ErrorWrap (B "failed to process first chunk: ") err))
    | (None, None) => effects.panic
    | (Some res, None) =>
      effects.Info (B "First chunk processed successfully")
        [(B "chunk_index", logging.FInt 0)] ;;;
      r <- incrementalLoop m total rest 1 res ;;
      match r with
      | (Some res, None) =>
        effects.Info (B "Incremental processing completed")
          [(B "total_chunks", logging.FInt total)] ;;;
        effects.ret (Some res, None)
      | failed => effects.ret failed
      end
    end
  end.

(** Phase 1 of [processTwoPass]: the loop over [chunks[i:]]. *)
Fixpoint twoPassLoop (m : Merger) (total : Z) (rest : list bytes) (i : Z)
    (chunkResults : list ChunkResult) : M (result (list ChunkResult)) :=
  match rest with
  | [] => effects.ret (Some chunkResults, None)
  | chunk :: rest' =>
    effects.Info (B "Processing chunk")
      [(B "chunk_index", logging.FInt i);
       (B "total", logging.FInt total);
       (B "progress", logging.FString (progress i total));
       (B "phase", logging.FInt 1)] ;;;
    r <- processSingleChunk m chunk i ;;
    match r with
    | (_, Some err) =>
      effects.ret
        (None, Some (ErrorWrap
                       (B "failed to process chunk " ++ fmt.itoa i ++ B ": ") err))
    | (None, None) => effects.panic
    | (Some res, None) =>
      effects.Info (B "Chunk processed successfully")
        [(B "chunk_index", logging.FInt i); (B "phase", logging.FInt 1)] ;;;
      twoPassLoop m total rest' (i + 1) (chunkResults ++ [res])
    end
  end.

(** [processTwoPass chunks]. *)
Definition processTwoPass (m : Merger) (chunks : list bytes)
    : M (result ChunkResult) :=
  let total := Z.of_nat (length chunks) in
  effects.Info (B "Starting two-pass processing")
    [(B "total_chunks", logging.FInt total);
     (B "strategy", logging.FString (B "two-pass"))] ;;;
  effects.Info (B "Phase 1: Processing all chunks independently")
    [(B "phase", logging.FInt 1)] ;;;
  r <- twoPassLoop m total chunks 0 [] ;;
  match r with
  | (_, Some err) => effects.ret (None, Some err)
  | (None, None) => effects.panic
  | (Some chunkResults, None) =>
    effects.Info (B "Phase 2: Merging all results")
      [(B "phase", logging.FInt 2);
       (B "chunk_count", logging.FInt (Z.of_nat (length chunkResults)))] ;;;
    r <- mergeAllResults m chunkResults ;;
    match r with
    | (_, Some err) => effects.ret (None, Some err)
    | (res, None) =>
      effects.Info (B "Two-pass processing completed")
        [(B "total_chunks", logging.FInt total)] ;;;
      effects.ret (res, None)
    end
  end.

(** The loop of [processTemplateDriven] over [chunks[i:]]. *)
Fixpoint templateLoop (m : Merger) (total : Z) (rest : list bytes) (i : Z)
    (chunkResults : list ChunkResult) : M (result (list ChunkResult)) :=
  match rest with
  | [] => effects.ret (Some chunkResults, None)
  | chunk :: rest' =>
    effects.Info (B "Processing chunk")
      [(B "chunk_index", logging.FInt i);
       (B "total", logging.FInt total);
       (B "progress", logging.FString (progress i total))] ;;;
    r <- processSingleChunk m chunk i ;;
    match r with
    | (_, Some err) =>
      effects.ret
        (None, Some (ErrorWrap
                       (B "failed to process chunk " ++ fmt.itoa i ++ B ": ") err))
    | (None, None) => effects.panic
    | (Some res, None) =>
      effects.Info (B "Chunk processed successfully")
        [(B "chunk_index", logging.FInt i)] ;;;
      templateLoop m total rest' (i + 1) (chunkResults ++ [res])
    end
  end.

(** [processTemplateDriven chunks]. *)
Definition processTemplateDriven (m : Merger) (chunks : list bytes)
    : M (result ChunkResult) :=
  let total := Z.of_nat (length chunks) in
  effects.Info (B "Starting template-driven processing")
    [(B "total_chunks", logging.FInt total);
     (B "strategy", logging.FString (B "template-driven"))] ;;;
  r <- templateLoop m total chunks 0 [] ;;
  match r with
  | (_, Some err) => effects.ret (None, Some err)
  | (None, None) => effects.panic
  | (Some chunkResults, None) =>
    effects.Info (B "Starting schema-driven merging")
      [(B "chunk_count", logging.FInt (Z.of_nat (length chunkResults)))] ;;;
    r <- mergeByTemplate m chunkResults ;;
    match r with
    | (_, Some err) => effects.ret (None, Some err)
    | (res, None) =>
      effects.Info (B "Template-driven processing completed")
        [(B "total_chunks", logging.FInt total)] ;;;
      effects.ret (res, None)
    end
  end.

(** [ProcessChunks chunks]. *)
Definition ProcessChunks (m : Merger) (chunks : list bytes)
    : M (result ChunkResult) :=
  match chunks with
  | [] => effects.ret (None, Some (ErrorNew (B "no chunks to process")))
  | [chunk] => processSingleChunk m chunk 0
  | _ =>
    if bytes_eqb (Strategy (options m)) StrategyIncremental then
      processIncremental m chunks
    else if bytes_eqb (Strategy (options m)) StrategyTwoPass then
      processTwoPass m chunks
    else if bytes_eqb (Strategy (options m)) StrategyTemplateDriven then
      processTemplateDriven m chunks
    else
      effects.ret
        (None, Some (ErrorNew (B "unknown merge strategy: "
                               ++ Strategy (options m))))
  end.

(** The part of [runExtractCommand] (cmd/aspec/commands.go) that runs after
    the input was chunked: the strategy flag is parsed, the merger is built
    and the chunks are processed. *)
Definition runExtractChunks (sp : specs.Spec)
    (mergeStrategy mergeInstructions : bytes) (maxRetries : Z)
    (showStats : bool) (chunks : list bytes) : M (result ChunkResult) :=
  let parsed :=
    if bytes_eqb mergeStrategy (B "incremental") then Some StrategyIncremental
    else if bytes_eqb mergeStrategy (B "two-pass") then Some StrategyTwoPass
    else if bytes_eqb mergeStrategy (B "template-driven") then
      Some StrategyTemplateDriven
    else None in
  match parsed with
  | None =>
    effects.ret
      (None, Some (ErrorNew (B "unknown merge strategy: " ++ mergeStrategy)))
  | Some strategy =>
    let m := NewMerger sp {| Strategy := strategy;
                             Instructions := mergeInstructions;
                             MaxRetries := maxRetries;
                             ShowStats := showStats |} in
    r <- ProcessChunks m chunks ;;
    match r with
    | (_, Some err) =>
      effects.ret (None, Some (ErrorWrap (B "failed to process chunks: ") err))
    | ok => effects.ret ok
    end
  end.

End WithClient.

End merger.

(** ** validate/validator.go *)
Module validate.

Record ValidationError : Type := {
  Path : bytes;
  Message : bytes
}.

Record ValidationResult : Type := {
  Valid : bool;
  Errors : list ValidationError
}.

Section WithSchema.

(** The two library calls of [Validate]: [json.Unmarshal], which yields a
    value or an error text, and the compiled schema's [Validate], which
    yields nil ([None]) or an evaluation result. *)
Variable JSONValue : Type.
Variable EvaluationResult : Type.
Variable Unmarshal : bytes -> JSONValue + bytes.
Variable schemaValidate : JSONValue -> option EvaluationResult.

(** [Validate data]. *)
Definition Validate (data : bytes) : ValidationResult :=
  match Unmarshal data with
  | inr err =>
    {| Valid := false;
       Errors := [ {| Path := B "root";
                      Message := B "Invalid JSON: " ++ err |} ] |}
  | inl jsonData =>
    match schemaValidate jsonData with
    | None => {| Valid := true; Errors := [] |}
    | Some _ =>
      {| Valid := false;
         Errors := [] ++ [ {| Path := B "root";
                              Message := B "Validation failed" |} ] |}
    end
  end.

(** [createRepairPrompt originalPrompt invalidJSON result]. *)
Definition createRepairPrompt (originalPrompt invalidJSON : bytes)
    (res : ValidationResult) : bytes :=
  let errorMessages :=
    map (fun err => B "- " ++ Path err ++ B ": " ++ Message err) (Errors res) in
  B "The previous response was invalid JSON according to the schema. Please fix the following validation errors and provide a corrected JSON response:

Validation errors:
" ++ strings.Join errorMessages [x0a] ++ B "

Original prompt: " ++ originalPrompt ++ B "

Invalid JSON response:
" ++ invalidJSON ++ B "

Please provide a corrected JSON response that follows the schema exactly:".

(** [FormatErrors]. *)
Definition FormatErrors (r : ValidationResult) : bytes :=
  if Valid r then B "No validation errors"
  else
    let messages :=
      map (fun err =>
             if negb (bytes_eqb (Path err) []) && negb (bytes_eqb (Path err) (B "root"))
             then B "  " ++ Path err ++ B ": " ++ Message err
             else B "  " ++ Message err) (Errors r) in
    B "Validation errors:
" ++ strings.Join messages [x0a].

Variable Client : Type.
Variable provider :
  Client -> bytes -> llm.CompletionOptions ->
  (llm.CompletionResponse + error) * Client.

Local Abbreviation M := (effects.M Client).
Local Abbreviation Complete := (effects.Complete Client provider).

(** What [ValidateAndRetry] returns: [([]byte, *ValidationResult, error)]. *)
Definition retried : Type :=
  (bytes * option ValidationResult * option error)%type.

(** The retry loop of [ValidateAndRetry], from [attempt] on; [turns] bounds
    the turns left, and [maxRetries - attempt + 1] of them are enough. *)
Fixpoint retryLoop (input : bytes) (maxRetries : Z) (turns : nat)
    (attempt : Z) (data : bytes) (res : ValidationResult) : M retried :=
  if attempt <=? maxRetries then
    match turns with
    | O => fun w => (OutOfFuel, w)
    | S turns' =>
      effects.Printf
        (B "Validation failed (attempt " ++ fmt.itoa attempt ++ B "/"
         ++ fmt.itoa (maxRetries + 1) ++ B "), retrying with feedback...
") ;;;
      let repairPrompt := createRepairPrompt input data res in
      r <- Complete repairPrompt {| llm.ForceJSON := true |} ;;
      match r with
      | inr err =>
        effects.ret
          ([], Some res,
           Some (ErrorWrap (B "retry attempt " ++ fmt.itoa attempt
                            ++ B " failed: ") err))
      | inl response =>
        let data := llm.Content response in
        let res := Validate data in
        if Valid res then effects.ret (data, Some res, None)
        else retryLoop input maxRetries turns' (attempt + 1) data res
      end
    end
  else
    effects.ret
      (data, Some res,
       Some (ErrorNew (B "validation failed after " ++ fmt.itoa maxRetries
                       ++ B " retries"))).

(** [ValidateAndRetry ctx client input maxRetries]. *)
Definition ValidateAndRetry (input : bytes) (maxRetries : Z) : M retried :=
  r <- Complete input {| llm.ForceJSON := true |} ;;
  match r with
  | inr err =>
    effects.ret
      ([], None, Some (ErrorWrap (B "initial completion failed: ") err))
  | inl response =>
    let data := llm.Content response in
    let res := Validate data in
    if Valid res then effects.ret (data, Some res, None)
    else retryLoop input maxRetries (Z.to_nat maxRetries) 1 data res
  end.

End WithSchema.

End validate.

(** ** The chunked extraction of the extract command and of the renderer *)
Module extraction.

(** Go's integer division, which panics on a zero divisor. *)
Definition div (a b : Z) : outcome Z :=
  if b =? 0 then Panicked else Returned (Z.quot a b).

Section WithClient.

Variable Client : Type.
Variable provider :
  Client -> bytes -> llm.CompletionOptions ->
  (llm.CompletionResponse + error) * Client.

Local Abbreviation M := (effects.M Client).

(** A computation that does not touch the world. *)
Definition lift {A} (o : outcome A) : M A := fun w => (o, w).

(** The loop of [runExtractCommand] that logs the size of each chunk. *)
Fixpoint chunkDetails (chunks : list bytes) (i : Z) : M unit :=
  match chunks with
  | [] => effects.ret tt
  | chunk :: rest =>
    effects.Debug (B "Chunk details")
      [(B "chunk_index", logging.FInt i);
       (B "tokens", logging.FInt (tokenizer.CountTokens chunk));
       (B "characters", logging.FInt (len chunk))] ;;;
    chunkDetails rest (i + 1)
  end.

(** The branch of [runExtractCommand] (cmd/aspec/commands.go) taken when
    the input is over the chunk size, up to the result of [ProcessChunks]:
    the input is chunked, the chunking is logged with the average chunk
    size, and the chunks are processed. *)
Definition extractChunked (sp : specs.Spec) (chunkSize : Z)
    (mergeStrategy mergeInstructions : bytes) (maxRetries : Z)
    (showStats : bool) (input : bytes) : M (result merger.ChunkResult) :=
  let inputTokens := tokenizer.CountTokens input in
  effects.Info (B "Input exceeds chunk limit, using chunked processing")
    [(B "tokens", logging.FInt inputTokens);
     (B "limit", logging.FInt chunkSize);
     (B "strategy", logging.FString mergeStrategy)] ;;;
  chunks <- lift (tokenizer.ChunkText (tokenizer.NewChunker chunkSize) input) ;;
  avg <- lift (div inputTokens (Z.of_nat (length chunks))) ;;
  effects.Info (B "Input successfully chunked")
    [(B "total_tokens", logging.FInt inputTokens);
     (B "chunk_limit", logging.FInt chunkSize);
     (B "chunk_count", logging.FInt (Z.of_nat (length chunks)));
     (B "avg_chunk_size", logging.FInt avg)] ;;;
  chunkDetails chunks 0 ;;;
  merger.runExtractChunks Client provider sp mergeStrategy mergeInstructions
    maxRetries showStats chunks.

(** The chunk size [Render] uses for the option [ChunkSize]. *)
Definition renderChunkSize (ChunkSize : Z) : Z :=
  if ChunkSize <=? 0 then 20000 else ChunkSize.

(** The same branch of [Render] (internal/render): the chunk size and the
    strategy name have defaults, and the merger's retry bound is 2. The
    statements from the strategy switch to the wrapped error of
    [ProcessChunks] are those of [runExtractCommand]. *)
Definition renderChunked (sp : specs.Spec) (ChunkSize : Z)
    (MergeStrategy MergeInstructions : bytes) (ShowStats : bool)
    (input : bytes) : M (result merger.ChunkResult) :=
  let inputTokens := tokenizer.CountTokens input in
  let chunkSize := renderChunkSize ChunkSize in
  effects.Info (B "Input exceeds chunk limit, using chunked processing")
    [(B "tokens", logging.FInt inputTokens);
     (B "limit", logging.FInt chunkSize);
     (B "strategy", logging.FString MergeStrategy)] ;;;
  chunks <- lift (tokenizer.ChunkText (tokenizer.NewChunker chunkSize) input) ;;
  avg <- lift (div inputTokens (Z.of_nat (length chunks))) ;;
  effects.Info (B "Input successfully chunked")
    [(B "total_tokens", logging.FInt inputTokens);
     (B "chunk_limit", logging.FInt chunkSize);
     (B "chunk_count", logging.FInt (Z.of_nat (length chunks)));
     (B "avg_chunk_size", logging.FInt avg)] ;;;
  let strategy :=
    if bytes_eqb MergeStrategy [] then B "incremental" else MergeStrategy in
  merger.runExtractChunks Client provider sp strategy MergeInstructions 2
    ShowStats chunks.

End WithClient.

End extraction.

(** * Vocabulary of the statements *)

(** The estimate of [CountTokens] as a function of the number of runes. *)
Definition estimate (n : Z) : Z :=
  float64.mul1_1_trunc (float64.div4_trunc n).

(** A non-empty string that is exactly the encoding of one white-space
    rune. *)
Definition SpaceRune (e : bytes) : Prop :=
  e <> [] /\
  exists r, utf8.DecodeRuneInString e = (r, length e) /\ unicode.IsSpace r = true.

(** White space only: a sequence of encoded white-space runes. *)
Inductive SpaceRun : bytes -> Prop :=
| SpaceRun_nil : SpaceRun []
| SpaceRun_cons e s : SpaceRune e -> SpaceRun s -> SpaceRun (e ++ s).

(** [Pieces gap chunks e text]: [text] is the chunks in order, each followed
    by a gap that satisfies [gap], and then [e]. *)
Inductive Pieces (gap : bytes -> Prop) : list bytes -> bytes -> bytes -> Prop :=
| Pieces_nil e : Pieces gap [] e e
| Pieces_cons c g cs e rest :
    gap g -> Pieces gap cs e rest -> Pieces gap (c :: cs) e (c ++ g ++ rest).

(** [Rebuilds gap chunks text]: concatenating the chunks gives [text] back
    once a gap is put back after each chunk and white space at the end.
    With [SpaceRun] for [gap], only white space is put back. *)
Definition Rebuilds (gap : bytes -> Prop) (chunks : list bytes) (text : bytes)
    : Prop :=
  exists tail, SpaceRun tail /\ Pieces gap chunks tail text.

(** What a split may drop after a chunk: one of the semantic boundaries, or
    white space only. *)
Definition Gap (g : bytes) : Prop := In g tokenizer.boundaries \/ SpaceRun g.

Definition withinBudget (c : tokenizer.Chunker) (chunk : bytes) : Prop :=
  tokenizer.CountTokens chunk <= tokenizer.maxTokens c.

(** The character limit of [forceSplit]. *)
Definition charLimit (c : tokenizer.Chunker) : Z :=
  float64.mul4_mul0_8_trunc (tokenizer.maxTokens c).

(** Every chunk is within the budget, except at most one, which is within
    the character limit of a forced split. *)
Definition BudgetInvariant (c : tokenizer.Chunker) (chunks : list bytes) : Prop :=
  exists pre exc post,
    chunks = pre ++ exc ++ post /\ (length exc <= 1)%nat /\
    Forall (withinBudget c) pre /\ Forall (withinBudget c) post /\
    Forall (fun x => len x <= charLimit c) exc.

(** What [tryBoundary] returns: nothing, or a chunk within the budget cut
    off [whole] at [sep]. *)
Definition cutAt (c : tokenizer.Chunker) (sep whole : bytes) (r : bytes * bytes)
    : Prop :=
  fst r = [] \/
  (withinBudget c (fst r) /\
   (whole = fst r ++ sep ++ snd r \/ (fst r = whole /\ snd r = []))).

(** What [findOptimalChunk] returns: nothing, or a chunk within the budget
    cut off [text] at one of the boundaries. *)
Definition cutAtBoundary (c : tokenizer.Chunker) (text : bytes)
    (r : bytes * bytes) : Prop :=
  fst r = [] \/
  (withinBudget c (fst r) /\
   ((exists sep, In sep tokenizer.boundaries /\ text = fst r ++ sep ++ snd r) \/
    (fst r = text /\ snd r = []))).

(** [k] is the ceiling of [t / b]. *)
Definition isCeiling (k t b : Z) : Prop := (k - 1) * b < t <= k * b.

(** The call asked for the extraction of [chunk]. *)
Definition isExtractionCall (m : merger.Merger) (chunk : bytes) (k : effects.Call)
    : Prop :=
  effects.sent k = merger.createExtractionPrompt m chunk.

(** The call asked to merge [chunk] into some earlier result. *)
Definition isMergeCall (m : merger.Merger) (chunk : bytes) (k : effects.Call)
    : Prop :=
  exists previousJSON,
    effects.sent k = merger.createMergePrompt m previousJSON chunk.

(** The call asked to consolidate [n] results. *)
Definition isConsolidationCall (m : merger.Merger) (n : nat) (k : effects.Call)
    : Prop :=
  exists jsonResults,
    length jsonResults = n /\
    effects.sent k = merger.createConsolidationPrompt m jsonResults.

(** The calls of the incremental strategy: one extraction, for the first
    chunk, then one merge per later chunk, in order. *)
Definition incrementalCalls (m : merger.Merger) (chunks : list bytes)
    (ks : list effects.Call) : Prop :=
  match chunks, ks with
  | chunk0 :: rest, k0 :: ks' =>
    isExtractionCall m chunk0 k0 /\ Forall2 (isMergeCall m) rest ks'
  | _, _ => False
  end.

(** The calls of the two-pass and template-driven strategies: one
    extraction per chunk, in order, then one consolidation. *)
Definition twoPassCalls (m : merger.Merger) (chunks : list bytes)
    (ks : list effects.Call) : Prop :=
  exists extractions k,
    ks = extractions ++ [k] /\
    Forall2 (isExtractionCall m) chunks extractions /\
    isConsolidationCall m (length chunks) k.

(** [m] with another strategy. *)
Definition withStrategy (m : merger.Merger) (s : merger.MergeStrategy)
    : merger.Merger :=
  merger.NewMerger (merger.spec m)
    {| merger.Strategy := s;
       merger.Instructions := merger.Instructions (merger.options m);
       merger.MaxRetries := merger.MaxRetries (merger.options m);
       merger.ShowStats := merger.ShowStats (merger.options m) |}.

(** A strategy value outside the three named ones. *)
Definition unknownStrategy (s : merger.MergeStrategy) : Prop :=
  s <> merger.StrategyIncremental /\ s <> merger.StrategyTwoPass /\
  s <> merger.StrategyTemplateDriven.

(** The payload of the last call, when that call succeeded. *)
Definition lastPayload (ks : list effects.Call) : option bytes :=
  match rev ks with
  | k :: _ =>
    match effects.reply k with
    | inl resp => Some (llm.Content resp)
    | inr _ => None
    end
  | [] => None
  end.

(** The error [ValidateAndRetry] returns when its retries are used up. *)
Definition exhausted (k : Z) : error :=
  ErrorNew (B "validation failed after " ++ fmt.itoa k ++ B " retries").

Section Provider.

Variable Client : Type.
Variable provider :
  Client -> bytes -> llm.CompletionOptions ->
  (llm.CompletionResponse + error) * Client.

(** The provider's [Complete] succeeds on every call. *)
Definition alwaysSucceeds : Prop :=
  forall cl p o, exists resp cl', provider cl p o = (inl resp, cl').

(** What of a world the provider and the user can see: everything but the
    logging calls. *)
Definition observable (w : effects.World Client) :=
  (effects.client w, effects.calls w, effects.stdout w).

(** Two computations that agree, up to logging, from worlds that agree up
    to logging. *)
Definition sim {A} (m1 m2 : effects.M Client A) : Prop :=
  forall w1 w2 : effects.World Client,
    observable w1 = observable w2 ->
    fst (m1 w1) = fst (m2 w2) /\
    observable (snd (m1 w1)) = observable (snd (m2 w2)).

(** The world after one more logging call. *)
Definition addLog (w : effects.World Client) (e : logging.Entry)
    : effects.World Client :=
  {| effects.client := effects.client w;
     effects.calls := effects.calls w;
     effects.logCalls := effects.logCalls w ++ [e];
     effects.stdout := effects.stdout w |}.

Variable JSONValue : Type.
Variable EvaluationResult : Type.
Variable Unmarshal : bytes -> JSONValue + bytes.
Variable schemaValidate : JSONValue -> option EvaluationResult.

(** The provider never returns a schema-valid payload. *)
Definition neverValid : Prop :=
  forall cl p o resp cl',
    provider cl p o = (inl resp, cl') ->
    validate.Valid
      (validate.Validate JSONValue EvaluationResult Unmarshal schemaValidate
         (llm.Content resp)) = false.

End Provider.

Arguments observable {Client} w.
Arguments sim {Client A} m1 m2.
Arguments addLog {Client} w e.

(** ** Inputs of the examples *)

Definition exampleSpec : specs.Spec :=
  {| specs.Slug := B "meeting_summary"; specs.Title := B "Meeting Summary";
     specs.Schema := B "{}" |}.

Definition exampleMerger (strategy instructions : bytes) : merger.Merger :=
  merger.NewMerger exampleSpec
    {| merger.Strategy := strategy; merger.Instructions := instructions;
       merger.MaxRetries := 2; merger.ShowStats := false |}.

(** The world before the first call, with the mock client. *)
Definition mockWorld : effects.World llm.MockClient :=
  {| effects.client := llm.NewMockClient (B "mock");
     effects.calls := []; effects.logCalls := []; effects.stdout := [] |}.

(** A merger whose spec and options are all empty: its prompts are the
    fixed text of the templates. *)
Definition emptyMerger : merger.Merger :=
  merger.NewMerger {| specs.Slug := []; specs.Title := []; specs.Schema := [] |}
    {| merger.Strategy := []; merger.Instructions := [];
       merger.MaxRetries := 0; merger.ShowStats := false |}.

(** A JSON parser that rejects every payload, for runs of the mock client,
    whose payload is not JSON. *)
Definition rejectAll (data : bytes) : unit + bytes :=
  inr (B "invalid character 'M' looking for beginning of value").

(** ** Runs with any provider *)

(** [text[j]] is one of the three bytes at which [forceSplit] cuts. *)
Definition blankAt (text : bytes) (j : Z) : bool :=
  tokenizer.isBlank (nth (Z.to_nat j) text x00).

(** [runs f w post]: from the world [w], [f] returns a value (it neither
    panics nor runs for ever); [post] holds of that value and of the
    provider calls [f] made, in order. *)
Definition runs {Client A} (f : effects.M Client A) (w : effects.World Client)
    (post : A -> list effects.Call -> Prop) : Prop :=
  exists a w' ks,
    f w = (Returned a, w') /\ effects.calls w' = effects.calls w ++ ks /\ post a ks.

(** The provider answered the call without an error. *)
Definition succeeded (k : effects.Call) : bool :=
  match effects.reply k with inl _ => true | inr _ => false end.

(** The payloads of the calls that succeeded, in order. *)
Definition payloads (ks : list effects.Call) : list bytes :=
  flat_map (fun k => match effects.reply k with
                     | inl resp => [llm.Content resp]
                     | inr _ => []
                     end) ks.

(** What a function returns after a run that stops at the first call the
    provider fails: a value when every call succeeded, and otherwise an
    error whose text ends with the text of the provider's error, after
    calls that all succeeded but the last. *)
Definition stoppedAtFailure {A} (r : result A) (ks : list effects.Call) : Prop :=
  match r with
  | (Some _, None) => Forall (fun k => succeeded k = true) ks
  | (None, Some e) =>
    exists pre k pe prefix,
      ks = pre ++ [k] /\ Forall (fun k => succeeded k = true) pre /\
      effects.reply k = inr pe /\ ErrorText e = prefix ++ ErrorText pe
  | _ => False
  end.

(** The call carries the schema of the merger's spec and asks for JSON. *)
Definition carriesSchema (m : merger.Merger) (k : effects.Call) : Prop :=
  strings.Contains (effects.sent k) (specs.Schema (merger.spec m)) = true /\
  llm.ForceJSON (effects.sentOptions k) = true.

(** One of the three strategy values [ProcessChunks] knows. *)
Definition knownStrategy (s : merger.MergeStrategy) : Prop :=
  s = merger.StrategyIncremental \/ s = merger.StrategyTwoPass \/
  s = merger.StrategyTemplateDriven.

(** A run that stopped at the first failure, after at most [bound] calls
    that all carried the schema. *)
Definition disciplined (m : merger.Merger) (bound : nat) {A} (r : result A)
    (ks : list effects.Call) : Prop :=
  stoppedAtFailure r ks /\ Forall (carriesSchema m) ks /\ (length ks <= bound)%nat.

(** [chained m prompt rest ks]: the first call of [ks] sent [prompt]; when
    it succeeded and a chunk is left, the next call sent the merge prompt
    made of its payload and that chunk, and so on; no call follows a call
    that failed, nor the call for the last chunk. *)
Fixpoint chained (m : merger.Merger) (prompt : bytes) (rest : list bytes)
    (ks : list effects.Call) {struct ks} : Prop :=
  match ks with
  | [] => True
  | k :: ks' =>
    effects.sent k = prompt /\
    match effects.reply k, rest with
    | inl resp, chunk :: rest' =>
      chained m (merger.createMergePrompt m (llm.Content resp) chunk) rest' ks'
    | _, _ => ks' = []
    end
  end.

(** The calls of a run of the incremental strategy, whatever the provider
    answers. *)
Definition incrementalChain (m : merger.Merger) (chunks : list bytes)
    (ks : list effects.Call) : Prop :=
  match chunks with
  | [] => False
  | chunk0 :: rest =>
    ks <> [] /\ chained m (merger.createExtractionPrompt m chunk0) rest ks
  end.

(** One partial result as [createConsolidationPrompt] writes it, under its
    number. *)
Definition resultLabel (n : Z) (r : bytes) : bytes :=
  B "Result " ++ fmt.itoa n ++ B ":
" ++ r ++ B "

".

Section RepairVocabulary.

Variable JSONValue : Type.
Variable EvaluationResult : Type.
Variable Unmarshal : bytes -> JSONValue + bytes.
Variable schemaValidate : JSONValue -> option EvaluationResult.

Local Abbreviation Validate :=
  (validate.Validate JSONValue EvaluationResult Unmarshal schemaValidate).

(** [repairChain input prompt ks]: the first call of [ks] sent [prompt] and
    asked for JSON; when its payload was not valid, the next call sent the
    repair prompt made of [input], that payload and its findings, and so
    on; no call follows a valid payload or a call that failed. *)
Fixpoint repairChain (input prompt : bytes) (ks : list effects.Call) : Prop :=
  match ks with
  | [] => True
  | k :: ks' =>
    effects.sent k = prompt /\ llm.ForceJSON (effects.sentOptions k) = true /\
    match effects.reply k with
    | inl resp =>
      let data := llm.Content resp in
      if validate.Valid (Validate data) then ks' = []
      else repairChain input
             (validate.createRepairPrompt input data (Validate data)) ks'
    | inr _ => ks' = []
    end
  end.

(** The three ways [ValidateAndRetry] ends, read off what it returns and
    the calls it made: a valid payload; a call the provider failed; or the
    retries used up on payloads that were all invalid. *)
Definition retryOutcome (k : Z) (r : validate.retried) (ks : list effects.Call)
    : Prop :=
  let '(data, res, err) := r in
  match err with
  | None =>
    lastPayload ks = Some data /\ res = Some (Validate data) /\
    validate.Valid (Validate data) = true
  | Some e =>
    (exists pre k1 pe prefix,
       ks = pre ++ [k1] /\ Forall (fun k => succeeded k = true) pre /\
       effects.reply k1 = inr pe /\ ErrorText e = prefix ++ ErrorText pe /\
       data = []) \/
    (e = exhausted k /\ Forall (fun k => succeeded k = true) ks /\
     Z.of_nat (length ks) = Z.max k 0 + 1 /\
     lastPayload ks = Some data /\ res = Some (Validate data) /\
     validate.Valid (Validate data) = false)
  end.

End RepairVocabulary.

(** ** More inputs of the examples *)

(** A provider that fails its second call and answers every other one with
    an empty object; its state counts the calls. *)
Definition failsSecondCall (n : nat) (prompt : bytes)
    (opts : llm.CompletionOptions) : (llm.CompletionResponse + error) * nat :=
  (if (n =? 1)%nat then inr (ErrorNew (B "rate limited"))
   else inl {| llm.Content := B "{}";
               llm.TokensUsed := {| llm.PromptTokens := 0;
                                    llm.CompletionTokens := 0;
                                    llm.TotalTokens := 0 |};
               llm.Duration := 0;
               llm.Model := B "test" |},
   S n).

(** The world before the first call of that provider. *)
Definition freshWorld : effects.World nat :=
  {| effects.client := 0%nat;
     effects.calls := []; effects.logCalls := []; effects.stdout := [] |}.

(** A text of seven words. *)
Definition sevenWords : bytes := B "one two three four five six seven".

(** A text of 100000 bytes, over the default chunk size of [Render]. *)
Definition longInput : bytes := concat (repeat (B "word ") (Z.to_nat 20000)).

(** * Proofs *)

(** ** Rounding to 53 significant bits *)

Module float64_facts.
Import float64.

Lemma round53_small n : 0 <= n < 2 ^ 53 -> round53 n = n.
Proof.
  intros [H0 H1]. unfold round53.
  destruct (Z.eq_dec n 0) as [->|Hn]; [reflexivity|].
  assert (Z.log2 (Z.abs n) < 53).
  { apply Z.log2_lt_pow2; rewrite Z.abs_eq; lia. }
  destruct (Z.leb_spec (Z.log2 (Z.abs n) - 52) 0); [reflexivity|lia].
Qed.

(** The shape of [round53] on a positive integer that needs rounding. *)
Lemma round53_pos_cases n :
  0 < n ->
  let s := Z.log2 n - 52 in
  (s <= 0 /\ round53 n = n) \/
  (0 < s /\ 2 ^ 52 <= n / 2 ^ s < 2 ^ 53 /\
   exists up : bool,
     round53 n = (n / 2 ^ s + (if up then 1 else 0)) * 2 ^ s /\
     up = (2 ^ (s - 1) <? n mod 2 ^ s) || ((n mod 2 ^ s =? 2 ^ (s - 1)) && Z.odd (n / 2 ^ s))).
Proof.
  intros Hn s. unfold round53. rewrite Z.abs_eq by lia. fold s.
  destruct (Z.leb_spec s 0) as [Hs|Hs]; [left; auto|right].
  split; [lia|].
  assert (Hlog := Z.log2_spec n Hn).
  assert (Hp : 0 < 2 ^ s) by (apply Z.pow_pos_nonneg; lia).
  assert (E1 : 2 ^ Z.log2 n = 2 ^ 52 * 2 ^ s).
  { rewrite <- Z.pow_add_r by lia. f_equal. lia. }
  assert (E2 : 2 ^ Z.succ (Z.log2 n) = 2 ^ 53 * 2 ^ s).
  { rewrite <- Z.pow_add_r by lia. f_equal. lia. }
  split.
  - split.
    + apply Z.div_le_lower_bound; lia.
    + apply Z.div_lt_upper_bound; lia.
  - exists ((2 ^ (s - 1) <? n mod 2 ^ s) || ((n mod 2 ^ s =? 2 ^ (s - 1)) && Z.odd (n / 2 ^ s))).
    split; [|reflexivity].
    rewrite Z.sgn_pos by lia.
    destruct (_ || _); lia.
Qed.

Lemma round53_bracket n :
  0 < n -> 2 ^ Z.log2 n <= round53 n <= 2 ^ (Z.log2 n + 1).
Proof.
  intros Hn. assert (Hlog := Z.log2_spec n Hn).
  destruct (round53_pos_cases n Hn) as [[Hs ->]|(Hs & Hq & up & -> & _)].
  - replace (Z.log2 n + 1) with (Z.succ (Z.log2 n)) by lia. lia.
  - set (s := Z.log2 n - 52) in *.
    assert (Hp : 0 < 2 ^ s) by (apply Z.pow_pos_nonneg; lia).
    assert (E1 : 2 ^ Z.log2 n = 2 ^ 52 * 2 ^ s).
    { rewrite <- Z.pow_add_r by lia. f_equal. lia. }
    assert (E2 : 2 ^ (Z.log2 n + 1) = 2 ^ 53 * 2 ^ s).
    { rewrite <- Z.pow_add_r by lia. f_equal. lia. }
    rewrite E1, E2. destruct up; nia.
Qed.

Lemma round53_nonneg n : 0 <= n -> 0 <= round53 n.
Proof.
  intros Hn. destruct (Z.eq_dec n 0) as [->|]; [vm_compute; discriminate|].
  pose proof (round53_bracket n ltac:(lia)).
  pose proof (Z.pow_pos_nonneg 2 (Z.log2 n) ltac:(lia) (Z.log2_nonneg n)). lia.
Qed.

(** Rounding moves a non-negative integer by at most 2^-53 of itself. *)
Lemma round53_upper n : 0 <= n -> 2 ^ 53 * round53 n <= (2 ^ 53 + 1) * n.
Proof.
  intros Hn. destruct (Z.eq_dec n 0) as [->|]; [vm_compute; discriminate|].
  assert (Hpos : 0 < n) by lia.
  assert (Hlog := Z.log2_spec n Hpos).
  destruct (round53_pos_cases n Hpos) as [[Hs ->]|(Hs & Hq & up & -> & Hup)]; [lia|].
  set (s := Z.log2 n - 52) in *.
  assert (Hp : 0 < 2 ^ (s - 1)) by (apply Z.pow_pos_nonneg; lia).
  assert (E0 : 2 ^ s = 2 * 2 ^ (s - 1)).
  { replace s with (1 + (s - 1)) at 1 by lia. rewrite Z.pow_add_r by lia. reflexivity. }
  assert (E1 : 2 ^ Z.log2 n = 2 ^ 53 * 2 ^ (s - 1)).
  { rewrite <- Z.pow_add_r by lia. f_equal. lia. }
  pose proof (Z.div_mod n (2 ^ s) ltac:(lia)) as Hdm.
  pose proof (Z.mod_pos_bound n (2 ^ s) ltac:(lia)) as Hmod.
  destruct up.
  - symmetry in Hup. apply orb_true_iff in Hup.
    assert (2 ^ (s - 1) <= n mod 2 ^ s).
    { destruct Hup as [H|H]; [apply Z.ltb_lt in H; lia|].
      apply andb_true_iff in H. destruct H as [H _]. apply Z.eqb_eq in H. lia. }
    nia.
  - nia.
Qed.

Lemma round53_le_mono a b : 0 <= a <= b -> round53 a <= round53 b.
Proof.
  intros [Ha Hab].
  destruct (Z.eq_dec a 0) as [->|Hna].
  { change (round53 0) with 0. apply round53_nonneg. lia. }
  assert (Hpa : 0 < a) by lia. assert (Hpb : 0 < b) by lia.
  pose proof (Z.log2_le_mono a b Hab) as Hl.
  destruct (Z.eq_dec (Z.log2 a) (Z.log2 b)) as [He|Hne].
  - destruct (round53_pos_cases a Hpa) as [[Hs ->]|(Hs & Hq & ua & -> & Hua)];
    destruct (round53_pos_cases b Hpb) as [[Hs' ->]|(Hs' & Hq' & ub & -> & Hub)];
      try lia.
    rewrite <- He in *.
    set (s := Z.log2 a - 52) in *.
    assert (Hp : 0 < 2 ^ s) by (apply Z.pow_pos_nonneg; lia).
    pose proof (Z.div_le_mono a b (2 ^ s) Hp Hab) as Hdiv.
    pose proof (Z.div_mod a (2 ^ s) ltac:(lia)) as Hda.
    pose proof (Z.div_mod b (2 ^ s) ltac:(lia)) as Hdb.
    pose proof (Z.mod_pos_bound a (2 ^ s) ltac:(lia)) as Hma.
    pose proof (Z.mod_pos_bound b (2 ^ s) ltac:(lia)) as Hmb.
    apply Z.mul_le_mono_nonneg_r; [lia|].
    destruct (Z.eq_dec (a / 2 ^ s) (b / 2 ^ s)) as [Hq2|Hq2].
    + assert (Hr : a mod 2 ^ s <= b mod 2 ^ s) by nia.
      rewrite Hq2 in *.
      destruct ua; [|destruct ub; lia].
      assert (Hubt : ub = true); [|rewrite Hubt; lia].
      rewrite Hub. symmetry in Hua. apply orb_true_iff in Hua. apply orb_true_iff.
      destruct Hua as [H|H].
      * apply Z.ltb_lt in H. left. apply Z.ltb_lt. lia.
      * apply andb_true_iff in H. destruct H as [H Ho]. apply Z.eqb_eq in H.
        destruct (Z.eq_dec (b mod 2 ^ s) (2 ^ (s - 1))) as [Hb|Hb].
        -- right. rewrite Ho. apply andb_true_iff. split; [apply Z.eqb_eq; lia|reflexivity].
        -- left. apply Z.ltb_lt. lia.
    + destruct ua, ub; lia.
  - pose proof (round53_bracket a Hpa) as [_ Hu].
    pose proof (round53_bracket b Hpb) as [Hlo _].
    assert (2 ^ (Z.log2 a + 1) <= 2 ^ Z.log2 b).
    { apply Z.pow_le_mono_r; lia. }
    lia.
Qed.

End float64_facts.

(** ** The estimate as a function of the rune count *)

Section EstimateFacts.

Import float64 float64_facts.

Lemma div4_trunc_nonneg n : 0 <= n -> 0 <= div4_trunc n.
Proof.
  intros Hn. unfold div4_trunc. pose proof (round53_nonneg n Hn).
  rewrite Z.quot_div_nonneg by lia. apply Z.div_pos; lia.
Qed.

Lemma div4_trunc_le_mono a b : 0 <= a <= b -> div4_trunc a <= div4_trunc b.
Proof.
  intros H. unfold div4_trunc.
  pose proof (round53_nonneg a ltac:(lia)). pose proof (round53_le_mono a b H).
  rewrite !Z.quot_div_nonneg by lia. apply Z.div_le_mono; lia.
Qed.

Lemma mul1_1_trunc_nonneg q : 0 <= q -> 0 <= mul1_1_trunc q.
Proof.
  intros Hq. unfold mul1_1_trunc, m1_1.
  pose proof (round53_nonneg q Hq).
  pose proof (round53_nonneg (round53 q * 4953959590107546) ltac:(lia)).
  rewrite Z.quot_div_nonneg by lia. apply Z.div_pos; lia.
Qed.

Lemma mul1_1_trunc_le_mono a b : 0 <= a <= b -> mul1_1_trunc a <= mul1_1_trunc b.
Proof.
  intros H. unfold mul1_1_trunc, m1_1.
  pose proof (round53_nonneg a ltac:(lia)). pose proof (round53_le_mono a b H).
  pose proof (round53_nonneg (round53 a * 4953959590107546) ltac:(lia)).
  pose proof (round53_le_mono (round53 a * 4953959590107546) (round53 b * 4953959590107546) ltac:(lia)).
  rewrite !Z.quot_div_nonneg by lia. apply Z.div_le_mono; lia.
Qed.

Lemma estimate_nonneg n : 0 <= n -> 0 <= estimate n.
Proof. intros. apply mul1_1_trunc_nonneg, div4_trunc_nonneg; assumption. Qed.

Lemma estimate_le_mono a b : 0 <= a <= b -> estimate a <= estimate b.
Proof.
  intros H. apply mul1_1_trunc_le_mono. split.
  - apply div4_trunc_nonneg; lia.
  - apply div4_trunc_le_mono; assumption.
Qed.

(** Facts that bound each step of the estimate from above, in a form [lia]
    chains. *)
Lemma estimate_steps n :
  0 <= n ->
  exists rn q rq ry,
    0 <= rn /\ 0 <= q /\ 0 <= rq /\ 0 <= ry /\ 0 <= estimate n /\
    2 ^ 53 * rn <= (2 ^ 53 + 1) * n /\
    4 * q <= rn /\
    2 ^ 53 * rq <= (2 ^ 53 + 1) * q /\
    2 ^ 53 * ry <= (2 ^ 53 + 1) * (rq * m1_1) /\
    2 ^ 52 * estimate n <= ry.
Proof.
  intros Hn.
  exists (round53 n), (div4_trunc n), (round53 (div4_trunc n)),
         (round53 (round53 (div4_trunc n) * m1_1)).
  pose proof (round53_nonneg n Hn) as H1.
  pose proof (div4_trunc_nonneg n Hn) as H2.
  pose proof (round53_nonneg _ H2) as H3.
  assert (H4 : 0 <= round53 (div4_trunc n) * m1_1) by (unfold m1_1; lia).
  pose proof (round53_nonneg _ H4) as H5.
  repeat split; try assumption.
  - apply estimate_nonneg; assumption.
  - apply round53_upper; assumption.
  - unfold div4_trunc. rewrite Z.quot_div_nonneg by lia.
    apply Z.mul_div_le; lia.
  - apply round53_upper; assumption.
  - apply round53_upper; assumption.
  - unfold estimate, mul1_1_trunc. rewrite Z.quot_div_nonneg by lia.
    apply Z.mul_div_le; lia.
Qed.

Lemma estimate_le_third n : 0 <= n -> 3 * estimate n <= n.
Proof.
  intros Hn. destruct (estimate_steps n Hn) as (rn & q & rq & ry & H).
  unfold m1_1 in H. change (2 ^ 53) with 9007199254740992 in H.
  change (2 ^ 52) with 4503599627370496 in H. lia.
Qed.

(** The character limit of a forced split never holds more runes than the
    budget allows. *)
Lemma estimate_charLimit b n :
  0 <= b -> 0 <= n <= mul4_mul0_8_trunc b -> estimate n <= b.
Proof.
  intros Hb Hn.
  destruct (estimate_steps n (proj1 Hn)) as (rn & q & rq & ry & H).
  pose proof (round53_nonneg b Hb) as H1.
  pose proof (round53_upper b Hb) as H2.
  assert (H3 : 0 <= round53 b * 4 * m0_8) by (unfold m0_8; lia).
  pose proof (round53_nonneg _ H3) as H4.
  pose proof (round53_upper _ H3) as H5.
  assert (H6 : 2 ^ 53 * mul4_mul0_8_trunc b <= round53 (round53 b * 4 * m0_8)).
  { unfold mul4_mul0_8_trunc. rewrite Z.quot_div_nonneg by lia.
    apply Z.mul_div_le; lia. }
  revert H H2 H5 H6 Hn H1 H4.
  generalize (round53 (round53 b * 4 * m0_8)) (round53 b) (mul4_mul0_8_trunc b) (estimate n).
  unfold m1_1, m0_8. change (2 ^ 53) with 9007199254740992.
  change (2 ^ 52) with 4503599627370496. intros. lia.
Qed.

Lemma charLimit_ge_3 b : 1 <= b -> 3 <= mul4_mul0_8_trunc b.
Proof.
  intros Hb. change 3 with (mul4_mul0_8_trunc 1).
  unfold mul4_mul0_8_trunc.
  pose proof (round53_le_mono 1 b ltac:(lia)) as H1.
  change (round53 1) with 1 in H1.
  pose proof (round53_le_mono (round53 1 * 4 * m0_8) (round53 b * 4 * m0_8)) as H2.
  change (round53 1) with 1 in H2. unfold m0_8 in *.
  specialize (H2 ltac:(lia)).
  pose proof (round53_nonneg (1 * 4 * 7205759403792794) ltac:(lia)).
  change (round53 1) with 1.
  rewrite !Z.quot_div_nonneg by lia. apply Z.div_le_mono; lia.
Qed.

End EstimateFacts.

(** ** Decoding runes *)

Module utf8_facts.
Import utf8.

Ltac decode_cases :=
  repeat match goal with
         | |- context [match ?x with _ => _ end] =>
           match type of x with
           | lead => destruct x
           | list _ => destruct x
           | bool => destruct x
           end
         end.

Lemma DecodeRune_size s :
  s <> [] ->
  (1 <= snd (DecodeRuneInString s) <= 4)%nat /\
  (snd (DecodeRuneInString s) <= length s)%nat.
Proof.
  intros Hs. destruct s as [|b0 s]; [congruence|].
  unfold DecodeRuneInString. decode_cases; simpl; lia.
Qed.

Ltac rewrite_eqns :=
  repeat match goal with H : ?x = _ |- context [?x] => rewrite H end.

(** Decoding reads only the bytes of the rune it returns. *)
Lemma DecodeRune_local s :
  DecodeRuneInString (firstn (snd (DecodeRuneInString s)) s)
  = DecodeRuneInString s.
Proof.
  destruct s as [|b0 [|b1 [|b2 [|b3 s]]]]; unfold DecodeRuneInString; cbv zeta;
    try reflexivity;
    repeat (match goal with
            | |- context [match ?x with _ => _ end] =>
              match type of x with
              | lead => destruct x eqn:?
              | bool => destruct x eqn:?
              end
            end; cbn [snd firstn]; rewrite_eqns; try reflexivity).
Qed.

Lemma runeCount_bounds fuel s :
  0 <= runeCount fuel s <= Z.of_nat (length s).
Proof.
  revert s. induction fuel as [|fuel IH]; intros s; cbn [runeCount]; [lia|].
  destruct s as [|b s]; [cbn [length]; lia|].
  pose proof (DecodeRune_size (b :: s) ltac:(discriminate)) as [H1 H2].
  set (k := snd (DecodeRuneInString (b :: s))) in *.
  specialize (IH (skipn k (b :: s))).
  rewrite length_skipn in IH. lia.
Qed.

Lemma RuneCount_bounds s :
  0 <= RuneCountInString s <= len s.
Proof. apply runeCount_bounds. Qed.

Lemma RuneCount_pos s : s <> [] -> 1 <= RuneCountInString s.
Proof.
  destruct s as [|b s]; [congruence|]. intros _.
  unfold RuneCountInString. cbn [length runeCount].
  set (k := snd (DecodeRuneInString (b :: s))).
  pose proof (runeCount_bounds (length s) (skipn k (b :: s))). lia.
Qed.

End utf8_facts.

(** ** Strings *)

Lemma byte_eqb_refl b : Byte.eqb b b = true.
Proof. apply byte_dec_lb. reflexivity. Qed.

Lemma bytes_eqb_eq s t : bytes_eqb s t = true <-> s = t.
Proof.
  revert t. induction s as [|a s IH]; intros [|b t]; simpl; split; intros H;
    try reflexivity; try discriminate.
  - apply andb_true_iff in H. destruct H as [H1 H2].
    apply byte_dec_bl in H1. apply IH in H2. congruence.
  - injection H as -> ->. rewrite byte_eqb_refl. simpl. apply IH. reflexivity.
Qed.

Lemma bytes_eqb_nil s : bytes_eqb s [] = true <-> s = [].
Proof. apply bytes_eqb_eq. Qed.

Lemma bytes_eqb_neq s t : bytes_eqb s t = false <-> s <> t.
Proof.
  pose proof (bytes_eqb_eq s t) as H. destruct (bytes_eqb s t); split; intros H1.
  - discriminate.
  - exfalso. apply H1. apply H. reflexivity.
  - intros E. apply H in E. discriminate.
  - reflexivity.
Qed.

Module strings_facts.
Import strings.

Lemma HasPrefix_app s p : HasPrefix (p ++ s) p = true.
Proof. induction p as [|a p IH]; simpl; [reflexivity|]. rewrite byte_eqb_refl. exact IH. Qed.

Lemma HasPrefix_inv s p : HasPrefix s p = true -> s = p ++ skipn (length p) s.
Proof.
  revert s. induction p as [|a p IH]; intros s H; simpl in *; [reflexivity|].
  destruct s as [|b s]; [discriminate|].
  apply andb_true_iff in H. destruct H as [H1 H2].
  apply byte_dec_bl in H1. subst b. simpl. f_equal. apply IH. exact H2.
Qed.

Lemma Index_ge s sub : -1 <= Index s sub <= Z.of_nat (length s).
Proof.
  induction s as [|a s IH]; cbn [Index length].
  - destruct (HasPrefix [] sub); lia.
  - destruct (HasPrefix (a :: s) sub); [lia|].
    destruct (Z.ltb_spec (Index s sub) 0); lia.
Qed.

(** Where [Index] finds [sub], it stands. *)
Lemma Index_found s sub :
  0 <= Index s sub ->
  s = firstn (Z.to_nat (Index s sub)) s ++ sub
      ++ skipn (Z.to_nat (Index s sub) + length sub) s.
Proof.
  induction s as [|a s IH]; cbn [Index].
  - destruct (HasPrefix [] sub) eqn:Hp; [|lia]. intros _.
    apply HasPrefix_inv in Hp. simpl. exact Hp.
  - destruct (HasPrefix (a :: s) sub) eqn:Hp.
    + intros _. apply HasPrefix_inv in Hp. simpl. exact Hp.
    + destruct (Z.ltb_spec (Index s sub) 0) as [Hlt|Hge]; [lia|]. intros _.
      specialize (IH Hge).
      replace (Z.to_nat (1 + Index s sub)) with (S (Z.to_nat (Index s sub))) by lia.
      simpl. f_equal. exact IH.
Qed.

Lemma Index_app_found pre sub post : 0 <= Index (pre ++ sub ++ post) sub.
Proof.
  induction pre as [|a pre IH]; cbn [Index app].
  - destruct (sub ++ post) eqn:E; cbn [Index]; rewrite <- E; rewrite HasPrefix_app; lia.
  - destruct (HasPrefix (a :: pre ++ sub ++ post) sub); [lia|].
    destruct (Z.ltb_spec (Index (pre ++ sub ++ post) sub) 0); lia.
Qed.

Lemma Contains_app pre sub post : Contains (pre ++ sub ++ post) sub = true.
Proof. unfold Contains. apply Z.leb_le, Index_app_found. Qed.

Lemma Join_cons e l sep : l <> [] -> Join (e :: l) sep = e ++ sep ++ Join l sep.
Proof. destruct l; [congruence|reflexivity]. Qed.

Lemma genSplit_nonempty fuel s sep : genSplit fuel s sep <> [].
Proof.
  destruct fuel; simpl; [discriminate|].
  destruct (Index s sep <? 0); discriminate.
Qed.

Lemma Join_genSplit fuel s sep : Join (genSplit fuel s sep) sep = s.
Proof.
  revert s. induction fuel as [|fuel IH]; intros s; simpl; [reflexivity|].
  destruct (Z.ltb_spec (Index s sep) 0) as [Hlt|Hge]; [reflexivity|].
  rewrite Join_cons by apply genSplit_nonempty.
  rewrite IH. symmetry. apply Index_found. exact Hge.
Qed.

(** Joining what [Split] cut gives the text back. *)
Lemma Join_Split s sep : sep <> [] -> Join (Split s sep) sep = s.
Proof.
  intros Hsep. unfold Split. destruct sep; [congruence|]. apply Join_genSplit.
Qed.

Lemma Join_snoc l x sep :
  Join (l ++ [x]) sep = match l with [] => x | _ => Join l sep ++ sep ++ x end.
Proof.
  induction l as [|a l IH]; [reflexivity|].
  change ((a :: l) ++ [x]) with (a :: (l ++ [x])).
  rewrite Join_cons by (destruct l; simpl; discriminate).
  rewrite IH. destruct l as [|b l]; [reflexivity|].
  rewrite (Join_cons a (b :: l)) by discriminate. rewrite <- !app_assoc. reflexivity.
Qed.

Lemma Join_app l1 l2 sep :
  l1 <> [] -> l2 <> [] -> Join (l1 ++ l2) sep = Join l1 sep ++ sep ++ Join l2 sep.
Proof.
  intros H1 H2. induction l1 as [|a l1 IH]; [congruence|].
  destruct l1 as [|b l1].
  - simpl. destruct l2; [congruence|reflexivity].
  - change ((a :: b :: l1) ++ l2) with (a :: ((b :: l1) ++ l2)).
    rewrite (Join_cons a ((b :: l1) ++ l2)) by (simpl; discriminate).
    rewrite (Join_cons a (b :: l1)) by discriminate. rewrite IH by discriminate.
    rewrite <- !app_assoc. reflexivity.
Qed.

End strings_facts.

(** ** White space *)

Module trim_facts.
Import utf8 utf8_facts strings.

Lemma SpaceRun_app a b : SpaceRun a -> SpaceRun b -> SpaceRun (a ++ b).
Proof.
  induction 1 as [|e s He Hs IH]; intros Hb; [exact Hb|].
  rewrite <- app_assoc. constructor; auto.
Qed.

Lemma SpaceRun_one e : SpaceRune e -> SpaceRun e.
Proof. intros H. rewrite <- (app_nil_r e). constructor; [exact H|constructor]. Qed.

Lemma DecodeRune_space_prefix s r size :
  DecodeRuneInString s = (r, size) -> (0 < size)%nat -> unicode.IsSpace r = true ->
  SpaceRune (firstn size s) /\ (size <= length s)%nat.
Proof.
  intros Hd Hpos Hsp.
  assert (Hs : s <> []).
  { intros ->. simpl in Hd. injection Hd as _ <-. lia. }
  pose proof (DecodeRune_size s Hs) as [_ Hle]. rewrite Hd in Hle. simpl in Hle.
  split; [|exact Hle]. split.
  - destruct s; [congruence|]. destruct size; [lia|]. discriminate.
  - exists r. split; [|exact Hsp].
    pose proof (DecodeRune_local s) as Hl. rewrite Hd in Hl. simpl in Hl.
    rewrite Hl. f_equal. rewrite length_firstn. lia.
Qed.

Lemma trimLeftSpace_spec fuel s :
  exists l, s = l ++ trimLeftSpace fuel s /\ SpaceRun l.
Proof.
  revert s. induction fuel as [|fuel IH]; intros s; cbn [trimLeftSpace].
  - exists []. split; [reflexivity|constructor].
  - destruct (DecodeRuneInString s) as [r size] eqn:Hd.
    destruct ((0 <? size)%nat && unicode.IsSpace r) eqn:Hc.
    + apply andb_true_iff in Hc. destruct Hc as [Hpos Hsp].
      apply Nat.ltb_lt in Hpos.
      destruct (DecodeRune_space_prefix s r size Hd Hpos Hsp) as [He _].
      destruct (IH (skipn size s)) as (l & Hl & Hrun).
      exists (firstn size s ++ l). split.
      * rewrite <- app_assoc, <- Hl. symmetry. apply firstn_skipn.
      * constructor; assumption.
    + exists []. split; [reflexivity|constructor].
Qed.

Lemma skipn_last_one (s : bytes) :
  s <> [] -> skipn (length s - 1) s = [nth (length s - 1) s x00].
Proof.
  intros Hs. destruct (exists_last Hs) as (l & b & ->).
  rewrite length_app. simpl. replace (length l + 1 - 1)%nat with (length l) by lia.
  rewrite skipn_app, skipn_all, Nat.sub_diag. simpl.
  rewrite app_nth2 by lia. rewrite Nat.sub_diag. reflexivity.
Qed.

Lemma IsSpace_RuneError : unicode.IsSpace RuneError = false.
Proof. reflexivity. Qed.

Lemma DecodeRune_ascii b :
  (byte_val b <? RuneSelf) = true -> DecodeRuneInString [b] = (byte_val b, 1%nat).
Proof.
  intros H. unfold DecodeRuneInString, first.
  change RuneSelf with 128 in H. rewrite H. reflexivity.
Qed.

Lemma DecodeLastRune_space_suffix s r size :
  DecodeLastRuneInString s = (r, size) -> (0 < size)%nat -> unicode.IsSpace r = true ->
  SpaceRune (skipn (length s - size) s) /\ (size <= length s)%nat.
Proof.
  unfold DecodeLastRuneInString, len. intros Hd Hpos Hsp.
  destruct (Z.eqb_spec (Z.of_nat (length s)) 0) as [H0|H0].
  { injection Hd as _ <-. lia. }
  assert (Hs : s <> []) by (intros ->; simpl in H0; lia).
  destruct (byte_val (nth (Z.to_nat (Z.of_nat (length s) - 1)) s x00) <? RuneSelf) eqn:Hascii.
  - injection Hd as <- <-.
    replace (Z.to_nat (Z.of_nat (length s) - 1)) with (length s - 1)%nat in * by lia.
    rewrite skipn_last_one by exact Hs.
    split; [|destruct s; [congruence|simpl; lia]].
    split; [discriminate|].
    eexists. split; [|exact Hsp]. apply DecodeRune_ascii. exact Hascii.
  - set (start0 := lastRuneStart s _ _) in Hd.
    set (start := if start0 <? 0 then 0 else start0) in Hd.
    assert (Hst : 0 <= start) by (unfold start; destruct (Z.ltb_spec start0 0); lia).
    destruct (DecodeRuneInString (skipn (Z.to_nat start) s)) as [r' size'] eqn:Hd'.
    destruct (Z.eqb_spec (start + Z.of_nat size') (Z.of_nat (length s))) as [He|He].
    + injection Hd as <- <-.
      assert (Hk : Z.to_nat start = (length s - size')%nat) by lia.
      rewrite Hk in Hd'.
      split; [|lia]. split.
      * intros E. apply (f_equal (@length byte)) in E.
        rewrite length_skipn in E. simpl in E. lia.
      * exists r'. split; [|exact Hsp]. rewrite Hd'. f_equal.
        rewrite length_skipn. lia.
    + injection Hd as <- <-. rewrite IsSpace_RuneError in Hsp. discriminate.
Qed.

Lemma SpaceRun_snoc s e : SpaceRun s -> SpaceRune e -> SpaceRun (s ++ e).
Proof. intros Hs He. apply SpaceRun_app; [exact Hs|apply SpaceRun_one; exact He]. Qed.

Lemma trimRightSpace_spec fuel s :
  exists r, s = trimRightSpace fuel s ++ r /\ SpaceRun r.
Proof.
  revert s. induction fuel as [|fuel IH]; intros s; cbn [trimRightSpace].
  - exists []. split; [symmetry; apply app_nil_r|constructor].
  - destruct (DecodeLastRuneInString s) as [r size] eqn:Hd.
    destruct ((0 <? size)%nat && unicode.IsSpace r) eqn:Hc.
    + apply andb_true_iff in Hc. destruct Hc as [Hpos Hsp].
      apply Nat.ltb_lt in Hpos.
      destruct (DecodeLastRune_space_suffix s r size Hd Hpos Hsp) as [He _].
      destruct (IH (firstn (length s - size) s)) as (t & Ht & Hrun).
      exists (t ++ skipn (length s - size) s). split.
      * rewrite app_assoc, <- Ht. symmetry. apply firstn_skipn.
      * apply SpaceRun_snoc; assumption.
    + exists []. split; [symmetry; apply app_nil_r|constructor].
Qed.

(** [TrimSpace] removes white space only, from the two ends. *)
Lemma TrimSpace_spec s :
  exists l r, s = l ++ TrimSpace s ++ r /\ SpaceRun l /\ SpaceRun r.
Proof.
  unfold TrimSpace.
  destruct (trimLeftSpace_spec (length s) s) as (l & Hl & Hrl).
  set (t := trimLeftSpace (length s) s) in *.
  destruct (trimRightSpace_spec (length t) t) as (r & Hr & Hrr).
  exists l, r. split; [|split; assumption].
  rewrite <- Hr. exact Hl.
Qed.

Lemma TrimSpace_length s : (length (TrimSpace s) <= length s)%nat.
Proof.
  destruct (TrimSpace_spec s) as (l & r & H & _).
  apply (f_equal (@length byte)) in H. rewrite !length_app in H. lia.
Qed.

Lemma TrimSpace_nil_SpaceRun s : TrimSpace s = [] -> SpaceRun s.
Proof.
  intros H. destruct (TrimSpace_spec s) as (l & r & E & Hl & Hr).
  rewrite H in E. simpl in E. rewrite E. apply SpaceRun_app; assumption.
Qed.

End trim_facts.

(** ** The chunker *)

Module tokenizer_facts.
Import float64 float64_facts utf8 utf8_facts strings strings_facts trim_facts tokenizer.

Lemma CountTokens_estimate text :
  CountTokens text = estimate (RuneCountInString text).
Proof. destruct text; reflexivity. Qed.

Lemma CountTokens_nonneg text : 0 <= CountTokens text.
Proof.
  rewrite CountTokens_estimate. apply estimate_nonneg, RuneCount_bounds.
Qed.

Lemma CountTokens_rune_mono s t :
  RuneCountInString s <= RuneCountInString t -> CountTokens s <= CountTokens t.
Proof.
  intros H. rewrite !CountTokens_estimate. apply estimate_le_mono.
  pose proof (RuneCount_bounds s). lia.
Qed.

(** A text no longer than the character limit is within the budget. *)
Lemma short_withinBudget c text :
  0 <= maxTokens c -> len text <= charLimit c -> withinBudget c text.
Proof.
  intros Hb Hlen. unfold withinBudget. rewrite CountTokens_estimate.
  apply estimate_charLimit; [exact Hb|].
  pose proof (RuneCount_bounds text). unfold charLimit in Hlen. lia.
Qed.

Section Boundary.

Variable c : Chunker.
Variable text sep : bytes.

Lemma tryBoundaryLoop_spec parts rest :
  forall done current,
    parts = done ++ rest ->
    current = Join done sep ->
    (done = [] \/ withinBudget c current) ->
    cutAt c sep (Join parts sep)
      (tryBoundaryLoop c text sep parts rest (Z.of_nat (length done)) current
         (Z.of_nat (length done))).
Proof.
  induction rest as [|part rest IH]; intros done current Hparts Hcur Hinv;
    cbn [tryBoundaryLoop].
  - rewrite app_nil_r in Hparts. subst done. unfold cutAt. cbn [fst snd].
    destruct Hinv as [->|Hw].
    + left. subst current. reflexivity.
    + right. split; [exact Hw|]. right. auto.
  - set (candidate := current ++ (if 0 <? Z.of_nat (length done) then sep else []) ++ part).
    assert (Hcand : candidate = Join (done ++ [part]) sep).
    { unfold candidate. rewrite Join_snoc. subst current.
      destruct done as [|d done]; [reflexivity|].
      destruct (Z.ltb_spec 0 (Z.of_nat (length (d :: done)))) as [_|H]; [reflexivity|].
      cbn [length] in H. lia. }
    destruct (Z.ltb_spec (maxTokens c) (CountTokens candidate)) as [Hbig|Hfit].
    + destruct (Z.eqb_spec (Z.of_nat (length done)) 0) as [H0|H0].
      * left. reflexivity.
      * right. cbn [fst snd].
        assert (Hd : done <> []) by (intros ->; cbn [length] in H0; lia).
        destruct Hinv as [->|Hw]; [congruence|].
        split; [exact Hw|]. left.
        rewrite Nat2Z.id. subst parts.
        rewrite skipn_app, skipn_all, Nat.sub_diag. cbn [skipn app].
        rewrite Join_app by (assumption || discriminate).
        subst current. reflexivity.
    + specialize (IH (done ++ [part]) candidate).
      rewrite length_app in IH. cbn [length] in IH.
      replace (Z.of_nat (length done + 1)) with (Z.of_nat (length done) + 1) in IH by lia.
      apply IH.
      * rewrite <- app_assoc. exact Hparts.
      * exact Hcand.
      * right. unfold withinBudget. lia.
Qed.

Lemma tryBoundary_spec :
  sep <> [] -> cutAt c sep text (tryBoundary c text sep).
Proof.
  intros Hsep. unfold tryBoundary.
  destruct (Z.of_nat (length (Split text sep)) <=? 1); [left; reflexivity|].
  pose proof (tryBoundaryLoop_spec (Split text sep) (Split text sep) [] []
                eq_refl eq_refl (or_introl eq_refl)) as H.
  rewrite Join_Split in H by exact Hsep. exact H.
Qed.

End Boundary.

Lemma boundaries_nonempty sep : In sep boundaries -> sep <> [].
Proof.
  unfold boundaries. cbn [In]. intros H.
  repeat (destruct H as [<-|H]; [discriminate|]). contradiction.
Qed.

Lemma findOptimalChunkLoop_spec c text bs :
  forall best rest,
    (forall sep, In sep bs -> In sep boundaries) ->
    cutAtBoundary c text (best, rest) ->
    cutAtBoundary c text (findOptimalChunkLoop c text bs best rest).
Proof.
  induction bs as [|sep bs IH]; intros best rest Hbs Hinv; cbn [findOptimalChunkLoop].
  - exact Hinv.
  - pose proof (tryBoundary_spec c text sep
                  (boundaries_nonempty sep (Hbs sep (or_introl eq_refl)))) as Ht.
    destruct (tryBoundary c text sep) as [chunk rem].
    assert (Hbs' : forall s, In s bs -> In s boundaries).
    { intros s Hs. apply Hbs. right. exact Hs. }
    destruct (negb (bytes_eqb chunk []) && (len best <? len chunk)) eqn:Hc.
    + apply IH; [exact Hbs'|].
      destruct Ht as [Ht|[Hw Ht]]; [left; exact Ht|]. right. split; [exact Hw|].
      destruct Ht as [Ht|Ht]; [left|right; exact Ht].
      exists sep. split; [apply Hbs; left; reflexivity|exact Ht].
    + apply IH; assumption.
Qed.

Lemma findOptimalChunk_spec c text :
  cutAtBoundary c text (findOptimalChunk c text).
Proof.
  unfold findOptimalChunk.
  destruct (Z.leb_spec (CountTokens text) (maxTokens c)) as [Hfit|Hbig].
  - right. cbn [fst snd]. split; [exact Hfit|]. right. auto.
  - apply findOptimalChunkLoop_spec; [auto|]. left. reflexivity.
Qed.

Lemma cutPointLoop_bounds text fuel cut :
  0 <= cut -> 0 <= cutPointLoop text fuel cut <= cut.
Proof.
  revert cut. induction fuel as [|fuel IH]; intros cut Hc; cbn [cutPointLoop]; [lia|].
  destruct ((0 <? cut) && (cut <? len text)) eqn:Hg; [|lia].
  destruct (isBlank _); [lia|].
  apply andb_true_iff in Hg. destruct Hg as [Hg _]. apply Z.ltb_lt in Hg.
  specialize (IH (cut - 1) ltac:(lia)). lia.
Qed.

(** A forced split of a text that is over a positive budget cuts off a
    non-empty chunk within the budget and drops white space only. *)
Lemma forceSplit_spec c text :
  1 <= maxTokens c -> maxTokens c < CountTokens text ->
  exists chunk rest l r,
    forceSplit c text = Returned (chunk, rest) /\
    text = chunk ++ l ++ rest ++ r /\ SpaceRun l /\ SpaceRun r /\
    chunk <> [] /\ withinBudget c chunk /\ len chunk <= charLimit c.
Proof.
  intros Hb Hbig. unfold forceSplit. fold (charLimit c).
  pose proof (charLimit_ge_3 (maxTokens c) Hb) as H3. fold (charLimit c) in H3.
  destruct (Z.leb_spec (len text) (charLimit c)) as [Hshort|Hlong].
  { pose proof (short_withinBudget c text ltac:(lia) Hshort) as Hw.
    unfold withinBudget in Hw. lia. }
  pose proof (cutPointLoop_bounds text (Z.to_nat (charLimit c)) (charLimit c) ltac:(lia)) as Hcp.
  set (cp0 := cutPointLoop text (Z.to_nat (charLimit c)) (charLimit c)) in *.
  set (cp := if cp0 =? 0 then charLimit c else cp0).
  assert (Hcpb : 1 <= cp <= charLimit c).
  { unfold cp. destruct (Z.eqb_spec cp0 0); lia. }
  destruct ((cp <? 0) || (len text <? cp)) eqn:Hp.
  { apply orb_true_iff in Hp. destruct Hp as [Hp|Hp]; apply Z.ltb_lt in Hp; lia. }
  destruct (TrimSpace_spec (skipn (Z.to_nat cp) text)) as (l & r & Hlr & Hl & Hr).
  exists (firstn (Z.to_nat cp) text), (TrimSpace (skipn (Z.to_nat cp) text)), l, r.
  assert (Hlen : length (firstn (Z.to_nat cp) text) = Z.to_nat cp).
  { rewrite length_firstn. unfold len in Hlong. lia. }
  split; [reflexivity|]. split; [|split; [exact Hl|split; [exact Hr|]]].
  - rewrite <- Hlr. symmetry. apply firstn_skipn.
  - assert (Hlc : len (firstn (Z.to_nat cp) text) <= charLimit c).
    { unfold len. rewrite Hlen. lia. }
    split; [|split; [|exact Hlc]].
    + intros E. rewrite E in Hlen. cbn [length] in Hlen. lia.
    + apply short_withinBudget; [lia|exact Hlc].
Qed.

End tokenizer_facts.

Module chunker_facts.
Import float64 float64_facts utf8 utf8_facts strings strings_facts trim_facts tokenizer tokenizer_facts.

Lemma Pieces_app_end gap cs e t r :
  Pieces gap cs e t -> Pieces gap cs (e ++ r) (t ++ r).
Proof.
  induction 1 as [e|ch g cs e rest Hg HP IH]; [constructor|].
  rewrite <- !app_assoc. constructor; assumption.
Qed.

Lemma Pieces_snoc gap cs x e t :
  gap [] -> Pieces gap cs (x ++ e) t -> Pieces gap (cs ++ [x]) e t.
Proof.
  intros Hg HP. remember (x ++ e) as xe eqn:Hxe.
  induction HP as [e'|ch g cs e' rest Hg' HP IH]; subst.
  - cbn [app]. change (x ++ e) with (x ++ [] ++ e). constructor; [exact Hg|constructor].
  - cbn [app]. constructor; [exact Hg'|]. apply IH. reflexivity.
Qed.

Lemma Gap_nil : Gap [].
Proof. right. constructor. Qed.

(** One turn of the loop of [ChunkText], on a text over a positive budget:
    the chunk cut off is within the budget, what is dropped after it is a
    boundary or white space, white space may be dropped at the end, and the
    text left is shorter. *)
Lemma nextChunk_spec c remaining :
  1 <= maxTokens c -> maxTokens c < CountTokens remaining ->
  exists chunk rest g r,
    nextChunk c remaining = Returned (chunk, rest) /\
    remaining = chunk ++ g ++ rest ++ r /\ Gap g /\ SpaceRun r /\
    withinBudget c chunk /\ (length rest < length remaining)%nat.
Proof.
  intros Hb Hbig. unfold nextChunk.
  pose proof (findOptimalChunk_spec c remaining) as Hopt.
  destruct (findOptimalChunk c remaining) as [chunk rest].
  destruct (bytes_eqb chunk []) eqn:Hnil.
  - destruct (forceSplit_spec c remaining Hb Hbig)
      as (ch & rs & l & r & Hfs & Htext & Hl & Hr & Hne & Hw & _).
    exists ch, rs, l, r. split; [exact Hfs|]. split; [exact Htext|].
    split; [right; exact Hl|]. split; [exact Hr|]. split; [exact Hw|].
    apply (f_equal (@length byte)) in Htext. rewrite !length_app in Htext.
    destruct ch; [congruence|]. cbn [length] in Htext. lia.
  - apply bytes_eqb_neq in Hnil.
    destruct Hopt as [Hopt|[Hw Hopt]]; [cbn [fst] in Hopt; congruence|].
    cbn [fst snd] in *.
    destruct Hopt as [(sep & Hsep & Htext)|[Heq _]].
    2:{ subst chunk. unfold withinBudget in Hw. lia. }
    exists chunk, rest, sep, []. split; [reflexivity|].
    split; [rewrite app_nil_r; exact Htext|].
    split; [left; exact Hsep|]. split; [constructor|]. split; [exact Hw|].
    apply (f_equal (@length byte)) in Htext. rewrite !length_app in Htext.
    destruct chunk; [congruence|]. cbn [length] in Htext. lia.
Qed.

Lemma loop_guard_false c remaining :
  (0 <? len remaining) && (maxTokens c <? CountTokens remaining) = false ->
  remaining = [] \/ withinBudget c remaining.
Proof.
  intros Hg. apply andb_false_iff in Hg. destruct Hg as [Hg|Hg].
  - left. apply Z.ltb_ge in Hg. unfold len in Hg.
    destruct remaining; [reflexivity|cbn [length] in Hg; lia].
  - right. apply Z.ltb_ge in Hg. exact Hg.
Qed.

(** The loop of [ChunkText] ends when it has one turn per byte of the
    remaining text; what it collects is within the budget and what it
    drops is boundaries and white space. *)
Lemma chunkLoop_spec c :
  1 <= maxTokens c ->
  forall fuel remaining acc,
    (length remaining <= fuel)%nat ->
    exists cs rem tail,
      chunkLoop c fuel remaining acc = Returned (acc ++ cs, rem) /\
      SpaceRun tail /\ Pieces Gap cs (rem ++ tail) remaining /\
      Forall (withinBudget c) cs /\ (rem = [] \/ withinBudget c rem).
Proof.
  intros Hb. induction fuel as [|fuel IH]; intros remaining acc Hfuel.
  - destruct remaining; [|cbn [length] in Hfuel; lia].
    exists [], [], []. rewrite app_nil_r.
    split; [reflexivity|]. split; [constructor|]. split; [constructor|].
    split; [constructor|left; reflexivity].
  - cbn [chunkLoop].
    destruct ((0 <? len remaining) && (maxTokens c <? CountTokens remaining)) eqn:Hg.
    2:{ exists [], remaining, []. rewrite !app_nil_r.
        split; [reflexivity|]. split; [constructor|]. split; [constructor|].
        split; [constructor|]. apply loop_guard_false. exact Hg. }
    apply andb_true_iff in Hg. destruct Hg as [_ Hbig]. apply Z.ltb_lt in Hbig.
    destruct (nextChunk_spec c remaining Hb Hbig)
      as (chunk & rest & g & r & Hnext & Htext & Hgap & Hr & Hw & Hlen).
    rewrite Hnext.
    destruct (IH rest (acc ++ [chunk]) ltac:(lia))
      as (cs & rem & tail & Hrun & Htail & HP & Hall & Hrem).
    exists (chunk :: cs), rem, (tail ++ r). rewrite Hrun, <- app_assoc.
    split; [reflexivity|]. split; [apply SpaceRun_app; assumption|].
    split; [|split; [constructor; assumption|exact Hrem]].
    rewrite Htext, app_assoc. constructor; [exact Hgap|].
    apply Pieces_app_end. exact HP.
Qed.

(** Under a positive budget the loop needs no more turns than the text has
    bytes: more fuel does not change what it returns. *)
Lemma chunkLoop_fuel c :
  1 <= maxTokens c ->
  forall fuel1 fuel2 remaining acc,
    (length remaining <= fuel1)%nat -> (length remaining <= fuel2)%nat ->
    chunkLoop c fuel1 remaining acc = chunkLoop c fuel2 remaining acc.
Proof.
  intros Hb. induction fuel1 as [|fuel1 IH]; intros fuel2 remaining acc H1 H2.
  - destruct remaining; [|cbn [length] in H1; lia].
    destruct fuel2; reflexivity.
  - destruct fuel2 as [|fuel2].
    + destruct remaining; [|cbn [length] in H2; lia]. reflexivity.
    + cbn [chunkLoop].
      destruct ((0 <? len remaining) && (maxTokens c <? CountTokens remaining)) eqn:Hg;
        [|reflexivity].
      apply andb_true_iff in Hg. destruct Hg as [_ Hbig]. apply Z.ltb_lt in Hbig.
      destruct (nextChunk_spec c remaining Hb Hbig)
        as (chunk & rest & g & r & Hnext & _ & _ & _ & _ & Hlen).
      rewrite Hnext. apply IH; lia.
Qed.

Lemma ChunkTextFuel_enough c fuel text :
  1 <= maxTokens c -> (length text <= fuel)%nat ->
  ChunkTextFuel c fuel text = ChunkText c text.
Proof.
  intros Hb Hfuel. unfold ChunkText, ChunkTextFuel.
  rewrite (chunkLoop_fuel c Hb fuel (length text) text []) by lia. reflexivity.
Qed.

(** [ChunkText] under a positive budget: it returns, every chunk is within
    the budget, and the text is the chunks with boundaries and white space
    put back. *)
Lemma ChunkText_spec c text :
  1 <= maxTokens c ->
  exists chunks,
    ChunkText c text = Returned chunks /\
    Forall (withinBudget c) chunks /\ Rebuilds Gap chunks text.
Proof.
  intros Hb. unfold ChunkText, ChunkTextFuel.
  destruct (Z.leb_spec (CountTokens text) (maxTokens c)) as [Hfit|Hbig].
  - exists [text]. split; [reflexivity|]. split; [repeat constructor; exact Hfit|].
    exists []. split; [constructor|].
    pose proof (Pieces_cons Gap text [] [] [] [] Gap_nil (Pieces_nil Gap [])) as HP.
    cbn [app] in HP. rewrite app_nil_r in HP. exact HP.
  - destruct (chunkLoop_spec c Hb (length text) text [] (le_n _))
      as (cs & rem & tail & Hrun & Htail & HP & Hall & Hrem).
    rewrite Hrun. cbn [app].
    destruct (Z.ltb_spec 0 (len (TrimSpace rem))) as [Hkeep|Hdrop].
    + exists (cs ++ [rem]). split; [reflexivity|]. split.
      * apply Forall_app. split; [exact Hall|]. constructor; [|constructor].
        destruct Hrem as [->|Hw]; [|exact Hw].
        change (TrimSpace []) with ([] : bytes) in Hkeep. cbn in Hkeep. lia.
      * exists tail. split; [exact Htail|]. apply Pieces_snoc; [apply Gap_nil|exact HP].
    + exists cs. split; [reflexivity|]. split; [exact Hall|].
      exists (rem ++ tail). split; [|exact HP].
      apply SpaceRun_app; [|exact Htail]. apply TrimSpace_nil_SpaceRun.
      unfold len in Hdrop. destruct (TrimSpace rem); [reflexivity|cbn [length] in Hdrop; lia].
Qed.

Lemma SpaceRun_head_ascii b s :
  SpaceRun (b :: s) -> (byte_val b <? 128) = true -> unicode.IsSpace (byte_val b) = true.
Proof.
  intros H Hb. remember (b :: s) as bs eqn:E. revert b s E Hb.
  induction H as [|e t He Ht IH]; intros b s E Hb; [discriminate|].
  destruct He as [Hne (r & Hd & Hsp)].
  destruct e as [|b' e]; [congruence|]. cbn [app] in E. injection E as -> _.
  unfold DecodeRuneInString, first in Hd. rewrite Hb in Hd.
  injection Hd as <- _. exact Hsp.
Qed.

End chunker_facts.

(** ** The chunker's claims *)

Section TokenizerClaims.

Import float64 float64_facts utf8 utf8_facts strings strings_facts trim_facts.
Import tokenizer tokenizer_facts chunker_facts.

(** C1, as the claim states it, fails: a split at the sentence boundary
    drops the full stop with the blank, and no white space put back between
    the chunks gives the text back; the chunks and the text differ even
    once every blank is removed from both. *)
Lemma ChunkText_drops_full_stop :
  2 < CountTokens (B "aaaaaaaaaaa. bb") /\
  ChunkText (NewChunker 2) (B "aaaaaaaaaaa. bb")
    = Returned [B "aaaaaaaaaaa"; B "bb"] /\
  ~ Rebuilds SpaceRun [B "aaaaaaaaaaa"; B "bb"] (B "aaaaaaaaaaa. bb") /\
  filter (fun b => negb (isBlank b)) (concat [B "aaaaaaaaaaa"; B "bb"])
  <> filter (fun b => negb (isBlank b)) (B "aaaaaaaaaaa. bb").
Proof.
  split; [vm_compute; reflexivity|]. split; [vm_compute; reflexivity|].
  split; [|vm_compute; discriminate].
  intros (tail & _ & HP). cbv in HP.
  inversion HP as [|c g cs e rest Hg HP' Ec Ee Et]; subst. clear HP.
  destruct g as [|b g].
  - cbn [app] in Et. subst rest. inversion HP'.
  - cbn [app] in Et. injection Et as -> _.
    apply SpaceRun_head_ascii in Hg; [discriminate|reflexivity].
Qed.

Lemma wrap64_small z : - 2 ^ 63 <= z < 2 ^ 63 -> wrap64 z = z.
Proof. intros H. unfold wrap64. rewrite Z.mod_small; lia. Qed.

Lemma CountTokens_le_third text : 3 * CountTokens text <= len text.
Proof.
  rewrite CountTokens_estimate.
  pose proof (RuneCount_bounds text) as [H0 H1].
  pose proof (estimate_le_third _ H0). lia.
Qed.

(** C1 (amended). For a positive budget and a text whose estimate exceeds
    it, [ChunkText] returns, and the text is the chunks in order, each
    followed by what its split dropped, which is one of the eight semantic
    boundaries or white space only, and then by white space only. *)
Theorem ChunkText_rebuilds_with_boundaries c text :
  0 < maxTokens c ->
  maxTokens c < CountTokens text ->
  exists chunks,
    ChunkText c text = Returned chunks /\ Rebuilds Gap chunks text.
Proof.
  intros Hb _. destruct (ChunkText_spec c text ltac:(lia)) as (chunks & H1 & _ & H2).
  exists chunks. split; assumption.
Qed.

(** C1 (amended), at the text whose split drops the full stop. *)
Lemma ChunkText_rebuilds_with_boundaries_witness :
  0 < maxTokens (NewChunker 2) /\
  maxTokens (NewChunker 2) < CountTokens (B "aaaaaaaaaaa. bb") /\
  exists chunks,
    ChunkText (NewChunker 2) (B "aaaaaaaaaaa. bb") = Returned chunks /\
    Rebuilds Gap chunks (B "aaaaaaaaaaa. bb").
Proof.
  split; [reflexivity|]. split; [vm_compute; reflexivity|].
  apply (ChunkText_rebuilds_with_boundaries (NewChunker 2) (B "aaaaaaaaaaa. bb"));
    [reflexivity|vm_compute; reflexivity].
Defined.

(** C2. For a positive budget, [ChunkText] returns, and every chunk of the
    sequence is within the budget, but for at most one that is within the
    character limit of a forced split. (By [ChunkText_spec] no chunk needs
    the exception.) *)
Theorem ChunkText_chunks_within_budget text budget :
  0 < budget ->
  exists chunks,
    ChunkText (NewChunker budget) text = Returned chunks /\
    BudgetInvariant (NewChunker budget) chunks.
Proof.
  intros Hb.
  destruct (ChunkText_spec (NewChunker budget) text ltac:(cbn; lia))
    as (chunks & H1 & H2 & _).
  exists chunks. split; [exact H1|].
  exists chunks, [], []. rewrite !app_nil_r.
  split; [reflexivity|]. split; [cbn; lia|]. split; [exact H2|].
  split; constructor.
Qed.

(** C2, at a text that is split once at a boundary and once by force. *)
Lemma ChunkText_chunks_within_budget_witness :
  0 < 2 /\
  exists chunks,
    ChunkText (NewChunker 2) (B "aaaaaaaaaaa. bbbbbbbbbbbb") = Returned chunks /\
    BudgetInvariant (NewChunker 2) chunks.
Proof.
  split; [reflexivity|].
  apply (ChunkText_chunks_within_budget (B "aaaaaaaaaaa. bbbbbbbbbbbb") 2).
  reflexivity.
Defined.

(** C4, as the claim states it, fails: a text of fewer than four runes has
    the estimate 0, whose ceiling over any budget is 0, and the count
    returned is 1. *)
Lemma GetEstimatedChunkCount_is_one_at_zero :
  CountTokens (B "abc") = 0 /\
  GetEstimatedChunkCount (NewChunker 10) (B "abc") = Returned 1 /\
  ~ isCeiling 1 (CountTokens (B "abc")) 10.
Proof.
  split; [reflexivity|]. split; [reflexivity|].
  unfold isCeiling. change (CountTokens (B "abc")) with 0. lia.
Qed.

(** C4 (amended). For a positive budget and a text that fits a Go string,
    [GetEstimatedChunkCount] returns the ceiling of estimate / budget when
    the estimate is at least 1, and 1 when the estimate is 0. *)
Theorem GetEstimatedChunkCount_ceiling_or_one c text :
  0 < maxTokens c ->
  len text < 2 ^ 63 ->
  exists k,
    GetEstimatedChunkCount c text = Returned k /\
    (0 < CountTokens text -> isCeiling k (CountTokens text) (maxTokens c)) /\
    (CountTokens text = 0 -> k = 1).
Proof.
  intros Hb Hlen. unfold GetEstimatedChunkCount, isCeiling.
  pose proof (CountTokens_le_third text) as H3.
  pose proof (CountTokens_nonneg text) as H0.
  set (t := CountTokens text) in *. set (b := maxTokens c) in *.
  destruct (Z.leb_spec t b) as [Hfit|Hbig].
  - exists 1. split; [reflexivity|]. split; [lia|reflexivity].
  - destruct (Z.eqb_spec b 0) as [E|_]; [lia|].
    rewrite (wrap64_small (t + b)) by lia.
    rewrite (wrap64_small (t + b - 1)) by lia.
    rewrite Z.quot_div_nonneg by lia.
    exists ((t + b - 1) / b). split; [reflexivity|]. split; [|lia].
    intros _.
    pose proof (Z.div_mod (t + b - 1) b ltac:(lia)) as Hdm.
    pose proof (Z.mod_pos_bound (t + b - 1) b Hb) as Hmod.
    nia.
Qed.

(** C4 (amended), at an estimate of 12 and a budget of 10. *)
Lemma GetEstimatedChunkCount_ceiling_or_one_witness :
  0 < maxTokens (NewChunker 10) /\
  len (B "First paragraph of the text. Second one too.") < 2 ^ 63 /\
  exists k,
    GetEstimatedChunkCount (NewChunker 10)
      (B "First paragraph of the text. Second one too.") = Returned k /\
    (0 < CountTokens (B "First paragraph of the text. Second one too.") ->
     isCeiling k (CountTokens (B "First paragraph of the text. Second one too.")) 10) /\
    (CountTokens (B "First paragraph of the text. Second one too.") = 0 -> k = 1).
Proof.
  split; [reflexivity|]. split; [reflexivity|].
  apply (GetEstimatedChunkCount_ceiling_or_one (NewChunker 10)
           (B "First paragraph of the text. Second one too."));
    reflexivity.
Defined.

(** C5. [CountTokens] is a function of its input, it is monotonic in the
    number of runes of the input, and its value is never negative. *)
Theorem CountTokens_stable_monotonic_nonneg s t :
  (s = t -> CountTokens s = CountTokens t) /\
  (RuneCountInString s <= RuneCountInString t -> CountTokens s <= CountTokens t) /\
  0 <= CountTokens s.
Proof.
  split; [intros ->; reflexivity|]. split.
  - apply CountTokens_rune_mono.
  - apply CountTokens_nonneg.
Qed.

(** C5, at a text of 16 bytes and 8 runes and one of 12 bytes and 12
    runes: the estimates follow the runes, not the bytes. *)
Lemma CountTokens_stable_monotonic_nonneg_witness :
  RuneCountInString (concat (repeat [xc3; xa9] 8))
  <= RuneCountInString (B "aaaaaaaaaaaa") /\
  CountTokens (concat (repeat [xc3; xa9] 8)) <= CountTokens (B "aaaaaaaaaaaa").
Proof.
  split; [vm_compute; discriminate|].
  refine (proj1 (proj2 (CountTokens_stable_monotonic_nonneg
                          (concat (repeat [xc3; xa9] 8)) (B "aaaaaaaaaaaa"))) _).
  vm_compute. discriminate.
Defined.

(** Budgets that are not positive are outside the claims above. Under a
    budget of 0 the loop of [ChunkText] can repeat for ever, whatever the
    fuel: the forced split cuts at offset 0 and leaves the text as it
    was. Under a negative budget the forced split slices at a negative
    offset. *)
Example ChunkText_zero_budget_never_returns fuel :
  ChunkTextFuel (NewChunker 0) fuel (B "aaaaaaaa") = OutOfFuel.
Proof.
  unfold ChunkTextFuel.
  change (CountTokens (B "aaaaaaaa") <=? maxTokens (NewChunker 0)) with false.
  cbv iota.
  assert (H : forall acc,
             chunkLoop (NewChunker 0) fuel (B "aaaaaaaa") acc = OutOfFuel).
  { induction fuel as [|fuel IH]; intros acc; cbn [chunkLoop];
      change ((0 <? len (B "aaaaaaaa"))
              && (maxTokens (NewChunker 0) <? CountTokens (B "aaaaaaaa")))
        with true; cbv iota; [reflexivity|].
    change (nextChunk (NewChunker 0) (B "aaaaaaaa"))
      with (Returned (([] : bytes), B "aaaaaaaa")).
    cbv iota. apply IH. }
  rewrite H. reflexivity.
Qed.

Example ChunkText_negative_budget_panics :
  ChunkText (NewChunker (-1)) (B "aaaaaaaa") = Panicked.
Proof. vm_compute. reflexivity. Qed.

End TokenizerClaims.

(** ** The merge engine *)

Module merger_facts.
Import effects merger.

Section WithClient.

Variable Client : Type.
Variable provider :
  Client -> bytes -> llm.CompletionOptions ->
  (llm.CompletionResponse + error) * Client.

Local Abbreviation M := (effects.M Client).
Local Abbreviation Complete := (effects.Complete Client provider).

Lemma sim_ret {A} (a : A) : sim (ret (Client:=Client) a) (ret a).
Proof. intros w1 w2 H. split; [reflexivity|exact H]. Qed.

Lemma sim_panic {A} : sim (@panic Client A) panic.
Proof. intros w1 w2 H. split; [reflexivity|exact H]. Qed.

Lemma sim_bind {A C} (m1 m2 : M A) (k1 k2 : A -> M C) :
  sim m1 m2 -> (forall a, sim (k1 a) (k2 a)) -> sim (bind m1 k1) (bind m2 k2).
Proof.
  intros Hm Hk w1 w2 Hw. unfold bind.
  destruct (Hm w1 w2 Hw) as [H1 H2].
  destruct (m1 w1) as [o1 w1'], (m2 w2) as [o2 w2']. cbn [fst snd] in *. subst o2.
  destruct o1 as [a| |]; [apply Hk; exact H2| |]; split; auto.
Qed.

Lemma sim_log_l {A} lv msg fs (k1 m2 : M A) :
  sim k1 m2 -> sim (bind (log Client lv msg fs) (fun _ => k1)) m2.
Proof. intros H w1 w2 Hw. unfold bind, log. cbn. apply H. exact Hw. Qed.

Lemma sim_log_r {A} lv msg fs (m1 k2 : M A) :
  sim m1 k2 -> sim m1 (bind (log Client lv msg fs) (fun _ => k2)).
Proof. intros H w1 w2 Hw. unfold bind, log. cbn. apply H. exact Hw. Qed.

Lemma sim_Complete p o : sim (Complete p o) (Complete p o).
Proof.
  intros w1 w2 Hw. unfold effects.Complete, observable in *.
  injection Hw as Hc Hk Hs. rewrite Hc.
  destruct (provider (client w2) p o) as [r cl]. cbn. rewrite Hk, Hs. auto.
Qed.

Lemma createExtractionPrompt_spec m1 m2 chunk :
  spec m1 = spec m2 ->
  createExtractionPrompt m1 chunk = createExtractionPrompt m2 chunk.
Proof. intros H. unfold createExtractionPrompt, schemaTitle. rewrite H. reflexivity. Qed.

Lemma createConsolidationPrompt_spec m1 m2 jsonResults :
  spec m1 = spec m2 -> Instructions (options m1) = Instructions (options m2) ->
  createConsolidationPrompt m1 jsonResults = createConsolidationPrompt m2 jsonResults.
Proof.
  intros H1 H2. unfold createConsolidationPrompt, consolidationPromptText.
  rewrite H1, H2. reflexivity.
Qed.

Section TwoMergers.

Variables m1 m2 : Merger.
Hypothesis same_spec : spec m1 = spec m2.
Hypothesis same_instructions :
  Instructions (options m1) = Instructions (options m2).

Lemma sim_processSingleChunk chunk i :
  sim (processSingleChunk Client provider m1 chunk i)
      (processSingleChunk Client provider m2 chunk i).
Proof.
  unfold processSingleChunk, Debug.
  rewrite (createExtractionPrompt_spec m1 m2 chunk same_spec).
  apply sim_log_l, sim_log_r, sim_bind; [apply sim_Complete|].
  intros [resp|err]; apply sim_ret.
Qed.

Lemma sim_mergeAllResults results :
  sim (mergeAllResults Client provider m1 results)
      (mergeAllResults Client provider m2 results).
Proof.
  unfold mergeAllResults, Debug.
  rewrite (createConsolidationPrompt_spec m1 m2 _ same_spec same_instructions).
  destruct results as [|r1 [|r2 rs]]; [|apply sim_ret|];
    (apply sim_log_l, sim_log_r, sim_bind;
     [apply sim_Complete|intros [resp|err]; apply sim_ret]).
Qed.

(** Phase 1 of the two strategies differs in its logging calls only. *)
Lemma sim_loops total rest :
  forall i acc,
    sim (twoPassLoop Client provider m1 total rest i acc)
        (templateLoop Client provider m2 total rest i acc).
Proof.
  induction rest as [|chunk rest IH]; intros i acc; cbn [twoPassLoop templateLoop].
  - apply sim_ret.
  - unfold Info. apply sim_log_l, sim_log_r, sim_bind; [apply sim_processSingleChunk|].
    intros [[res|] [err|]]; try apply sim_ret; try apply sim_panic.
    apply sim_log_l, sim_log_r, IH.
Qed.

Lemma sim_strategies chunks :
  sim (processTwoPass Client provider m1 chunks)
      (processTemplateDriven Client provider m2 chunks).
Proof.
  unfold processTwoPass, processTemplateDriven, mergeByTemplate, Info.
  apply sim_log_l, sim_log_l, sim_log_r, sim_bind; [apply sim_loops|].
  intros [[results|] [err|]]; try apply sim_ret; try apply sim_panic.
  apply sim_log_l, sim_log_r, sim_bind; [apply sim_mergeAllResults|].
  intros [res [err|]]; [apply sim_ret|].
  apply sim_log_l, sim_log_r, sim_ret.
Qed.

End TwoMergers.

(** *** Runs with a provider that succeeds *)

Lemma bind_log {A} lv msg fs (k : M A) w :
  bind (log Client lv msg fs) (fun _ => k) w
  = k (addLog w {| logging.level := lv; logging.message := msg; logging.fields := fs |}).
Proof. reflexivity. Qed.

Lemma bind_run {A C} (m : M A) (k : A -> M C) w a w' :
  m w = (Returned a, w') -> bind m k w = k a w'.
Proof. intros H. unfold bind. rewrite H. reflexivity. Qed.

Lemma Complete_run p o w r cl :
  provider (client w) p o = (r, cl) ->
  Complete p o w
  = (Returned r,
     {| client := cl;
        calls := calls w ++ [ {| sent := p; sentOptions := o; reply := r |} ];
        logCalls := logCalls w; stdout := stdout w |}).
Proof. intros H. unfold effects.Complete. rewrite H. reflexivity. Qed.

(** One extraction call that succeeds. *)
Lemma processSingleChunk_run m chunk i w resp cl :
  provider (client w) (createExtractionPrompt m chunk) forceJSON = (inl resp, cl) ->
  exists w',
    processSingleChunk Client provider m chunk i w
    = (Returned (Some {| ChunkIndex := i; Content := chunk;
                         JSONData := llm.Content resp;
                         Stats := Some resp; Error := None |}, None), w') /\
    calls w' = calls w ++ [ {| sent := createExtractionPrompt m chunk;
                               sentOptions := forceJSON; reply := inl resp |} ] /\
    client w' = cl /\ stdout w' = stdout w.
Proof.
  intros H. unfold processSingleChunk, Debug. rewrite bind_log.
  erewrite bind_run by (apply Complete_run; exact H).
  eexists. split; [reflexivity|]. cbn. auto.
Qed.

Hypothesis succeeds : alwaysSucceeds Client provider.

Lemma processSingleChunk_ok m chunk i w :
  exists res w' k,
    processSingleChunk Client provider m chunk i w = (Returned (Some res, None), w') /\
    calls w' = calls w ++ [k] /\ isExtractionCall m chunk k /\
    ChunkIndex res = i /\ Content res = chunk.
Proof.
  destruct (succeeds (client w) (createExtractionPrompt m chunk) forceJSON) as (resp & cl & H).
  destruct (processSingleChunk_run m chunk i w resp cl H) as (w' & Hrun & Hcalls & _).
  eexists _, w', _. split; [exact Hrun|]. split; [exact Hcalls|].
  split; [reflexivity|]. split; reflexivity.
Qed.

Lemma mergeWithPrevious_ok m previousJSON chunk i w :
  exists res w' k,
    mergeWithPrevious Client provider m previousJSON chunk i w
    = (Returned (Some res, None), w') /\
    calls w' = calls w ++ [k] /\ isMergeCall m chunk k.
Proof.
  destruct (succeeds (client w) (createMergePrompt m previousJSON chunk) forceJSON)
    as (resp & cl & H).
  unfold mergeWithPrevious, Debug. rewrite bind_log.
  erewrite bind_run by (apply Complete_run; exact H).
  eexists _, _, _. split; [reflexivity|]. split; [reflexivity|].
  exists previousJSON. reflexivity.
Qed.

Lemma mergeAllResults_ok m results w :
  length results <> 1%nat ->
  exists res w' k,
    mergeAllResults Client provider m results w = (Returned (Some res, None), w') /\
    calls w' = calls w ++ [k] /\ isConsolidationCall m (length results) k.
Proof.
  intros Hlen.
  destruct (succeeds (client w)
              (createConsolidationPrompt m (map JSONData results)) forceJSON)
    as (resp & cl & H).
  unfold mergeAllResults, Debug.
  destruct results as [|r1 [|r2 rs]]; [|cbn [length] in Hlen; congruence|];
    (rewrite bind_log; erewrite bind_run by (apply Complete_run; exact H);
     eexists _, _, _; split; [reflexivity|]; split; [reflexivity|];
     eexists; split; [|reflexivity]; apply length_map).
Qed.

Lemma incrementalLoop_ok m total rest :
  forall i res w,
    exists res' w' ks,
      incrementalLoop Client provider m total rest i res w
      = (Returned (Some res', None), w') /\
      calls w' = calls w ++ ks /\ Forall2 (isMergeCall m) rest ks.
Proof.
  induction rest as [|chunk rest IH]; intros i res w; cbn [incrementalLoop].
  - exists res, w, []. rewrite app_nil_r. repeat split. constructor.
  - unfold Info. rewrite bind_log.
    destruct (mergeWithPrevious_ok m (JSONData res) chunk i
                (addLog w {| logging.level := logging.LevelInfo;
                             logging.message := B "Processing and merging chunk";
                             logging.fields :=
                               [(B "chunk_index", logging.FInt i);
                                (B "total", logging.FInt total);
                                (B "progress", logging.FString (progress i total))] |}))
      as (merged & w1 & k & Hrun & Hcalls & Hk).
    erewrite bind_run by exact Hrun. cbv beta iota. rewrite bind_log.
    match goal with |- context [incrementalLoop _ _ _ _ _ _ _ ?w2] =>
      destruct (IH (i + 1) merged w2) as (res' & w' & ks & Hrun' & Hcalls' & Hks) end.
    exists res', w', (k :: ks). split; [exact Hrun'|]. split.
    + rewrite Hcalls'. cbn [calls addLog]. rewrite Hcalls. cbn [calls addLog].
      rewrite <- app_assoc. reflexivity.
    + constructor; assumption.
Qed.

Lemma processIncremental_ok m chunks w :
  chunks <> [] ->
  exists res w' ks,
    processIncremental Client provider m chunks w = (Returned (Some res, None), w') /\
    calls w' = calls w ++ ks /\ incrementalCalls m chunks ks.
Proof.
  intros Hne. destruct chunks as [|chunk0 rest]; [congruence|].
  unfold processIncremental, Info. rewrite !bind_log.
  match goal with |- context [bind (processSingleChunk _ _ _ _ _) _ ?w0] =>
    destruct (processSingleChunk_ok m chunk0 0 w0) as (res & w1 & k & Hrun & Hcalls & Hk & _) end.
  erewrite bind_run by exact Hrun. cbv beta iota. rewrite bind_log.
  match goal with |- context [bind (incrementalLoop _ _ _ ?t _ _ _) _ ?w2] =>
    destruct (incrementalLoop_ok m t rest 1 res w2) as (res' & w3 & ks & Hrun' & Hcalls' & Hks) end.
  erewrite bind_run by exact Hrun'. cbv beta iota. rewrite bind_log.
  eexists res', _, (k :: ks). split; [reflexivity|]. split.
  - cbn [calls addLog]. rewrite Hcalls'. cbn [calls addLog]. rewrite Hcalls.
    cbn [calls addLog]. rewrite <- app_assoc. reflexivity.
  - split; assumption.
Qed.

Lemma templateLoop_ok m total rest :
  forall i acc w,
    exists results w' ks,
      templateLoop Client provider m total rest i acc w
      = (Returned (Some (acc ++ results), None), w') /\
      calls w' = calls w ++ ks /\ Forall2 (isExtractionCall m) rest ks /\
      length results = length rest.
Proof.
  induction rest as [|chunk rest IH]; intros i acc w; cbn [templateLoop].
  - exists [], w, []. rewrite !app_nil_r. repeat split. constructor.
  - unfold Info. rewrite bind_log.
    match goal with |- context [bind (processSingleChunk _ _ _ _ _) _ ?w0] =>
      destruct (processSingleChunk_ok m chunk i w0) as (res & w1 & k & Hrun & Hcalls & Hk & _) end.
    erewrite bind_run by exact Hrun. cbv beta iota. rewrite bind_log.
    match goal with |- context [templateLoop _ _ _ _ _ _ _ ?w2] =>
      destruct (IH (i + 1) (acc ++ [res]) w2) as (results & w' & ks & Hrun' & Hcalls' & Hks & Hlen) end.
    exists (res :: results), w', (k :: ks). split.
    + rewrite Hrun', <- app_assoc. reflexivity.
    + split; [|split; [constructor; assumption|cbn [length]; lia]].
      rewrite Hcalls'. cbn [calls addLog]. rewrite Hcalls. cbn [calls addLog].
      rewrite <- app_assoc. reflexivity.
Qed.

Lemma processTemplateDriven_ok m chunks w :
  (1 < length chunks)%nat ->
  exists res w' ks,
    processTemplateDriven Client provider m chunks w = (Returned (Some res, None), w') /\
    calls w' = calls w ++ ks /\ twoPassCalls m chunks ks.
Proof.
  intros Hlen. unfold processTemplateDriven, mergeByTemplate, Info. rewrite bind_log.
  match goal with |- context [bind (templateLoop _ _ _ ?t _ _ _) _ ?w0] =>
    destruct (templateLoop_ok m t chunks 0 [] w0)
      as (results & w1 & ks & Hrun & Hcalls & Hks & Hl) end.
  cbn [app] in Hrun. erewrite bind_run by exact Hrun. cbv beta iota. rewrite bind_log.
  match goal with |- context [bind (mergeAllResults _ _ _ _) _ ?w2] =>
    destruct (mergeAllResults_ok m results w2 ltac:(lia))
      as (res & w3 & k & Hrun' & Hcalls' & Hk) end.
  erewrite bind_run by exact Hrun'. cbv beta iota. rewrite bind_log.
  eexists res, _, (ks ++ [k]). split; [reflexivity|]. split.
  - cbn [calls addLog]. rewrite Hcalls'. cbn [calls addLog]. rewrite Hcalls.
    cbn [calls addLog]. rewrite <- app_assoc. reflexivity.
  - exists ks, k. split; [reflexivity|]. split; [exact Hks|].
    rewrite <- Hl. exact Hk.
Qed.

End WithClient.

End merger_facts.

(** ** The merge engine's claims *)

Section MergerRuns.

Import effects merger merger_facts strings strings_facts.

Lemma MockComplete_succeeds : alwaysSucceeds llm.MockClient llm.MockComplete.
Proof. intros cl p o. eexists _, _. reflexivity. Qed.

Section MergerClaims.

Variable Client : Type.
Variable provider :
  Client -> bytes -> llm.CompletionOptions ->
  (llm.CompletionResponse + error) * Client.

Local Abbreviation ProcessChunks := (merger.ProcessChunks Client provider).

Lemma Forall2_length_eq {A C} (R : A -> C -> Prop) l1 l2 :
  Forall2 R l1 l2 -> length l1 = length l2.
Proof. induction 1; cbn [length]; congruence. Qed.

(** C6. Under the incremental strategy, with a provider that succeeds on
    every call, [ProcessChunks] on n >= 1 chunks returns a result after
    exactly n provider calls: the extraction of chunk 0, then one merge
    call per later chunk, in order. *)
Theorem incremental_issues_one_call_per_chunk m chunks w :
  alwaysSucceeds Client provider ->
  Strategy (options m) = StrategyIncremental ->
  chunks <> [] ->
  exists res w' ks,
    ProcessChunks m chunks w = (Returned (Some res, None), w') /\
    calls w' = calls w ++ ks /\
    length ks = length chunks /\
    incrementalCalls m chunks ks.
Proof.
  intros Hs Hstrat Hne.
  assert (Hgoal : exists res w' ks,
             ProcessChunks m chunks w = (Returned (Some res, None), w') /\
             calls w' = calls w ++ ks /\ incrementalCalls m chunks ks).
  { destruct chunks as [|c0 [|c1 rest]]; [congruence| |].
    - cbn [merger.ProcessChunks].
      destruct (processSingleChunk_ok Client provider Hs m c0 0 w)
        as (res & w' & k & Hrun & Hcalls & Hk & _).
      exists res, w', [k]. split; [exact Hrun|]. split; [exact Hcalls|].
      split; [exact Hk|constructor].
    - cbn [merger.ProcessChunks]. rewrite Hstrat.
      change (bytes_eqb StrategyIncremental StrategyIncremental) with true.
      cbv iota. apply processIncremental_ok; [exact Hs|discriminate]. }
  destruct Hgoal as (res & w' & ks & Hrun & Hcalls & Hks).
  exists res, w', ks. split; [exact Hrun|]. split; [exact Hcalls|].
  split; [|exact Hks].
  destruct chunks as [|c0 rest], ks as [|k0 ks']; try contradiction.
  destruct Hks as [_ Hf]. apply Forall2_length_eq in Hf. cbn [length]. congruence.
Qed.

(** C7. [ProcessChunks] under the template-driven strategy returns what it
    returns under two-pass and leaves the same provider state, the same
    sequence of provider calls and the same output, whatever the provider
    does; the two runs differ in their logging calls only. With a provider
    that succeeds and n > 1 chunks, the calls are n extractions, in order,
    and one consolidation. *)
Theorem templateDriven_same_as_twoPass m chunks w :
  fst (ProcessChunks (withStrategy m StrategyTemplateDriven) chunks w)
  = fst (ProcessChunks (withStrategy m StrategyTwoPass) chunks w) /\
  observable (snd (ProcessChunks (withStrategy m StrategyTemplateDriven) chunks w))
  = observable (snd (ProcessChunks (withStrategy m StrategyTwoPass) chunks w)) /\
  (alwaysSucceeds Client provider -> (1 < length chunks)%nat ->
   exists ks,
     calls (snd (ProcessChunks (withStrategy m StrategyTemplateDriven) chunks w))
     = calls w ++ ks /\
     length ks = S (length chunks) /\
     twoPassCalls m chunks ks).
Proof.
  assert (Hsim : sim
                   (ProcessChunks (withStrategy m StrategyTwoPass) chunks)
                   (ProcessChunks (withStrategy m StrategyTemplateDriven) chunks)).
  { destruct chunks as [|c0 [|c1 rest]].
    - apply sim_ret.
    - cbn [merger.ProcessChunks]. apply sim_processSingleChunk. reflexivity.
    - cbn [merger.ProcessChunks].
      change (Strategy (options (withStrategy m StrategyTwoPass))) with StrategyTwoPass.
      change (Strategy (options (withStrategy m StrategyTemplateDriven)))
        with StrategyTemplateDriven.
      change (bytes_eqb StrategyTwoPass StrategyIncremental) with false.
      change (bytes_eqb StrategyTwoPass StrategyTwoPass) with true.
      change (bytes_eqb StrategyTemplateDriven StrategyIncremental) with false.
      change (bytes_eqb StrategyTemplateDriven StrategyTwoPass) with false.
      change (bytes_eqb StrategyTemplateDriven StrategyTemplateDriven) with true.
      cbv iota. apply sim_strategies; reflexivity. }
  destruct (Hsim w w eq_refl) as [H1 H2].
  split; [symmetry; exact H1|]. split; [symmetry; exact H2|].
  intros Hs Hlen. destruct chunks as [|c0 [|c1 rest]]; try (cbn [length] in Hlen; lia).
  cbn [merger.ProcessChunks].
  change (Strategy (options (withStrategy m StrategyTemplateDriven)))
    with StrategyTemplateDriven.
  change (bytes_eqb StrategyTemplateDriven StrategyIncremental) with false.
  change (bytes_eqb StrategyTemplateDriven StrategyTwoPass) with false.
  change (bytes_eqb StrategyTemplateDriven StrategyTemplateDriven) with true.
  cbv iota.
  destruct (processTemplateDriven_ok Client provider Hs
              (withStrategy m StrategyTemplateDriven) (c0 :: c1 :: rest) w Hlen)
    as (res & w' & ks & Hrun & Hcalls & Hks).
  rewrite Hrun. cbn [snd]. exists ks. split; [exact Hcalls|].
  destruct Hks as (ex & k & -> & Hex & Hk). split.
  - apply Forall2_length_eq in Hex. rewrite length_app. cbn [length] in *. lia.
  - exists ex, k. auto.
Qed.

(** C8 (amended). With a strategy value outside the three named ones,
    [ProcessChunks] on two or more chunks fails with the unknown-strategy
    error and on no chunk with its no-chunks error, in both cases before any
    provider call (the world is left as it was); the extract command rejects
    the strategy name before it builds the merger, whatever the chunks. *)
Theorem unknown_strategy_rejected m chunks w :
  unknownStrategy (Strategy (options m)) ->
  ((2 <= length chunks)%nat ->
   ProcessChunks m chunks w
   = (Returned (None, Some (ErrorNew (B "unknown merge strategy: "
                                     ++ Strategy (options m)))), w)) /\
  (chunks = [] ->
   ProcessChunks m chunks w
   = (Returned (None, Some (ErrorNew (B "no chunks to process"))), w)) /\
  (forall sp instructions maxRetries showStats,
     runExtractChunks Client provider sp (Strategy (options m)) instructions
       maxRetries showStats chunks w
     = (Returned (None, Some (ErrorNew (B "unknown merge strategy: "
                                       ++ Strategy (options m)))), w)).
Proof.
  intros (H1 & H2 & H3).
  apply bytes_eqb_neq in H1, H2, H3.
  split; [|split].
  - intros Hlen. destruct chunks as [|c0 [|c1 rest]]; try (cbn [length] in Hlen; lia).
    cbn [merger.ProcessChunks]. rewrite H1, H2, H3. reflexivity.
  - intros ->. reflexivity.
  - intros sp instructions maxRetries showStats. unfold runExtractChunks.
    change (B "incremental") with StrategyIncremental.
    change (B "two-pass") with StrategyTwoPass.
    change (B "template-driven") with StrategyTemplateDriven.
    rewrite H1, H2, H3. reflexivity.
Qed.

(** C10. On a one-element chunk sequence, when the provider's [Complete]
    succeeds on the extraction prompt, [ProcessChunks] issues that one call
    and returns the chunk's result with index 0, whatever the strategy
    value; the run does not depend on the strategy at all. *)
Theorem single_chunk_ignores_strategy m chunk w resp cl s :
  provider (client w) (createExtractionPrompt m chunk) forceJSON = (inl resp, cl) ->
  (exists w',
     ProcessChunks (withStrategy m s) [chunk] w
     = (Returned (Some {| ChunkIndex := 0; Content := chunk;
                          JSONData := llm.Content resp;
                          Stats := Some resp; Error := None |}, None), w') /\
     calls w' = calls w ++ [ {| sent := createExtractionPrompt m chunk;
                                sentOptions := forceJSON;
                                reply := inl resp |} ]) /\
  ProcessChunks (withStrategy m s) [chunk] w = ProcessChunks m [chunk] w.
Proof.
  intros H. split; [|reflexivity].
  destruct (processSingleChunk_run Client provider m chunk 0 w resp cl H)
    as (w' & Hrun & Hcalls & _).
  exists w'. split; [exact Hrun|exact Hcalls].
Qed.

End MergerClaims.

(** C6, at a run of the mock client on three chunks. *)
Lemma incremental_issues_one_call_per_chunk_witness :
  exists res w' ks,
    merger.ProcessChunks llm.MockClient llm.MockComplete
      (exampleMerger StrategyIncremental []) [B "one"; B "two"; B "three"] mockWorld
    = (Returned (Some res, None), w') /\
    calls w' = calls mockWorld ++ ks /\
    length ks = 3%nat /\
    incrementalCalls (exampleMerger StrategyIncremental [])
      [B "one"; B "two"; B "three"] ks.
Proof.
  apply (incremental_issues_one_call_per_chunk llm.MockClient llm.MockComplete
           (exampleMerger StrategyIncremental []) [B "one"; B "two"; B "three"]
           mockWorld MockComplete_succeeds eq_refl).
  discriminate.
Defined.

(** C7, at a run of the mock client on two chunks. *)
Lemma templateDriven_same_as_twoPass_witness :
  alwaysSucceeds llm.MockClient llm.MockComplete /\
  (1 < length [B "one"; B "two"])%nat /\
  exists ks,
    calls (snd (merger.ProcessChunks llm.MockClient llm.MockComplete
                  (withStrategy (exampleMerger [] []) StrategyTemplateDriven)
                  [B "one"; B "two"] mockWorld))
    = calls mockWorld ++ ks /\
    length ks = 3%nat /\
    twoPassCalls (exampleMerger [] []) [B "one"; B "two"] ks.
Proof.
  split; [exact MockComplete_succeeds|]. split; [cbn; lia|].
  apply (templateDriven_same_as_twoPass llm.MockClient llm.MockComplete
           (exampleMerger [] []) [B "one"; B "two"] mockWorld).
  - exact MockComplete_succeeds.
  - cbn; lia.
Defined.

(** C8, as the claim states it, fails: with a strategy value outside the
    three named ones and a one-element chunk sequence, [ProcessChunks]
    calls the provider and returns a result. *)
Lemma unknown_strategy_single_chunk_calls_provider :
  unknownStrategy (Strategy (options (exampleMerger (B "bogus") []))) /\
  exists res w',
    merger.ProcessChunks llm.MockClient llm.MockComplete
      (exampleMerger (B "bogus") []) [B "only chunk"] mockWorld
    = (Returned (Some res, None), w') /\
    length (calls w') = 1%nat.
Proof.
  split.
  - repeat split; discriminate.
  - eexists _, _. split; [reflexivity|reflexivity].
Qed.

(** C8 (amended), at the strategy value "bogus" and two chunks. *)
Lemma unknown_strategy_rejected_witness :
  unknownStrategy (B "bogus") /\
  merger.ProcessChunks llm.MockClient llm.MockComplete
    (exampleMerger (B "bogus") []) [B "one"; B "two"] mockWorld
  = (Returned (None, Some (ErrorNew (B "unknown merge strategy: " ++ B "bogus"))),
     mockWorld).
Proof.
  split; [repeat split; discriminate|].
  apply (unknown_strategy_rejected llm.MockClient llm.MockComplete
           (exampleMerger (B "bogus") []) [B "one"; B "two"] mockWorld).
  - repeat split; discriminate.
  - cbn; lia.
Defined.

(** C10, at a run of the mock client with the strategy value "bogus". *)
Lemma single_chunk_ignores_strategy_witness :
  exists w',
    merger.ProcessChunks llm.MockClient llm.MockComplete
      (withStrategy (exampleMerger [] []) (B "bogus")) [B "only chunk"] mockWorld
    = (Returned (Some {| ChunkIndex := 0; Content := B "only chunk";
                         JSONData := B "Mock response";
                         Stats := Some {| llm.Content := B "Mock response";
                                          llm.TokensUsed :=
                                            {| llm.PromptTokens := 100;
                                               llm.CompletionTokens := 50;
                                               llm.TotalTokens := 150 |};
                                          llm.Duration := 100000000;
                                          llm.Model := B "mock" |};
                         Error := None |}, None), w') /\
    length (calls w') = 1%nat.
Proof.
  destruct (single_chunk_ignores_strategy llm.MockClient llm.MockComplete
              (exampleMerger [] []) (B "only chunk") mockWorld _ _ (B "bogus") eq_refl)
    as [(w' & Hrun & Hcalls) _].
  exists w'. split; [exact Hrun|]. rewrite Hcalls. reflexivity.
Defined.




End MergerRuns.

(** ** The validate and repair loop *)

Module validate_facts.
Import effects validate merger_facts.

Lemma lastPayload_snoc ks k :
  lastPayload (ks ++ [k])
  = match reply k with inl resp => Some (llm.Content resp) | inr _ => None end.
Proof. unfold lastPayload. rewrite rev_app_distr. reflexivity. Qed.

Lemma lastPayload_cons k ks : ks <> [] -> lastPayload (k :: ks) = lastPayload ks.
Proof.
  intros Hne. destruct (exists_last Hne) as (init & l & ->).
  change (k :: init ++ [l]) with ((k :: init) ++ [l]).
  rewrite !lastPayload_snoc. reflexivity.
Qed.

Section WithSchema.

Variable JSONValue : Type.
Variable EvaluationResult : Type.
Variable Unmarshal : bytes -> JSONValue + bytes.
Variable schemaValidate : JSONValue -> option EvaluationResult.
Variable Client : Type.
Variable provider :
  Client -> bytes -> llm.CompletionOptions ->
  (llm.CompletionResponse + error) * Client.

Local Abbreviation Validate :=
  (validate.Validate JSONValue EvaluationResult Unmarshal schemaValidate).
Local Abbreviation retryLoop :=
  (validate.retryLoop JSONValue EvaluationResult Unmarshal schemaValidate Client provider).
Local Abbreviation ValidateAndRetry :=
  (validate.ValidateAndRetry JSONValue EvaluationResult Unmarshal schemaValidate
     Client provider).

Hypothesis succeeds : alwaysSucceeds Client provider.
Hypothesis invalid :
  neverValid Client provider JSONValue EvaluationResult Unmarshal schemaValidate.

Lemma retryLoop_exhausts input k turns :
  forall attempt data w,
    attempt = k + 1 - Z.of_nat turns ->
    Valid (Validate data) = false ->
    exists data' w' ks,
      retryLoop input k turns attempt data (Validate data) w
      = (Returned (data', Some (Validate data'), Some (exhausted k)), w') /\
      calls w' = calls w ++ ks /\ length ks = turns /\
      (ks = [] -> data' = data) /\ (ks <> [] -> lastPayload ks = Some data') /\
      Valid (Validate data') = false.
Proof.
  induction turns as [|turns IH]; intros attempt data w Hatt Hbad.
  - cbn [validate.retryLoop].
    destruct (Z.leb_spec attempt k) as [Hle|Hgt]; [cbn in Hatt; lia|].
    exists data, w, []. rewrite app_nil_r. repeat split; congruence.
  - cbn [validate.retryLoop].
    destruct (Z.leb_spec attempt k) as [Hle|Hgt]; [|lia].
    unfold bind at 1. unfold Printf at 1. cbv beta iota.
    match goal with |- context [bind (effects.Complete _ _ ?p ?o) _ ?w0] =>
      destruct (succeeds (client w0) p o) as (resp & cl & Hp);
      pose proof (Complete_run Client provider p o w0 (inl resp) cl Hp) as Hrun end.
    erewrite bind_run by exact Hrun. cbv beta iota.
    rewrite (invalid _ _ _ _ _ Hp).
    match goal with |- context [validate.retryLoop _ _ _ _ _ _ _ _ _ _ _ _ ?w1] =>
      destruct (IH (attempt + 1) (llm.Content resp) w1 ltac:(lia)
                  (invalid _ _ _ _ _ Hp))
        as (data' & w' & ks & Hloop & Hcalls & Hlen & Hnil & Hlast & Hbad') end.
    exists data', w'. eexists (_ :: ks). split; [exact Hloop|].
    split; [rewrite Hcalls; cbn [calls]; rewrite <- app_assoc; reflexivity|].
    split; [cbn [length]; lia|]. split; [discriminate|].
    split; [|exact Hbad']. intros _.
    destruct ks as [|k1 ks].
    + rewrite (Hnil eq_refl). reflexivity.
    + rewrite lastPayload_cons by discriminate. apply Hlast. discriminate.
Qed.

End WithSchema.

End validate_facts.

Section ValidateClaims.

Import effects validate validate_facts merger_facts.


Lemma rejectAll_neverValid :
  neverValid llm.MockClient llm.MockComplete unit unit rejectAll (fun _ => None).
Proof. intros cl p o resp cl' _. reflexivity. Qed.


End ValidateClaims.

(** * Further properties of the code *)

(** ** The float64 steps in closed form *)

Module float64_closed.
Import float64 float64_facts.

(** Rounding never goes below a multiple of 2^d that the value reaches,
    for d <= 53 and values below 2^(52+d). *)
Lemma round53_ge_multiple d k p :
  0 <= d <= 53 -> 0 < p -> Z.log2 p - 52 <= d -> k * 2 ^ d <= p ->
  k * 2 ^ d <= round53 p.
Proof.
  intros Hd Hp Hs Hk.
  destruct (round53_pos_cases p Hp) as [[_ ->]|(Hs0 & Hq & up & -> & _)]; [exact Hk|].
  set (s := Z.log2 p - 52) in *.
  assert (Hps : 0 < 2 ^ s) by (apply Z.pow_pos_nonneg; lia).
  assert (E : 2 ^ d = 2 ^ (d - s) * 2 ^ s).
  { rewrite <- Z.pow_add_r by lia. f_equal. lia. }
  assert (Hdiv : k * 2 ^ (d - s) <= p / 2 ^ s).
  { apply Z.div_le_lower_bound; [exact Hps|]. rewrite E in Hk. lia. }
  rewrite E. destruct up; nia.
Qed.

Lemma mul1_1_trunc_closed q :
  0 <= q < 2 ^ 47 -> mul1_1_trunc q = q * 11 / 10.
Proof.
  intros [H0 H1]. unfold mul1_1_trunc.
  rewrite (round53_small q) by (change (2 ^ 47) with 140737488355328 in H1;
                                change (2 ^ 53) with 9007199254740992; lia).
  destruct (Z.eq_dec q 0) as [->|Hq]; [reflexivity|].
  set (p := q * m1_1). set (n := q * 11 / 10).
  assert (Hp : 0 < p) by (unfold p, m1_1; lia).
  pose proof (Z.div_mod (q * 11) 10 ltac:(lia)) as Hdm.
  pose proof (Z.mod_pos_bound (q * 11) 10 ltac:(lia)) as Hmod. fold n in Hdm.
  set (r := (q * 11) mod 10) in *. clearbody n r.
  assert (Hlog : Z.log2 p - 52 <= 52).
  { assert (Z.log2 p < 105); [|lia]. apply Z.log2_lt_pow2; [exact Hp|].
    unfold p, m1_1. change (2 ^ 47) with 140737488355328 in H1.
    change (2 ^ 105) with 40564819207303340847894502572032. lia. }
  assert (Hlo : n * 2 ^ 52 <= round53 p).
  { apply round53_ge_multiple; try lia. unfold p, m1_1.
    change (2 ^ 52) with 4503599627370496. clear - H0 Hdm Hmod. lia. }
  pose proof (round53_upper p ltac:(lia)) as Hup.
  assert (Hhi : round53 p < (n + 1) * 2 ^ 52).
  { assert (Ep : p = q * 4953959590107546) by reflexivity.
    change (2 ^ 53) with 9007199254740992 in Hup.
    change (2 ^ 52) with 4503599627370496.
    change (2 ^ 47) with 140737488355328 in H1.
    set (R := round53 p) in *. clearbody R p. clear - H0 H1 Hdm Hmod Hup Ep. lia. }
  rewrite Z.quot_div_nonneg by lia.
  symmetry. apply (Z.div_unique _ _ n (round53 p - n * 2 ^ 52)); lia.
Qed.

Lemma div4_trunc_closed n : 0 <= n < 2 ^ 53 -> div4_trunc n = n / 4.
Proof.
  intros H. unfold div4_trunc. rewrite round53_small by exact H.
  apply Z.quot_div_nonneg; lia.
Qed.

Lemma mul4_mul0_8_trunc_closed b :
  0 <= b < 2 ^ 48 -> mul4_mul0_8_trunc b = b * 16 / 5.
Proof.
  intros [H0 H1]. unfold mul4_mul0_8_trunc.
  rewrite (round53_small b) by (change (2 ^ 48) with 281474976710656 in H1;
                                change (2 ^ 53) with 9007199254740992; lia).
  destruct (Z.eq_dec b 0) as [->|Hb]; [reflexivity|].
  set (p := b * 4 * m0_8). set (n := b * 16 / 5).
  assert (Hp : 0 < p) by (unfold p, m0_8; lia).
  pose proof (Z.div_mod (b * 16) 5 ltac:(lia)) as Hdm.
  pose proof (Z.mod_pos_bound (b * 16) 5 ltac:(lia)) as Hmod. fold n in Hdm.
  set (r := (b * 16) mod 5) in *. clearbody n r.
  assert (Hlog : Z.log2 p - 52 <= 53).
  { assert (Z.log2 p < 106); [|lia]. apply Z.log2_lt_pow2; [exact Hp|].
    unfold p, m0_8. change (2 ^ 48) with 281474976710656 in H1.
    change (2 ^ 106) with 81129638414606681695789005144064. lia. }
  assert (Hlo : n * 2 ^ 53 <= round53 p).
  { apply round53_ge_multiple; try lia. unfold p, m0_8.
    change (2 ^ 53) with 9007199254740992. clear - H0 Hdm Hmod. lia. }
  pose proof (round53_upper p ltac:(lia)) as Hup.
  assert (Hhi : round53 p < (n + 1) * 2 ^ 53).
  { assert (Ep : p = b * 4 * 7205759403792794) by reflexivity.
    change (2 ^ 53) with 9007199254740992 in *.
    change (2 ^ 48) with 281474976710656 in H1.
    set (R := round53 p) in *. clearbody R p. clear - H0 H1 Hdm Hmod Hup Ep. lia. }
  rewrite Z.quot_div_nonneg by lia.
  symmetry. apply (Z.div_unique _ _ n (round53 p - n * 2 ^ 53)); lia.
Qed.

End float64_closed.

(** ** More on the chunker *)

Module tokenizer_more.
Import float64 float64_facts float64_closed utf8 utf8_facts strings strings_facts trim_facts.
Import tokenizer tokenizer_facts chunker_facts.

Lemma round53_opp n : round53 (- n) = - round53 n.
Proof.
  unfold round53. rewrite Z.abs_opp, Z.sgn_opp.
  destruct (Z.log2 (Z.abs n) - 52 <=? 0); [reflexivity|]. ring.
Qed.

Lemma charLimit_negative b : b < 0 -> mul4_mul0_8_trunc b < 0.
Proof.
  intros Hb. unfold mul4_mul0_8_trunc.
  replace b with (- (- b)) by lia. rewrite round53_opp.
  pose proof (round53_le_mono 1 (- b) ltac:(lia)) as H1.
  change (round53 1) with 1 in H1.
  set (x := round53 (- b)) in *.
  replace (- x * 4 * m0_8) with (- (x * 4 * m0_8)) by ring.
  rewrite round53_opp.
  pose proof (round53_le_mono (2 ^ 54) (x * 4 * m0_8)) as H2.
  assert (E : round53 (2 ^ 54) = 2 ^ 54) by (vm_compute; reflexivity).
  rewrite E in H2. unfold m0_8 in *.
  change (2 ^ 54) with 18014398509481984 in H2.
  specialize (H2 ltac:(lia)).
  set (y := round53 (x * 4 * 7205759403792794)) in *.
  rewrite Z.quot_opp_l by (vm_compute; discriminate).
  rewrite Z.quot_div_nonneg by lia.
  assert (2 <= y / 2 ^ 53); [|lia].
  apply Z.div_le_lower_bound; [vm_compute; reflexivity|].
  change (2 ^ 53) with 9007199254740992. lia.
Qed.

(** *** Chunks are not empty *)

Lemma over_budget_nonempty c text :
  0 <= maxTokens c -> maxTokens c < CountTokens text -> text <> [].
Proof. intros Hb H ->. cbn in H. lia. Qed.

Lemma nextChunk_nonempty c remaining chunk rest :
  1 <= maxTokens c -> maxTokens c < CountTokens remaining ->
  nextChunk c remaining = Returned (chunk, rest) -> chunk <> [].
Proof.
  intros Hb Hbig. unfold nextChunk.
  destruct (findOptimalChunk c remaining) as [ch rs].
  destruct (bytes_eqb ch []) eqn:Hnil.
  - destruct (forceSplit_spec c remaining Hb Hbig)
      as (ch' & rs' & l & r & Hfs & _ & _ & _ & Hne & _).
    rewrite Hfs. intros E. injection E as <- <-. exact Hne.
  - intros E. injection E as <- <-. apply bytes_eqb_neq. exact Hnil.
Qed.

Lemma chunkLoop_nonempty c :
  1 <= maxTokens c ->
  forall fuel remaining acc,
    (length remaining <= fuel)%nat ->
    exists cs rem,
      chunkLoop c fuel remaining acc = Returned (acc ++ cs, rem) /\
      Forall (fun ch => ch <> []) cs /\
      (length cs + length rem <= length remaining)%nat /\
      (maxTokens c < CountTokens remaining -> cs <> []).
Proof.
  intros Hb. induction fuel as [|fuel IH]; intros remaining acc Hfuel.
  - destruct remaining; [|cbn [length] in Hfuel; lia].
    exists [], []. rewrite app_nil_r. split; [reflexivity|].
    split; [constructor|]. split; [cbn; lia|]. cbn. lia.
  - cbn [chunkLoop].
    destruct ((0 <? len remaining) && (maxTokens c <? CountTokens remaining)) eqn:Hg.
    2:{ exists [], remaining. rewrite app_nil_r. split; [reflexivity|].
        split; [constructor|]. split; [cbn; lia|]. intros Hbig.
        pose proof (over_budget_nonempty c remaining ltac:(lia) Hbig) as Hne.
        apply andb_false_iff in Hg. destruct Hg as [Hg|Hg]; apply Z.ltb_ge in Hg.
        - unfold len in Hg. destruct remaining; [congruence|cbn [length] in Hg; lia].
        - lia. }
    apply andb_true_iff in Hg. destruct Hg as [_ Hbig]. apply Z.ltb_lt in Hbig.
    destruct (nextChunk_spec c remaining Hb Hbig)
      as (chunk & rest & g & r & Hnext & _ & _ & _ & _ & Hlen).
    pose proof (nextChunk_nonempty c remaining chunk rest Hb Hbig Hnext) as Hne.
    rewrite Hnext.
    destruct (IH rest (acc ++ [chunk]) ltac:(lia)) as (cs & rem & Hrun & Hall & Hcount & _).
    exists (chunk :: cs), rem. rewrite Hrun, <- app_assoc.
    split; [reflexivity|]. split; [constructor; assumption|].
    split; [cbn [length]; lia|]. intros _. discriminate.
Qed.

Lemma TrimSpace_nil : TrimSpace [] = [].
Proof. reflexivity. Qed.

Lemma ChunkText_nonempty_spec c text :
  1 <= maxTokens c -> maxTokens c < CountTokens text ->
  exists chunks,
    ChunkText c text = Returned chunks /\ chunks <> [] /\
    Forall (fun chunk => chunk <> []) chunks /\
    (length chunks <= length text)%nat.
Proof.
  intros Hb Hbig. unfold ChunkText, ChunkTextFuel.
  destruct (Z.leb_spec (CountTokens text) (maxTokens c)) as [Hfit|_]; [lia|].
  destruct (chunkLoop_nonempty c Hb (length text) text [] (le_n _))
    as (cs & rem & Hrun & Hall & Hcount & Hne).
  rewrite Hrun. cbn [app]. specialize (Hne Hbig).
  destruct (Z.ltb_spec 0 (len (TrimSpace rem))) as [Hkeep|Hdrop].
  - assert (Hrem : rem <> []).
    { intros ->. rewrite TrimSpace_nil in Hkeep. cbn in Hkeep. lia. }
    exists (cs ++ [rem]). split; [reflexivity|].
    split; [destruct cs; discriminate|].
    split; [apply Forall_app; split; [exact Hall|repeat constructor; exact Hrem]|].
    rewrite length_app. cbn [length].
    destruct rem; [congruence|cbn [length] in Hcount; lia].
  - exists cs. split; [reflexivity|]. split; [exact Hne|]. split; [exact Hall|lia].
Qed.

(** *** A negative budget *)

Lemma tryBoundary_negative c text sep :
  maxTokens c < 0 -> fst (tryBoundary c text sep) = [].
Proof.
  intros Hb. unfold tryBoundary.
  destruct (Z.of_nat (length (Split text sep)) <=? 1); [reflexivity|].
  destruct (Split text sep) as [|p ps]; [reflexivity|].
  cbn [tryBoundaryLoop].
  pose proof (CountTokens_nonneg ([] ++ (if 0 <? 0 then sep else []) ++ p)) as H.
  destruct (Z.ltb_spec (maxTokens c) (CountTokens ([] ++ (if 0 <? 0 then sep else []) ++ p)));
    [reflexivity|lia].
Qed.

Lemma findOptimalChunkLoop_none c text bs best rest :
  (forall sep, fst (tryBoundary c text sep) = []) ->
  findOptimalChunkLoop c text bs best rest = (best, rest).
Proof.
  intros Hnone. induction bs as [|sep bs IH]; cbn [findOptimalChunkLoop]; [reflexivity|].
  specialize (Hnone sep). destruct (tryBoundary c text sep) as [chunk rem].
  cbn [fst] in Hnone. subst chunk. cbn [bytes_eqb negb andb]. exact IH.
Qed.

Lemma forceSplit_negative c text :
  maxTokens c < 0 -> forceSplit c text = Panicked.
Proof.
  intros Hb. unfold forceSplit.
  pose proof (charLimit_negative (maxTokens c) Hb) as Hcl.
  set (cl := mul4_mul0_8_trunc (maxTokens c)) in *.
  destruct (Z.leb_spec (len text) cl) as [H|_]; [unfold len in H; lia|].
  replace (Z.to_nat cl) with 0%nat by lia. cbn [cutPointLoop].
  destruct (Z.eqb_spec cl 0) as [H|_]; [lia|].
  destruct (Z.ltb_spec cl 0) as [_|H]; [reflexivity|lia].
Qed.

Lemma ChunkText_negative_spec c text :
  maxTokens c < 0 ->
  ChunkText c text = match text with [] => Returned [] | _ :: _ => Panicked end.
Proof.
  intros Hb. unfold ChunkText, ChunkTextFuel.
  pose proof (CountTokens_nonneg text) as Hn.
  destruct (Z.leb_spec (CountTokens text) (maxTokens c)) as [H|_]; [lia|].
  destruct text as [|b text]; [reflexivity|].
  cbn [length chunkLoop].
  destruct (Z.ltb_spec 0 (len (b :: text))) as [_|H]; [|unfold len in H; cbn [length] in H; lia].
  destruct (Z.ltb_spec (maxTokens c) (CountTokens (b :: text))) as [_|H]; [|lia].
  cbn [andb]. unfold nextChunk, findOptimalChunk.
  destruct (Z.leb_spec (CountTokens (b :: text)) (maxTokens c)) as [H|_]; [lia|].
  rewrite findOptimalChunkLoop_none by (intros; apply tryBoundary_negative; exact Hb).
  cbn [bytes_eqb]. rewrite forceSplit_negative by exact Hb. reflexivity.
Qed.

(** *** Where a forced split cuts *)

Lemma cutPointLoop_last_blank text fuel :
  forall cut,
    0 <= cut < len text -> cut <= Z.of_nat fuel ->
    let cp := cutPointLoop text fuel cut in
    0 <= cp <= cut /\
    (forall j, cp < j <= cut -> blankAt text j = false) /\
    (0 < cp -> blankAt text cp = true).
Proof.
  induction fuel as [|fuel IH]; intros cut Hcut Hfuel; cbn [cutPointLoop]; cbv zeta.
  - split; [lia|]. split; [intros; lia|]. intros; lia.
  - destruct (Z.ltb_spec 0 cut) as [Hpos|H0]; cbn [andb].
    2:{ split; [lia|]. split; intros; lia. }
    destruct (Z.ltb_spec cut (len text)) as [_|H]; [|lia].
    destruct (isBlank (nth (Z.to_nat cut) text x00)) eqn:Hblank.
    + split; [lia|]. split; [intros; lia|]. intros _. exact Hblank.
    + destruct (IH (cut - 1) ltac:(lia) ltac:(lia)) as (Hb & Hno & Hyes).
      split; [lia|]. split; [|exact Hyes].
      intros j Hj. destruct (Z.eq_dec j cut) as [->|Hne]; [exact Hblank|].
      apply Hno. lia.
Qed.

(** *** The greedy accumulation of [tryBoundary] *)

Section Greedy.

Variable c : Chunker.
Variable text sep : bytes.

Lemma tryBoundaryLoop_greedy parts rest :
  forall done current,
    parts = done ++ rest ->
    current = Join done sep ->
    let r := tryBoundaryLoop c text sep parts rest (Z.of_nat (length done)) current
               (Z.of_nat (length done)) in
    r = ([], text) \/ r = (Join parts sep, []) \/
    exists d next rs,
      parts = d ++ next :: rs /\ d <> [] /\
      r = (Join d sep, Join (next :: rs) sep) /\
      maxTokens c < CountTokens (Join d sep ++ sep ++ next).
Proof.
  induction rest as [|part rest IH]; intros done current Hparts Hcur;
    cbn [tryBoundaryLoop]; cbv zeta.
  - rewrite app_nil_r in Hparts. subst. right. left. reflexivity.
  - set (candidate := current ++ (if 0 <? Z.of_nat (length done) then sep else []) ++ part).
    assert (Hcand : candidate = Join (done ++ [part]) sep).
    { unfold candidate. rewrite Join_snoc. subst current.
      destruct done as [|d done]; [reflexivity|].
      destruct (Z.ltb_spec 0 (Z.of_nat (length (d :: done)))) as [_|H]; [reflexivity|].
      cbn [length] in H. lia. }
    destruct (Z.ltb_spec (maxTokens c) (CountTokens candidate)) as [Hbig|Hfit].
    + destruct (Z.eqb_spec (Z.of_nat (length done)) 0) as [H0|H0]; [left; reflexivity|].
      right. right.
      assert (Hd : done <> []) by (intros ->; cbn [length] in H0; lia).
      exists done, part, rest. split; [exact Hparts|]. split; [exact Hd|].
      split.
      * rewrite Nat2Z.id. subst parts.
        rewrite skipn_app, skipn_all, Nat.sub_diag. cbn [skipn app].
        subst current. reflexivity.
      * rewrite Hcand in Hbig. rewrite Join_snoc in Hbig.
        destruct done; [congruence|]. exact Hbig.
    + specialize (IH (done ++ [part]) candidate).
      rewrite length_app in IH. cbn [length] in IH.
      replace (Z.of_nat (length done + 1)) with (Z.of_nat (length done) + 1) in IH by lia.
      apply IH; [rewrite <- app_assoc; exact Hparts|exact Hcand].
Qed.

End Greedy.

(** *** [findOptimalChunk] keeps the longest chunk *)

Lemma len_nonneg (s : bytes) : 0 <= len s.
Proof. unfold len. lia. Qed.

Lemma findOptimalChunkLoop_longest c text bs :
  forall best rest,
    let r := findOptimalChunkLoop c text bs best rest in
    len best <= len (fst r) /\
    (forall sep, In sep bs -> len (fst (tryBoundary c text sep)) <= len (fst r)) /\
    (r = (best, rest) \/ exists sep, In sep bs /\ r = tryBoundary c text sep).
Proof.
  induction bs as [|sep bs IH]; intros best rest; cbn [findOptimalChunkLoop]; cbv zeta.
  - cbn [fst]. split; [lia|]. split; [intros s []|left; reflexivity].
  - destruct (tryBoundary c text sep) as [chunk rem] eqn:Ht.
    destruct (negb (bytes_eqb chunk []) && (len best <? len chunk)) eqn:Hc.
    + apply andb_true_iff in Hc. destruct Hc as [_ Hc]. apply Z.ltb_lt in Hc.
      destruct (IH chunk rem) as (H1 & H2 & H3). cbv zeta in *.
      split; [lia|]. split.
      * intros s [<-|Hs]; [rewrite Ht; exact H1|apply H2; exact Hs].
      * right. destruct H3 as [H3|(s & Hs & H3)].
        -- exists sep. split; [left; reflexivity|]. rewrite H3. symmetry. exact Ht.
        -- exists s. split; [right; exact Hs|exact H3].
    + destruct (IH best rest) as (H1 & H2 & H3). cbv zeta in *.
      split; [exact H1|]. split.
      * intros s [<-|Hs]; [|apply H2; exact Hs]. rewrite Ht. cbn [fst].
        apply andb_false_iff in Hc. destruct Hc as [Hc|Hc].
        -- apply negb_false_iff, bytes_eqb_nil in Hc. subst chunk.
           pose proof (len_nonneg best). change (len []) with 0. lia.
        -- apply Z.ltb_ge in Hc. lia.
      * destruct H3 as [H3|(s & Hs & H3)]; [left; exact H3|].
        right. exists s. split; [right; exact Hs|exact H3].
Qed.

(** *** [ValidateBoundary] *)

Lemma explode_length fuel s :
  (length s <= fuel)%nat -> (length s <= 4 * length (explode fuel s))%nat.
Proof.
  revert s. induction fuel as [|fuel IH]; intros s Hf.
  - destruct s; cbn [length] in *; lia.
  - cbn [explode]. destruct s as [|b s]; [cbn; lia|].
    pose proof (DecodeRune_size (b :: s) ltac:(discriminate)) as [H1 H2].
    set (k := snd (DecodeRuneInString (b :: s))) in *.
    specialize (IH (skipn k (b :: s))). rewrite length_skipn in IH.
    cbn [length] in *. lia.
Qed.

Lemma Split_two_Contains text sep :
  sep <> [] -> (2 <= length (Split text sep))%nat -> Contains text sep = true.
Proof.
  intros Hsep Hlen. pose proof (Join_Split text sep Hsep) as HJ.
  destruct (Split text sep) as [|a [|b l]]; cbn [length] in Hlen; try lia.
  rewrite Join_cons in HJ by discriminate.
  rewrite <- HJ. apply Contains_app.
Qed.

End tokenizer_more.

(** ** Further properties of the chunker *)

Section TokenizerProperties.

Import float64 float64_facts float64_closed utf8 utf8_facts strings strings_facts.
Import trim_facts tokenizer tokenizer_facts chunker_facts tokenizer_more.

(** X1. On a text of fewer than 2^49 bytes the two float64 roundings of
    [CountTokens] never show: the estimate is the number of runes divided
    by 4, times 11, divided by 10, both divisions rounding down. *)
Theorem CountTokens_is_eleven_tenths_of_a_quarter text :
  len text < 2 ^ 49 ->
  CountTokens text = RuneCountInString text / 4 * 11 / 10.
Proof.
  intros Hlen. rewrite CountTokens_estimate. unfold estimate.
  pose proof (RuneCount_bounds text) as Hr.
  set (n := RuneCountInString text) in *.
  change (2 ^ 49) with 562949953421312 in Hlen.
  rewrite div4_trunc_closed by (change (2 ^ 53) with 9007199254740992; lia).
  apply mul1_1_trunc_closed.
  pose proof (Z.div_mod n 4 ltac:(lia)) as Hdm.
  pose proof (Z.mod_pos_bound n 4 ltac:(lia)) as Hmod.
  change (2 ^ 47) with 140737488355328. lia.
Qed.

(** X2. Under a positive budget [ChunkText] returns the text as its only
    chunk exactly when the estimate of the text is within the budget. *)
Theorem ChunkText_one_chunk_iff_fits c text :
  1 <= maxTokens c ->
  (ChunkText c text = Returned [text] <-> CountTokens text <= maxTokens c).
Proof.
  intros Hb. split.
  - intros Hrun. destruct (ChunkText_spec c text Hb) as (chunks & Hrun' & Hall & _).
    rewrite Hrun in Hrun'. injection Hrun' as <-.
    inversion Hall as [|x l Hw _]. exact Hw.
  - intros Hfit. unfold ChunkText, ChunkTextFuel.
    destruct (Z.leb_spec (CountTokens text) (maxTokens c)); [reflexivity|lia].
Qed.

(** X3. Under a positive budget, a text over the budget is cut into at
    least one chunk and at most as many chunks as it has bytes, and no
    chunk is empty. *)
Theorem ChunkText_chunks_are_not_empty c text :
  1 <= maxTokens c -> maxTokens c < CountTokens text ->
  exists chunks,
    ChunkText c text = Returned chunks /\ chunks <> [] /\
    Forall (fun chunk => chunk <> []) chunks /\
    (length chunks <= length text)%nat.
Proof. apply ChunkText_nonempty_spec. Qed.

(** X4. Under a negative budget [ChunkText] panics on every text that is
    not empty, in the slice expression of [forceSplit], and returns no
    chunk at all on the empty text. *)
Theorem ChunkText_negative_budget c text :
  maxTokens c < 0 ->
  ChunkText c text = match text with [] => Returned [] | _ :: _ => Panicked end.
Proof. apply ChunkText_negative_spec. Qed.

(** X5. With a budget b from 1 to 2^48 - 1 the character limit of
    [forceSplit] is 16 b / 5 rounded down. A text within the limit comes
    back whole. A longer one is cut at the last blank byte (space, line
    feed or tab) at an index from 1 to the limit, or at the limit when
    there is none; the rest is trimmed. *)
Theorem forceSplit_cuts_at_the_last_blank c text :
  1 <= maxTokens c < 2 ^ 48 ->
  let limit := maxTokens c * 16 / 5 in
  (len text <= limit -> forceSplit c text = Returned (text, [])) /\
  (limit < len text ->
   exists cut,
     1 <= cut <= limit /\
     forceSplit c text
     = Returned (firstn (Z.to_nat cut) text, TrimSpace (skipn (Z.to_nat cut) text)) /\
     (forall j, cut < j <= limit -> blankAt text j = false) /\
     (blankAt text cut = true \/
      (cut = limit /\ forall j, 1 <= j <= limit -> blankAt text j = false))).
Proof.
  intros Hb limit. unfold forceSplit.
  rewrite mul4_mul0_8_trunc_closed by lia. fold limit.
  assert (H3 : 3 <= limit).
  { unfold limit. apply Z.div_le_lower_bound; lia. }
  split; intros Hlen.
  - destruct (Z.leb_spec (len text) limit); [reflexivity|lia].
  - destruct (Z.leb_spec (len text) limit) as [H|_]; [lia|].
    destruct (cutPointLoop_last_blank text (Z.to_nat limit) limit ltac:(lia) ltac:(lia))
      as (Hcp & Hno & Hyes).
    set (cp0 := cutPointLoop text (Z.to_nat limit) limit) in *.
    destruct (Z.eqb_spec cp0 0) as [E0|Hne].
    + exists limit. split; [lia|].
      destruct (Z.ltb_spec limit 0) as [H|_]; [lia|].
      destruct (Z.ltb_spec (len text) limit) as [H|_]; [lia|]. cbn [orb].
      split; [reflexivity|]. split; [intros; lia|].
      right. split; [reflexivity|]. intros j Hj. apply Hno. lia.
    + exists cp0. split; [lia|].
      destruct (Z.ltb_spec cp0 0) as [H|_]; [lia|].
      destruct (Z.ltb_spec (len text) cp0) as [H|_]; [lia|]. cbn [orb].
      split; [reflexivity|]. split; [exact Hno|].
      left. apply Hyes. lia.
Qed.

(** X6. [tryBoundary] is greedy: a chunk it returns is within the budget
    and is either the whole text or the parts of [Split] joined up to a
    part that would take it over the budget; what remains is the other
    parts joined. *)
Theorem tryBoundary_is_greedy c text sep chunk rem :
  sep <> [] -> tryBoundary c text sep = (chunk, rem) -> chunk <> [] ->
  withinBudget c chunk /\
  ((chunk = text /\ rem = []) \/
   exists done next rest,
     Split text sep = done ++ next :: rest /\
     chunk = Join done sep /\ rem = Join (next :: rest) sep /\
     maxTokens c < CountTokens (chunk ++ sep ++ next)).
Proof.
  intros Hsep Hrun Hne.
  pose proof (tryBoundary_spec c text sep Hsep) as Hcut.
  rewrite Hrun in Hcut. destruct Hcut as [Hcut|[Hw _]]; [cbn [fst] in Hcut; congruence|].
  cbn [fst] in Hw. split; [exact Hw|].
  unfold tryBoundary in Hrun.
  destruct (Z.of_nat (length (Split text sep)) <=? 1).
  { injection Hrun as <- _. congruence. }
  pose proof (tryBoundaryLoop_greedy c text sep (Split text sep) (Split text sep)
                [] [] eq_refl eq_refl) as H.
  cbv zeta in H. cbn [length] in H. change (Z.of_nat 0) with 0 in H.
  rewrite Hrun in H. destruct H as [H|[H|(d & next & rs & Hparts & Hd & H & Hbig)]].
  - injection H as -> _. congruence.
  - rewrite Join_Split in H by exact Hsep. injection H as -> ->. left. auto.
  - injection H as -> ->. right. exists d, next, rs. auto.
Qed.

(** X7. On a text over the budget [findOptimalChunk] returns what
    [tryBoundary] returns for one of the eight boundaries, or no chunk, and
    no boundary gives a longer chunk: the order of the boundaries decides
    between chunks of the same length only. *)
Theorem findOptimalChunk_keeps_the_longest c text :
  maxTokens c < CountTokens text ->
  let r := findOptimalChunk c text in
  (forall sep, In sep boundaries ->
     len (fst (tryBoundary c text sep)) <= len (fst r)) /\
  (r = ([], text) \/ exists sep, In sep boundaries /\ r = tryBoundary c text sep).
Proof.
  intros Hbig. unfold findOptimalChunk.
  destruct (Z.leb_spec (CountTokens text) (maxTokens c)) as [H|_]; [lia|].
  destruct (findOptimalChunkLoop_longest c text boundaries [] text) as (_ & H2 & H3).
  split; [exact H2|exact H3].
Qed.

(** X8. [ValidateBoundary] accepts a boundary only if it is not empty, the
    text has at least 30 bytes and contains the boundary, and [Split] cuts
    the text into at least 2 parts and fewer than a tenth of its bytes. *)
Theorem ValidateBoundary_accepts_only c text sep :
  ValidateBoundary c text sep = true ->
  sep <> [] /\ 30 <= len text /\ Contains text sep = true /\
  2 <= Z.of_nat (length (Split text sep)) < len text / 10.
Proof.
  unfold ValidateBoundary. intros H. apply andb_true_iff in H.
  destruct H as [H1 H2]. apply Z.ltb_lt in H1, H2.
  pose proof (len_nonneg text) as Hn.
  rewrite Z.quot_div_nonneg in H2 by lia.
  assert (H30 : 30 <= len text).
  { destruct (Z.le_gt_cases 30 (len text)) as [|Hs]; [assumption|].
    assert (len text / 10 < 3) by (apply Z.div_lt_upper_bound; lia). lia. }
  assert (Hsep : sep <> []).
  { intros ->. unfold Split in H2.
    pose proof (explode_length (length text) text (le_n _)) as He.
    pose proof (Z.mul_div_le (len text) 10 ltac:(lia)).
    unfold len in *. lia. }
  split; [exact Hsep|]. split; [exact H30|]. split; [|lia].
  apply Split_two_Contains; [exact Hsep|lia].
Qed.

End TokenizerProperties.

(** X1, at a text of 33 runes. *)
Lemma CountTokens_is_eleven_tenths_of_a_quarter_witness :
  tokenizer.CountTokens sevenWords
  = utf8.RuneCountInString sevenWords / 4 * 11 / 10.
Proof.
  apply (CountTokens_is_eleven_tenths_of_a_quarter sevenWords).
  vm_compute. reflexivity.
Defined.

(** X2, at a budget of 10 and a text of 8 estimated tokens. *)
Lemma ChunkText_one_chunk_iff_fits_witness :
  tokenizer.ChunkText (tokenizer.NewChunker 10) sevenWords = Returned [sevenWords].
Proof.
  refine (proj2 (ChunkText_one_chunk_iff_fits (tokenizer.NewChunker 10) sevenWords _) _).
  - cbn. lia.
  - vm_compute. discriminate.
Defined.

(** X3, at a budget of 2. *)
Lemma ChunkText_chunks_are_not_empty_witness :
  exists chunks,
    tokenizer.ChunkText (tokenizer.NewChunker 2) sevenWords = Returned chunks /\
    chunks <> [] /\ Forall (fun chunk => chunk <> []) chunks /\
    (length chunks <= length sevenWords)%nat.
Proof.
  apply (ChunkText_chunks_are_not_empty (tokenizer.NewChunker 2) sevenWords).
  - cbn. lia.
  - vm_compute. reflexivity.
Defined.

(** X4, at a budget of -1. *)
Lemma ChunkText_negative_budget_witness :
  tokenizer.ChunkText (tokenizer.NewChunker (-1)) sevenWords = Panicked.
Proof.
  apply (ChunkText_negative_budget (tokenizer.NewChunker (-1)) sevenWords).
  cbn. lia.
Defined.

(** X5, at a budget of 2, whose limit is 6, and a text with one space. *)
Lemma forceSplit_cuts_at_the_last_blank_witness :
  exists cut,
    1 <= cut <= 6 /\
    tokenizer.forceSplit (tokenizer.NewChunker 2) (B "ab cdefghij")
    = Returned (firstn (Z.to_nat cut) (B "ab cdefghij"),
                strings.TrimSpace (skipn (Z.to_nat cut) (B "ab cdefghij"))) /\
    (forall j, cut < j <= 6 -> blankAt (B "ab cdefghij") j = false) /\
    (blankAt (B "ab cdefghij") cut = true \/
     (cut = 6 /\ forall j, 1 <= j <= 6 -> blankAt (B "ab cdefghij") j = false)).
Proof.
  refine (proj2 (forceSplit_cuts_at_the_last_blank (tokenizer.NewChunker 2)
                   (B "ab cdefghij") _) _).
  - cbn. lia.
  - vm_compute. reflexivity.
Defined.

(** X6, at a budget of 2 and the word boundary. *)
Lemma tryBoundary_is_greedy_witness :
  withinBudget (tokenizer.NewChunker 2) (B "one two") /\
  ((B "one two" = sevenWords /\ B "three four five six seven" = []) \/
   exists done next rest,
     strings.Split sevenWords (B " ") = done ++ next :: rest /\
     B "one two" = strings.Join done (B " ") /\
     B "three four five six seven" = strings.Join (next :: rest) (B " ") /\
     tokenizer.maxTokens (tokenizer.NewChunker 2)
     < tokenizer.CountTokens (B "one two" ++ B " " ++ next)).
Proof.
  apply (tryBoundary_is_greedy (tokenizer.NewChunker 2) sevenWords (B " ")
           (B "one two") (B "three four five six seven")).
  - discriminate.
  - vm_compute. reflexivity.
  - discriminate.
Defined.

(** X7, at a budget of 2. *)
Lemma findOptimalChunk_keeps_the_longest_witness :
  (forall sep, In sep tokenizer.boundaries ->
     len (fst (tokenizer.tryBoundary (tokenizer.NewChunker 2) sevenWords sep))
     <= len (fst (tokenizer.findOptimalChunk (tokenizer.NewChunker 2) sevenWords))) /\
  (tokenizer.findOptimalChunk (tokenizer.NewChunker 2) sevenWords = ([], sevenWords) \/
   exists sep, In sep tokenizer.boundaries /\
     tokenizer.findOptimalChunk (tokenizer.NewChunker 2) sevenWords
     = tokenizer.tryBoundary (tokenizer.NewChunker 2) sevenWords sep).
Proof.
  apply (findOptimalChunk_keeps_the_longest (tokenizer.NewChunker 2) sevenWords).
  vm_compute. reflexivity.
Defined.

(** X8, at a text of two sentences. *)
Lemma ValidateBoundary_accepts_only_witness :
  B ". " <> [] /\
  30 <= len (B "The first sentence is here. The second one follows it.") /\
  strings.Contains (B "The first sentence is here. The second one follows it.")
    (B ". ") = true /\
  2 <= Z.of_nat (length (strings.Split
                           (B "The first sentence is here. The second one follows it.")
                           (B ". ")))
    < len (B "The first sentence is here. The second one follows it.") / 10.
Proof.
  apply (ValidateBoundary_accepts_only (tokenizer.NewChunker 2)
           (B "The first sentence is here. The second one follows it.") (B ". ")).
  vm_compute. reflexivity.
Defined.

(** ** Runs of the merge engine with any provider *)

Module runs_facts.
Import effects merger merger_facts strings strings_facts.

Section WithClient.

Variable Client : Type.
Variable provider :
  Client -> bytes -> llm.CompletionOptions ->
  (llm.CompletionResponse + error) * Client.

Local Abbreviation M := (effects.M Client).
Local Abbreviation Complete := (effects.Complete Client provider).

Lemma runs_ret {A} (a : A) (w : World Client) (post : A -> list Call -> Prop) :
  post a [] -> runs (ret a) w post.
Proof. intros H. exists a, w, []. rewrite app_nil_r. auto. Qed.

Lemma runs_bind {A C} (f : M A) (g : A -> M C) w
    (P : A -> list Call -> Prop) (Q : C -> list Call -> Prop) :
  runs f w P ->
  (forall a w1 ks1, P a ks1 -> runs (g a) w1 (fun b ks2 => Q b (ks1 ++ ks2))) ->
  runs (bind f g) w Q.
Proof.
  intros (a & w1 & ks1 & Hf & Hc & HP) Hg.
  destruct (Hg a w1 ks1 HP) as (b & w2 & ks2 & Hg' & Hc2 & HQ).
  exists b, w2, (ks1 ++ ks2). unfold bind. rewrite Hf.
  split; [exact Hg'|]. split; [|exact HQ]. rewrite Hc2, Hc, app_assoc. reflexivity.
Qed.

Lemma runs_log {C} lv msg fs (g : unit -> M C) w (Q : C -> list Call -> Prop) :
  (forall w1, runs (g tt) w1 Q) -> runs (bind (log Client lv msg fs) g) w Q.
Proof.
  intros H.
  destruct (H (addLog w {| logging.level := lv; logging.message := msg;
                           logging.fields := fs |}))
    as (b & w2 & ks & Hg & Hc & HQ).
  exists b, w2, ks. split; [exact Hg|]. split; [exact Hc|exact HQ].
Qed.

Lemma runs_Printf {C} line (g : unit -> M C) w (Q : C -> list Call -> Prop) :
  (forall w1, runs (g tt) w1 Q) -> runs (bind (Printf line) g) w Q.
Proof.
  intros H.
  destruct (H {| client := client w; calls := calls w; logCalls := logCalls w;
                 stdout := stdout w ++ [line] |})
    as (b & w2 & ks & Hg & Hc & HQ).
  exists b, w2, ks. split; [exact Hg|]. split; [exact Hc|exact HQ].
Qed.

Lemma runs_Complete {C} p o (g : llm.CompletionResponse + error -> M C) w
    (Q : C -> list Call -> Prop) :
  (forall r w1,
     runs (g r) w1
       (fun b ks => Q b ({| sent := p; sentOptions := o; reply := r |} :: ks))) ->
  runs (bind (Complete p o) g) w Q.
Proof.
  intros H. unfold runs, bind, effects.Complete.
  destruct (provider (client w) p o) as [r cl].
  match goal with |- context [g r ?w1] => destruct (H r w1) as (b & w2 & ks & Hg & Hc & HQ) end.
  exists b, w2, ({| sent := p; sentOptions := o; reply := r |} :: ks).
  split; [exact Hg|]. split; [|exact HQ].
  rewrite Hc. cbn [calls]. rewrite <- app_assoc. reflexivity.
Qed.

Lemma runs_weaken {A} (f : M A) w (P Q : A -> list Call -> Prop) :
  runs f w P -> (forall a ks, P a ks -> Q a ks) -> runs f w Q.
Proof.
  intros (a & w1 & ks & Hf & Hc & HP) H. exists a, w1, ks. auto.
Qed.

Lemma runs_and {A} (f : M A) w (P Q : A -> list Call -> Prop) :
  runs f w P -> runs f w Q -> runs f w (fun a ks => P a ks /\ Q a ks).
Proof.
  intros (a & w1 & ks & Hf & Hc & HP) (a' & w1' & ks' & Hf' & Hc' & HQ).
  rewrite Hf in Hf'. injection Hf' as <- <-.
  rewrite Hc in Hc'. apply app_inv_head in Hc'. subst ks'.
  exists a, w1, ks. auto.
Qed.

(** Two computations that agree up to logging return the same value after
    the same calls. *)
Lemma runs_sim {A} (f g : M A) w (P : A -> list Call -> Prop) :
  sim f g -> runs f w P -> runs g w P.
Proof.
  intros Hsim (a & w1 & ks & Hf & Hc & HP).
  destruct (Hsim w w eq_refl) as [H1 H2]. rewrite Hf in H1, H2. cbn [fst snd] in H1, H2.
  destruct (g w) as [o w2] eqn:Hg. cbn [fst snd] in H1, H2. subst o.
  exists a, w2, ks. split; [exact Hg|]. split; [|exact HP].
  unfold observable in H2. injection H2 as _ Hk _. rewrite <- Hk. exact Hc.
Qed.

(** *** The three calls *)

Lemma runs_processSingleChunk m chunk i w :
  runs (processSingleChunk Client provider m chunk i) w
    (fun r ks =>
       exists k, ks = [k] /\ sent k = createExtractionPrompt m chunk /\
                 sentOptions k = forceJSON /\
                 r = match reply k with
                     | inl resp =>
                       (Some {| ChunkIndex := i; Content := chunk;
                                JSONData := llm.Content resp;
                                Stats := Some resp; Error := None |}, None)
                     | inr e => (None, Some (ErrorWrap (B "extraction failed: ") e))
                     end).
Proof.
  unfold processSingleChunk. apply runs_log. intros w1.
  apply runs_Complete. intros r w2.
  destruct r as [resp|e]; apply runs_ret; eexists; repeat split.
Qed.

Lemma runs_mergeWithPrevious m previousJSON chunk i w :
  runs (mergeWithPrevious Client provider m previousJSON chunk i) w
    (fun r ks =>
       exists k, ks = [k] /\ sent k = createMergePrompt m previousJSON chunk /\
                 sentOptions k = forceJSON /\
                 r = match reply k with
                     | inl resp =>
                       (Some {| ChunkIndex := i; Content := chunk;
                                JSONData := llm.Content resp;
                                Stats := Some resp; Error := None |}, None)
                     | inr e => (None, Some (ErrorWrap (B "merge failed: ") e))
                     end).
Proof.
  unfold mergeWithPrevious. apply runs_log. intros w1.
  apply runs_Complete. intros r w2.
  destruct r as [resp|e]; apply runs_ret; eexists; repeat split.
Qed.

Lemma runs_mergeAllResults m results w :
  length results <> 1%nat ->
  runs (mergeAllResults Client provider m results) w
    (fun r ks =>
       exists k, ks = [k] /\
                 sent k = createConsolidationPrompt m (map JSONData results) /\
                 sentOptions k = forceJSON /\
                 r = match reply k with
                     | inl resp =>
                       (Some {| ChunkIndex := -1; Content := B "consolidated";
                                JSONData := llm.Content resp;
                                Stats := Some resp; Error := None |}, None)
                     | inr e => (None, Some (ErrorWrap (B "consolidation failed: ") e))
                     end).
Proof.
  intros Hlen. unfold mergeAllResults.
  destruct results as [|r1 [|r2 rs]]; [|cbn [length] in Hlen; congruence|];
    (apply runs_log; intros w1; apply runs_Complete; intros r w2;
     destruct r as [resp|e]; apply runs_ret; eexists; repeat split).
Qed.

End WithClient.
End runs_facts.

Module contains_facts.
Import strings strings_facts.

Lemma Contains_inv s sub :
  Contains s sub = true -> exists a b, s = a ++ sub ++ b.
Proof.
  unfold Contains. intros H. apply Z.leb_le in H.
  eexists _, _. apply Index_found. exact H.
Qed.

Lemma Contains_app_r pre s sub :
  Contains s sub = true -> Contains (pre ++ s) sub = true.
Proof.
  intros H. destruct (Contains_inv s sub H) as (a & b & ->).
  rewrite app_assoc. apply Contains_app.
Qed.

Lemma Contains_app_l s post sub :
  Contains s sub = true -> Contains (s ++ post) sub = true.
Proof.
  intros H. destruct (Contains_inv s sub H) as (a & b & ->).
  rewrite <- !app_assoc. apply Contains_app.
Qed.

Lemma Contains_head sub post : Contains (sub ++ post) sub = true.
Proof. apply (Contains_app [] sub post). Qed.

Lemma Contains_refl s : Contains s s = true.
Proof. rewrite <- (app_nil_r s) at 1. apply Contains_head. Qed.

End contains_facts.

(** In a right-nested concatenation, find the operand that is the string
    looked for. *)
Ltac contains_operand :=
  repeat first [ apply contains_facts.Contains_head
               | apply contains_facts.Contains_refl
               | apply contains_facts.Contains_app_r ].

Module discipline_facts.
Import effects merger merger_facts strings strings_facts contains_facts runs_facts.

Lemma createExtractionPrompt_schema m chunk :
  Contains (createExtractionPrompt m chunk) (specs.Schema (spec m)) = true.
Proof. unfold createExtractionPrompt. contains_operand. Qed.

Lemma createMergePrompt_schema m previousJSON chunk :
  Contains (createMergePrompt m previousJSON chunk) (specs.Schema (spec m)) = true.
Proof. unfold createMergePrompt, mergePromptText. contains_operand. Qed.

Lemma createConsolidationPrompt_schema m jsonResults :
  Contains (createConsolidationPrompt m jsonResults) (specs.Schema (spec m)) = true.
Proof. unfold createConsolidationPrompt, consolidationPromptText. contains_operand. Qed.

Lemma stopped_cons {A} (r : result A) k ks :
  succeeded k = true -> stoppedAtFailure r ks -> stoppedAtFailure r (k :: ks).
Proof.
  intros Hk. destruct r as [[a|] [e|]]; cbn [stoppedAtFailure]; try tauto.
  - intros H. constructor; assumption.
  - intros (pre & k' & pe & prefix & -> & Hpre & Hr & He).
    exists (k :: pre), k', pe, prefix. repeat split; try assumption.
    constructor; assumption.
Qed.

Lemma stopped_app {A} (r : result A) ks1 ks2 :
  Forall (fun k => succeeded k = true) ks1 -> stoppedAtFailure r ks2 ->
  stoppedAtFailure r (ks1 ++ ks2).
Proof.
  induction 1 as [|k ks1 Hk _ IH]; intros H; [exact H|].
  cbn [app]. apply stopped_cons; [exact Hk|apply IH; exact H].
Qed.

Lemma stopped_wrap {A C} p e ks :
  stoppedAtFailure (A:=A) (None, Some e) ks ->
  stoppedAtFailure (A:=C) (None, Some (ErrorWrap p e)) ks.
Proof.
  intros (pre & k & pe & prefix & -> & Hpre & Hr & He).
  exists pre, k, pe, (p ++ prefix). repeat split; try assumption.
  cbn [ErrorText]. rewrite He, app_assoc. reflexivity.
Qed.

Lemma stopped_retype {A C} e ks :
  stoppedAtFailure (A:=A) (None, Some e) ks ->
  stoppedAtFailure (A:=C) (None, Some e) ks.
Proof. intros H. exact H. Qed.

(** What one call leaves: a value when it succeeded, the wrapped error of
    the provider when not. *)
Lemma stopped_call {A} (k : Call) (a : llm.CompletionResponse -> A) p (r : result A) :
  r = match reply k with
      | inl resp => (Some (a resp), None)
      | inr e => (None, Some (ErrorWrap p e))
      end ->
  stoppedAtFailure r [k] /\ (succeeded k = true <-> exists x, r = (Some x, None)).
Proof.
  intros ->. unfold succeeded. destruct (reply k) as [resp|e] eqn:Hr.
  - split.
    + cbn. constructor; [|constructor]. unfold succeeded. rewrite Hr. reflexivity.
    + split; [eauto|reflexivity].
  - split.
    + exists [], k, e, p. repeat split; [constructor|exact Hr].
    + split; [discriminate|]. intros (x & Hx). discriminate.
Qed.

Section WithClient.

Variable Client : Type.
Variable provider :
  Client -> bytes -> llm.CompletionOptions ->
  (llm.CompletionResponse + error) * Client.

Lemma carries_forceJSON m k prompt :
  sent k = prompt -> sentOptions k = forceJSON ->
  Contains prompt (specs.Schema (spec m)) = true -> carriesSchema m k.
Proof. intros <- Ho H. split; [exact H|]. rewrite Ho. reflexivity. Qed.

Lemma processSingleChunk_disciplined m chunk i w :
  runs (processSingleChunk Client provider m chunk i) w
    (fun r ks => disciplined m 1 r ks /\ ks <> []).
Proof.
  eapply runs_weaken; [apply runs_processSingleChunk|].
  intros r ks (k & -> & Hs & Ho & Hr). split; [|discriminate].
  split; [|split; [|cbn; lia]].
  - eapply stopped_call with (a := fun resp => _). exact Hr.
  - constructor; [|constructor].
    eapply carries_forceJSON; eauto using createExtractionPrompt_schema.
Qed.

Lemma mergeWithPrevious_disciplined m previousJSON chunk i w :
  runs (mergeWithPrevious Client provider m previousJSON chunk i) w
    (fun r ks => disciplined m 1 r ks /\ ks <> []).
Proof.
  eapply runs_weaken; [apply runs_mergeWithPrevious|].
  intros r ks (k & -> & Hs & Ho & Hr). split; [|discriminate].
  split; [|split; [|cbn; lia]].
  - eapply stopped_call with (a := fun resp => _). exact Hr.
  - constructor; [|constructor].
    eapply carries_forceJSON; eauto using createMergePrompt_schema.
Qed.

Lemma mergeAllResults_disciplined m results w :
  runs (mergeAllResults Client provider m results) w (disciplined m 1).
Proof.
  destruct (Nat.eq_dec (length results) 1) as [H1|H1].
  - destruct results as [|only [|r2 rs]]; try discriminate.
    cbn [mergeAllResults]. apply runs_ret.
    split; [constructor|]. split; [constructor|cbn; lia].
  - eapply runs_weaken; [apply runs_mergeAllResults; exact H1|].
    intros r ks (k & -> & Hs & Ho & Hr).
    split; [|split; [|cbn; lia]].
    + eapply stopped_call with (a := fun resp => _). exact Hr.
    + constructor; [|constructor].
      eapply carries_forceJSON; eauto using createConsolidationPrompt_schema.
Qed.

Lemma disciplined_cons m n {A C} (r1 : result A) (r : result C) ks1 ks :
  disciplined m 1 r1 ks1 -> (exists x, r1 = (Some x, None)) ->
  disciplined m n r ks -> disciplined m (S n) r (ks1 ++ ks).
Proof.
  intros (H1 & H2 & H3) (x & ->) (H4 & H5 & H6). cbn [stoppedAtFailure] in H1.
  split; [apply stopped_app; assumption|].
  split; [apply Forall_app; split; assumption|].
  rewrite length_app. lia.
Qed.

Lemma disciplined_fail m n {A C} p e ks :
  disciplined m 1 (A:=A) (None, Some e) ks ->
  disciplined m (S n) (A:=C) (None, Some (ErrorWrap p e)) (ks ++ []).
Proof.
  intros (H1 & H2 & H3). rewrite app_nil_r.
  split; [apply (stopped_wrap (A:=A)); exact H1|]. split; [exact H2|lia].
Qed.

Lemma disciplined_cases m n {A} (r : result A) ks :
  disciplined m n r ks ->
  (exists x, r = (Some x, None)) \/ (exists e, r = (None, Some e)).
Proof.
  intros (H & _). destruct r as [[a|] [e|]]; cbn in H; try contradiction; eauto.
Qed.

Lemma incrementalLoop_disciplined m total rest :
  forall i res w,
    runs (incrementalLoop Client provider m total rest i res) w
      (disciplined m (length rest)).
Proof.
  induction rest as [|chunk rest IH]; intros i res w; cbn [incrementalLoop].
  - apply runs_ret. split; [constructor|]. split; [constructor|cbn; lia].
  - apply runs_log. intros w1.
    eapply runs_bind; [apply mergeWithPrevious_disciplined|].
    intros r w2 ks1 [Hd _]. cbv beta.
    destruct (disciplined_cases _ _ _ _ Hd) as [(x & ->)|(e & ->)].
    + apply runs_log. intros w3.
      eapply runs_weaken; [apply IH|]. intros r ks H. cbn [length].
      eapply disciplined_cons; eauto.
    + apply runs_ret. cbn [length]. eapply disciplined_fail; exact Hd.
Qed.

Lemma disciplined_le m n n' {A} (r : result A) ks :
  (n <= n')%nat -> disciplined m n r ks -> disciplined m n' r ks.
Proof. intros Hn (H1 & H2 & H3). repeat split; try assumption. lia. Qed.

Lemma processIncremental_disciplined m chunks w :
  chunks <> [] ->
  runs (processIncremental Client provider m chunks) w
    (fun r ks => disciplined m (length chunks) r ks /\ ks <> []).
Proof.
  intros Hne. destruct chunks as [|chunk0 rest]; [congruence|].
  unfold processIncremental. apply runs_log. intros w1. apply runs_log. intros w2.
  eapply runs_bind; [apply processSingleChunk_disciplined|].
  intros r w3 ks1 [Hd Hk]. cbv beta.
  destruct (disciplined_cases _ _ _ _ Hd) as [(x & ->)|(e & ->)].
  - apply runs_log. intros w4.
    eapply runs_bind; [apply incrementalLoop_disciplined|].
    intros r w5 ks2 Hd2. cbv beta.
    assert (Hall : disciplined m (length (chunk0 :: rest)) r (ks1 ++ ks2)).
    { cbn [length]. eapply disciplined_cons; eauto. }
    assert (Hnn : ks1 ++ ks2 <> []) by (destruct ks1; [congruence|discriminate]).
    destruct (disciplined_cases _ _ _ _ Hd2) as [(y & ->)|(e & ->)].
    + apply runs_log. intros w6. apply runs_ret. rewrite app_nil_r. auto.
    + apply runs_ret. rewrite app_nil_r. auto.
  - apply runs_ret. split; [|rewrite app_nil_r; exact Hk].
    cbn [length]. eapply disciplined_fail; exact Hd.
Qed.

Lemma twoPassLoop_disciplined m total rest :
  forall i acc w,
    runs (twoPassLoop Client provider m total rest i acc) w
      (fun r ks =>
         disciplined m (length rest) r ks /\ (rest <> [] -> ks <> []) /\
         forall rs, r = (Some rs, None) ->
                    length rs = (length acc + length rest)%nat).
Proof.
  induction rest as [|chunk rest IH]; intros i acc w; cbn [twoPassLoop].
  - apply runs_ret. split; [|split; [congruence|]].
    + split; [constructor|]. split; [constructor|cbn; lia].
    + intros rs E. injection E as <-. cbn [length]. lia.
  - apply runs_log. intros w1.
    eapply runs_bind; [apply processSingleChunk_disciplined|].
    intros r w2 ks1 [Hd Hk]. cbv beta.
    destruct (disciplined_cases _ _ _ _ Hd) as [(x & ->)|(e & ->)].
    + apply runs_log. intros w3.
      eapply runs_weaken; [apply IH|]. intros r ks (H & _ & Hlen). cbn [length].
      split; [eapply disciplined_cons; eauto|].
      split; [intros _; destruct ks1; [congruence|discriminate]|].
      intros rs E. rewrite (Hlen rs E), length_app. cbn [length]. lia.
    + apply runs_ret. cbn [length].
      split; [eapply disciplined_fail; exact Hd|].
      split; [intros _; rewrite app_nil_r; exact Hk|]. intros rs E. discriminate.
Qed.

Lemma processTwoPass_disciplined m chunks w :
  chunks <> [] ->
  runs (processTwoPass Client provider m chunks) w
    (fun r ks => disciplined m (S (length chunks)) r ks /\ ks <> []).
Proof.
  intros Hne. unfold processTwoPass.
  apply runs_log. intros w1. apply runs_log. intros w2.
  eapply runs_bind; [apply twoPassLoop_disciplined|].
  intros r w3 ks1 (Hd & Hk & _). cbv beta. specialize (Hk Hne).
  destruct (disciplined_cases _ _ _ _ Hd) as [(rs & ->)|(e & ->)].
  - apply runs_log. intros w4.
    eapply runs_bind; [apply mergeAllResults_disciplined|].
    intros r w5 ks2 Hd2. cbv beta.
    assert (Hall : disciplined m (S (length chunks)) r (ks1 ++ ks2)).
    { destruct Hd as (H1 & H2 & H3), Hd2 as (H4 & H5 & H6). cbn [stoppedAtFailure] in H1.
      split; [apply stopped_app; assumption|].
      split; [apply Forall_app; split; assumption|]. rewrite length_app. lia. }
    assert (Hnn : ks1 ++ ks2 <> []) by (destruct ks1; [congruence|discriminate]).
    destruct (disciplined_cases _ _ _ _ Hd2) as [(y & ->)|(e & ->)].
    + apply runs_log. intros w6. apply runs_ret. rewrite app_nil_r. auto.
    + apply runs_ret. rewrite app_nil_r. auto.
  - apply runs_ret. rewrite app_nil_r. split; [|exact Hk].
    apply (disciplined_le m (length chunks)); [lia|exact Hd].
Qed.

Lemma processTemplateDriven_disciplined m chunks w :
  chunks <> [] ->
  runs (processTemplateDriven Client provider m chunks) w
    (fun r ks => disciplined m (S (length chunks)) r ks /\ ks <> []).
Proof.
  intros Hne.
  apply (runs_sim Client (processTwoPass Client provider m chunks)).
  - apply sim_strategies; reflexivity.
  - apply processTwoPass_disciplined. exact Hne.
Qed.

Lemma ProcessChunks_disciplined m chunks w :
  runs (ProcessChunks Client provider m chunks) w
    (fun r ks =>
       Forall (carriesSchema m) ks /\
       (chunks <> [] ->
        length chunks = 1%nat \/ knownStrategy (Strategy (options m)) ->
        stoppedAtFailure r ks /\ (1 <= length ks <= S (length chunks))%nat)).
Proof.
  assert (Hfin : forall r ks,
             disciplined m (S (length chunks)) r ks /\ ks <> [] ->
             Forall (carriesSchema m) ks /\
             (chunks <> [] ->
              length chunks = 1%nat \/ knownStrategy (Strategy (options m)) ->
              stoppedAtFailure (A:=ChunkResult) r ks /\
              (1 <= length ks <= S (length chunks))%nat)).
  { intros r ks [(H1 & H2 & H3) H4]. split; [exact H2|]. intros _ _.
    split; [exact H1|]. destruct ks; [congruence|cbn [length] in *; lia]. }
  destruct chunks as [|c0 [|c1 rest]].
  - cbn [ProcessChunks]. apply runs_ret. split; [constructor|]. congruence.
  - cbn [ProcessChunks]. eapply runs_weaken; [apply processSingleChunk_disciplined|].
    intros r ks [Hd Hk]. apply Hfin. split; [|exact Hk].
    apply (disciplined_le m 1); [cbn; lia|exact Hd].
  - cbn [ProcessChunks].
    destruct (bytes_eqb (Strategy (options m)) StrategyIncremental) eqn:E1.
    { eapply runs_weaken; [apply processIncremental_disciplined; discriminate|].
      intros r ks [Hd Hk]. apply Hfin. split; [|exact Hk].
      apply (disciplined_le m (length (c0 :: c1 :: rest))); [lia|exact Hd]. }
    destruct (bytes_eqb (Strategy (options m)) StrategyTwoPass) eqn:E2.
    { eapply runs_weaken; [apply processTwoPass_disciplined; discriminate|].
      intros r ks H. apply Hfin. exact H. }
    destruct (bytes_eqb (Strategy (options m)) StrategyTemplateDriven) eqn:E3.
    { eapply runs_weaken; [apply processTemplateDriven_disciplined; discriminate|].
      intros r ks H. apply Hfin. exact H. }
    apply runs_ret. split; [constructor|]. intros _ [Hlen|Hknown].
    + cbn [length] in Hlen. lia.
    + apply bytes_eqb_neq in E1, E2, E3.
      destruct Hknown as [H|[H|H]]; congruence.
Qed.

End WithClient.
End discipline_facts.

(** ** The calls of each strategy *)

Module trace_facts.
Import effects merger merger_facts strings strings_facts contains_facts runs_facts.
Import discipline_facts validate_facts.

Section WithClient.

Variable Client : Type.
Variable provider :
  Client -> bytes -> llm.CompletionOptions ->
  (llm.CompletionResponse + error) * Client.

Lemma lastPayload_one k resp :
  reply k = inl resp -> lastPayload [k] = Some (llm.Content resp).
Proof. intros H. change [k] with ([] ++ [k]). rewrite lastPayload_snoc, H. reflexivity. Qed.

Lemma incrementalLoop_chained m total rest :
  forall i res w,
    runs (incrementalLoop Client provider m total rest i res) w
      (fun r ks =>
         match rest with
         | [] => ks = []
         | chunk :: rest' =>
           ks <> [] /\ chained m (createMergePrompt m (JSONData res) chunk) rest' ks
         end /\
         forall res', r = (Some res', None) ->
           length ks = length rest /\
           match rest with
           | [] => res' = res
           | _ :: _ =>
             lastPayload ks = Some (JSONData res') /\
             merger.Content res' = last rest [] /\
             ChunkIndex res' = i + Z.of_nat (length rest) - 1
           end).
Proof.
  induction rest as [|chunk rest IH]; intros i res w; cbn [incrementalLoop].
  - apply runs_ret. split; [reflexivity|]. intros res' E. injection E as <-. auto.
  - apply runs_log. intros w1.
    eapply runs_bind; [apply runs_mergeWithPrevious|].
    intros r w2 ks1 (k & Hk1 & Hs & Ho & Hrr); subst ks1 r; cbv beta.
    destruct (reply k) as [resp|e] eqn:Hr.
    + apply runs_log. intros w3.
      eapply runs_weaken; [apply IH|]. intros r ks [Hchain Hres]. cbn [app].
      split; [split; [discriminate|]|].
      * cbn [chained]. split; [exact Hs|]. rewrite Hr.
        destruct rest as [|chunk' rest']; [exact Hchain|]. apply Hchain.
      * intros res' E. destruct (Hres res' E) as [Hlen Hlast].
        split; [cbn [length]; lia|].
        destruct rest as [|chunk' rest'].
        -- subst ks res'. cbn [JSONData merger.Content ChunkIndex last length].
           split; [apply lastPayload_one; exact Hr|]. split; [reflexivity|lia].
        -- destruct Hlast as (H1 & H2 & H3). destruct Hchain as [Hne _].
           split; [rewrite lastPayload_cons by exact Hne; exact H1|].
           split; [exact H2|]. rewrite H3. cbn [length]. lia.
    + apply runs_ret. cbn [app]. split; [split; [discriminate|]|].
      * cbn [chained]. split; [exact Hs|]. rewrite Hr. reflexivity.
      * intros res' E. discriminate.
Qed.

Lemma processIncremental_chained m chunks w :
  chunks <> [] ->
  runs (processIncremental Client provider m chunks) w
    (fun r ks =>
       incrementalChain m chunks ks /\
       forall res, r = (Some res, None) ->
         length ks = length chunks /\
         lastPayload ks = Some (JSONData res) /\
         merger.Content res = last chunks [] /\
         ChunkIndex res = Z.of_nat (length chunks) - 1).
Proof.
  intros Hne. destruct chunks as [|chunk0 rest]; [congruence|].
  unfold processIncremental. apply runs_log. intros w1. apply runs_log. intros w2.
  eapply runs_bind; [apply runs_processSingleChunk|].
  intros r w3 ks1 (k & Hk1 & Hs & Ho & Hrr); subst ks1 r; cbv beta.
  destruct (reply k) as [resp|e] eqn:Hr.
  - apply runs_log. intros w4.
    eapply runs_bind; [apply incrementalLoop_chained|].
    intros r w5 ks2 [Hchain Hres]. cbv beta.
    assert (Hpost : incrementalChain m (chunk0 :: rest) ([k] ++ ks2 ++ []) /\
                    forall res, r = (Some res, None) ->
                      length ([k] ++ ks2 ++ []) = length (chunk0 :: rest) /\
                      lastPayload ([k] ++ ks2 ++ []) = Some (JSONData res) /\
                      merger.Content res = last (chunk0 :: rest) [] /\
                      ChunkIndex res = Z.of_nat (length (chunk0 :: rest)) - 1).
    { rewrite app_nil_r. cbn [app]. split.
      - split; [discriminate|]. cbn [chained]. split; [exact Hs|]. rewrite Hr.
        destruct rest as [|chunk' rest']; [exact Hchain|]. apply Hchain.
      - intros res E. destruct (Hres res E) as [Hlen Hlast].
        split; [cbn [length]; lia|].
        destruct rest as [|chunk' rest'].
        + subst ks2 res. cbn [JSONData merger.Content ChunkIndex last].
          split; [apply lastPayload_one; exact Hr|]. split; reflexivity.
        + destruct Hlast as (H1 & H2 & H3). destruct Hchain as [Hnn _].
          split; [rewrite lastPayload_cons by exact Hnn; exact H1|].
          split; [exact H2|]. rewrite H3. cbn [length]. lia. }
    destruct r as [[res|] [e|]]; try (apply runs_ret; exact Hpost).
    apply runs_log. intros w6. apply runs_ret. exact Hpost.
  - apply runs_ret. cbn [app]. split.
    + split; [discriminate|]. cbn [chained]. split; [exact Hs|]. rewrite Hr.
      reflexivity.
    + intros res E. discriminate.
Qed.

Lemma twoPassLoop_payloads m total rest :
  forall i acc w,
    runs (twoPassLoop Client provider m total rest i acc) w
      (fun r ks =>
         forall rs, r = (Some rs, None) ->
           Forall2 (isExtractionCall m) rest ks /\
           map JSONData rs = map JSONData acc ++ payloads ks).
Proof.
  induction rest as [|chunk rest IH]; intros i acc w; cbn [twoPassLoop].
  - apply runs_ret. intros rs E. injection E as <-.
    split; [constructor|]. cbn. rewrite app_nil_r. reflexivity.
  - apply runs_log. intros w1.
    eapply runs_bind; [apply runs_processSingleChunk|].
    intros r w2 ks1 (k & Hk1 & Hs & Ho & Hrr); subst ks1 r; cbv beta.
    destruct (reply k) as [resp|e] eqn:Hr.
    + apply runs_log. intros w3.
      eapply runs_weaken; [apply IH|]. intros r ks H rs E.
      destruct (H rs E) as [H1 H2]. cbn [app]. split; [constructor; assumption|].
      rewrite H2, map_app, <- app_assoc. cbn [map JSONData app].
      unfold payloads. cbn [flat_map]. rewrite Hr. reflexivity.
    + apply runs_ret. intros rs E. discriminate.
Qed.

Lemma processTwoPass_payloads m chunks w :
  (2 <= length chunks)%nat ->
  runs (processTwoPass Client provider m chunks) w
    (fun r ks =>
       forall res, r = (Some res, None) ->
         exists extractions k,
           ks = extractions ++ [k] /\
           Forall2 (isExtractionCall m) chunks extractions /\
           sent k = createConsolidationPrompt m (payloads extractions) /\
           length (payloads extractions) = length chunks /\
           lastPayload ks = Some (JSONData res) /\
           ChunkIndex res = -1 /\ merger.Content res = B "consolidated").
Proof.
  intros Hlen. unfold processTwoPass.
  apply runs_log. intros w1. apply runs_log. intros w2.
  eapply runs_bind;
    [apply runs_and; [apply twoPassLoop_disciplined|apply twoPassLoop_payloads]|].
  intros r w3 ks1 [(Hd & _ & Hl) Hp]. cbv beta.
  destruct (disciplined_cases _ _ _ _ Hd) as [(rs & ->)|(e & ->)].
  2:{ apply runs_ret. intros res E. discriminate. }
  destruct (Hp rs eq_refl) as [Hext Hmap]. cbn [map app] in Hmap.
  specialize (Hl rs eq_refl). cbn [length] in Hl.
  apply runs_log. intros w4.
  eapply runs_bind; [apply runs_mergeAllResults; lia|].
  intros r w5 ks2 (k & Hk1 & Hs & Ho & Hrr); subst ks2 r; cbv beta.
  destruct (reply k) as [resp|e] eqn:Hr.
  2:{ apply runs_ret. intros res E. discriminate. }
  apply runs_log. intros w6. apply runs_ret. rewrite app_nil_r.
  intros res E. injection E as <-.
  exists ks1, k. split; [reflexivity|]. split; [exact Hext|].
  split; [rewrite Hs, Hmap; reflexivity|].
  split; [rewrite <- Hmap, length_map; lia|].
  split; [rewrite lastPayload_snoc, Hr; reflexivity|]. split; reflexivity.
Qed.

End WithClient.

Lemma resultsStr_labels jsonResults :
  forall i j r,
    nth_error jsonResults j = Some r ->
    Contains (resultsStr jsonResults i) (resultLabel (i + Z.of_nat j + 1) r) = true.
Proof.
  induction jsonResults as [|r0 rest IH]; intros i j r Hj.
  - destruct j; discriminate.
  - cbn [resultsStr]. destruct j as [|j].
    + injection Hj as <-. replace (i + Z.of_nat 0 + 1) with (i + 1) by lia.
      apply Contains_head.
    + apply Contains_app_r.
      replace (i + Z.of_nat (S j) + 1) with (i + 1 + Z.of_nat j + 1) by lia.
      apply IH. exact Hj.
Qed.

End trace_facts.

(** ** The validate and repair loop with any provider *)

Module retry_facts.
Import effects validate merger_facts validate_facts strings strings_facts.
Import contains_facts runs_facts discipline_facts trace_facts.

Lemma Join_Contains l sep x : In x l -> Contains (Join l sep) x = true.
Proof.
  induction l as [|a l IH]; intros Hin; [contradiction|].
  destruct l as [|b l].
  - destruct Hin as [<-|[]]. apply Contains_refl.
  - rewrite (Join_cons a (b :: l)) by discriminate.
    destruct Hin as [<-|Hin]; [apply Contains_head|].
    apply Contains_app_r, Contains_app_r, IH. exact Hin.
Qed.

Section WithSchema.

Variable JSONValue : Type.
Variable EvaluationResult : Type.
Variable Unmarshal : bytes -> JSONValue + bytes.
Variable schemaValidate : JSONValue -> option EvaluationResult.
Variable Client : Type.
Variable provider :
  Client -> bytes -> llm.CompletionOptions ->
  (llm.CompletionResponse + error) * Client.

Local Abbreviation Validate :=
  (validate.Validate JSONValue EvaluationResult Unmarshal schemaValidate).
Local Abbreviation retryLoop :=
  (validate.retryLoop JSONValue EvaluationResult Unmarshal schemaValidate Client provider).
Local Abbreviation ValidateAndRetry :=
  (validate.ValidateAndRetry JSONValue EvaluationResult Unmarshal schemaValidate
     Client provider).
Local Abbreviation chainOf :=
  (repairChain JSONValue EvaluationResult Unmarshal schemaValidate).
Local Abbreviation outcomeOf :=
  (retryOutcome JSONValue EvaluationResult Unmarshal schemaValidate).

(** The retry loop, entered after a payload that is not valid, with fuel
    for the attempts that are left. *)
Lemma retryLoop_spec input k turns :
  forall attempt data w,
    k - attempt + 1 <= Z.of_nat turns ->
    Valid (Validate data) = false ->
    runs (retryLoop input k turns attempt data (Validate data)) w
      (fun r ks =>
         Z.of_nat (length ks) <= Z.max (k - attempt + 1) 0 /\
         chainOf input (createRepairPrompt input data (Validate data)) ks /\
         let '(d, res, err) := r in
         match err with
         | None =>
           ks <> [] /\ lastPayload ks = Some d /\ res = Some (Validate d) /\
           Valid (Validate d) = true
         | Some e =>
           (exists pre k1 pe prefix,
              ks = pre ++ [k1] /\ Forall (fun k => succeeded k = true) pre /\
              reply k1 = inr pe /\ ErrorText e = prefix ++ ErrorText pe /\ d = []) \/
           (e = exhausted k /\ Forall (fun k => succeeded k = true) ks /\
            Z.of_nat (length ks) = Z.max (k - attempt + 1) 0 /\
            (ks = [] -> d = data) /\ (ks <> [] -> lastPayload ks = Some d) /\
            res = Some (Validate d) /\ Valid (Validate d) = false)
         end).
Proof.
  induction turns as [|turns IH]; intros attempt data w Hfuel Hbad;
    cbn [validate.retryLoop];
    destruct (Z.leb_spec attempt k) as [Hle|Hgt]; try (cbn [Z.of_nat] in Hfuel; lia).
  - apply runs_ret. split; [cbn [length]; lia|]. split; [exact I|].
    right. split; [reflexivity|]. split; [constructor|].
    split; [cbn [length]; lia|]. split; [reflexivity|]. split; [congruence|].
    split; [reflexivity|exact Hbad].
  - apply runs_Printf. intros w1. apply runs_Complete. intros r w2.
    destruct r as [resp|err].
    + destruct (Valid (Validate (llm.Content resp))) eqn:Hv.
      * apply runs_ret. split; [cbn [length]; lia|].
        split; [cbn; rewrite Hv; auto|].
        split; [discriminate|]. split; [apply lastPayload_one; reflexivity|].
        split; [reflexivity|exact Hv].
      * eapply runs_weaken; [apply (IH (attempt + 1)); [lia|exact Hv]|].
        intros [[d res] [e|]] ks (Hlen & Hchain & Hout).
        -- split; [cbn [length]; lia|].
           split; [cbn; rewrite Hv; auto|].
           destruct Hout as [(pre & k1 & pe & prefix & -> & Hpre & Hr & He & Hd)|
                             (-> & Hall & Hn & Hnil & Hlast & Hres & Hbad')].
           ++ left. eexists (_ :: pre), k1, pe, prefix.
              split; [reflexivity|]. split; [constructor; [reflexivity|exact Hpre]|].
              auto.
           ++ right. split; [reflexivity|].
              split; [constructor; [reflexivity|exact Hall]|].
              split; [cbn [length]; lia|]. split; [discriminate|].
              split; [|split; assumption]. intros _.
              destruct ks as [|k1 ks].
              ** rewrite (Hnil eq_refl). apply lastPayload_one. reflexivity.
              ** rewrite lastPayload_cons by discriminate. apply Hlast. discriminate.
        -- split; [cbn [length]; lia|].
           split; [cbn; rewrite Hv; auto|].
           destruct Hout as (Hne & Hlast & Hres & Hok).
           split; [discriminate|].
           split; [rewrite lastPayload_cons by exact Hne; exact Hlast|]. auto.
    + apply runs_ret. split; [cbn [length]; lia|]. split; [cbn; auto|].
      left. eexists [], _, err, _. split; [reflexivity|]. split; [constructor|].
      split; [reflexivity|]. split; [reflexivity|reflexivity].
  - apply runs_ret. split; [cbn [length]; lia|]. split; [exact I|].
    right. split; [reflexivity|]. split; [constructor|].
    split; [cbn [length]; lia|]. split; [reflexivity|]. split; [congruence|].
    split; [reflexivity|exact Hbad].
Qed.

Lemma ValidateAndRetry_spec input k w :
  runs (ValidateAndRetry input k) w
    (fun r ks =>
       (1 <= Z.of_nat (length ks) <= Z.max k 0 + 1) /\
       chainOf input input ks /\ outcomeOf k r ks).
Proof.
  unfold validate.ValidateAndRetry. apply runs_Complete. intros r w1.
  destruct r as [resp|err].
  - destruct (Valid (Validate (llm.Content resp))) eqn:Hv.
    + apply runs_ret. split; [cbn [length]; lia|].
      split; [cbn; rewrite Hv; auto|].
      cbn [retryOutcome]. split; [apply lastPayload_one; reflexivity|].
      split; [reflexivity|exact Hv].
    + eapply runs_weaken; [apply retryLoop_spec; [lia|exact Hv]|].
      intros [[d res] [e|]] ks (Hlen & Hchain & Hout).
      * split; [cbn [length]; lia|]. split; [cbn; rewrite Hv; auto|].
        cbn [retryOutcome].
        destruct Hout as [(pre & k1 & pe & prefix & -> & Hpre & Hr & He & Hd)|
                          (-> & Hall & Hn & Hnil & Hlast & Hres & Hbad')].
        -- left. eexists (_ :: pre), k1, pe, prefix.
           split; [reflexivity|]. split; [constructor; [reflexivity|exact Hpre]|].
           auto.
        -- right. split; [reflexivity|].
           split; [constructor; [reflexivity|exact Hall]|].
           split; [cbn [length]; lia|].
           split; [|split; assumption].
           destruct ks as [|k1 ks].
           ++ rewrite (Hnil eq_refl). apply lastPayload_one. reflexivity.
           ++ rewrite lastPayload_cons by discriminate. apply Hlast. discriminate.
      * split; [cbn [length]; lia|]. split; [cbn; rewrite Hv; auto|].
        cbn [retryOutcome]. destruct Hout as (Hne & Hlast & Hres & Hok).
        split; [rewrite lastPayload_cons by exact Hne; exact Hlast|]. auto.
  - apply runs_ret. split; [cbn [length]; lia|]. split; [cbn; auto|].
    cbn [retryOutcome]. left. eexists [], _, err, _.
    split; [reflexivity|]. split; [constructor|].
    split; [reflexivity|]. split; [reflexivity|reflexivity].
Qed.

End WithSchema.
End retry_facts.

(** ** The chunked extraction *)

Module extraction_facts.
Import effects merger merger_facts tokenizer extraction.
Import runs_facts discipline_facts tokenizer_more.

Section WithClient.

Variable Client : Type.
Variable provider :
  Client -> bytes -> llm.CompletionOptions ->
  (llm.CompletionResponse + error) * Client.

Lemma runs_lift {A C} (o : outcome A) a (g : A -> effects.M Client C) w
    (Q : C -> list Call -> Prop) :
  o = Returned a -> (forall w1, runs (g a) w1 Q) ->
  runs (bind (lift Client o) g) w Q.
Proof.
  intros -> H. destruct (H w) as (b & w2 & ks & Hg & Hc & HQ).
  exists b, w2, ks. auto.
Qed.

Lemma runs_chunkDetails chunks :
  forall i w, runs (chunkDetails Client chunks i) w (fun _ ks => ks = []).
Proof.
  induction chunks as [|chunk rest IH]; intros i w; cbn [chunkDetails].
  - apply runs_ret. reflexivity.
  - apply runs_log. intros w1. apply IH.
Qed.

Lemma runExtractChunks_disciplined sp strategy instructions maxRetries showStats
    chunks w :
  chunks <> [] -> knownStrategy strategy ->
  runs (runExtractChunks Client provider sp strategy instructions maxRetries
          showStats chunks) w
    (fun r ks =>
       stoppedAtFailure r ks /\ (1 <= length ks <= S (length chunks))%nat).
Proof.
  intros Hne Hknown. unfold runExtractChunks.
  assert (Hparsed :
            (if bytes_eqb strategy (B "incremental") then Some StrategyIncremental
             else if bytes_eqb strategy (B "two-pass") then Some StrategyTwoPass
             else if bytes_eqb strategy (B "template-driven")
                  then Some StrategyTemplateDriven else None) = Some strategy).
  { destruct Hknown as [ -> | [ -> | -> ] ]; reflexivity. }
  rewrite Hparsed.
  eapply runs_bind; [apply ProcessChunks_disciplined|].
  intros r w1 ks [_ H]. cbv beta.
  destruct (H Hne (or_intror Hknown)) as [Hstop Hlen].
  destruct r as [[res|] [e|]]; cbn [stoppedAtFailure] in Hstop; try contradiction;
    apply runs_ret; rewrite app_nil_r.
  - split; [exact Hstop|exact Hlen].
  - split; [apply (stopped_wrap (A:=ChunkResult)); exact Hstop|exact Hlen].
Qed.

Lemma renderChunkSize_pos ChunkSize : 1 <= renderChunkSize ChunkSize.
Proof. unfold renderChunkSize. destruct (Z.leb_spec ChunkSize 0); lia. Qed.

End WithClient.
End extraction_facts.

(** ** Further properties of the merge engine *)

Section MergerProperties.

Import effects merger merger_facts strings strings_facts contains_facts.
Import runs_facts discipline_facts trace_facts.

Variable Client : Type.
Variable provider :
  Client -> bytes -> llm.CompletionOptions ->
  (llm.CompletionResponse + error) * Client.

Local Abbreviation ProcessChunks := (merger.ProcessChunks Client provider).

(** X9. Whatever the provider answers, [ProcessChunks] on at least one
    chunk, with one of the three strategies or a single chunk, returns: it
    never panics. It makes at least one call and at most one more than
    there are chunks, and it stops at the first call the provider fails:
    it returns a result when every call succeeded, and otherwise an error
    whose text ends with the text of the provider's error. *)
Theorem ProcessChunks_stops_at_the_first_failure m chunks w :
  chunks <> [] ->
  length chunks = 1%nat \/ knownStrategy (Strategy (options m)) ->
  runs (ProcessChunks m chunks) w
    (fun r ks =>
       stoppedAtFailure r ks /\ (1 <= length ks <= S (length chunks))%nat).
Proof.
  intros Hne Hs.
  eapply runs_weaken; [apply ProcessChunks_disciplined|].
  intros r ks [_ H]. apply H; assumption.
Qed.

(** X10. Every call [ProcessChunks] makes, under any strategy and with any
    provider, sends a prompt that contains the schema of the spec in full
    and asks the provider for JSON. *)
Theorem ProcessChunks_calls_carry_the_schema m chunks w :
  runs (ProcessChunks m chunks) w (fun _ ks => Forall (carriesSchema m) ks).
Proof.
  eapply runs_weaken; [apply ProcessChunks_disciplined|].
  intros r ks [H _]. exact H.
Qed.

(** X11. Under the incremental strategy, whatever the provider answers,
    the first call asks for the extraction of chunk 0 and each later call
    is the merge prompt made of the payload of the call before it and the
    next chunk; no call follows a failed one. A result comes after one
    call per chunk; its JSON is the payload of the last call, its content
    the last chunk and its index the last index. *)
Theorem incremental_chains_the_payloads m chunks w :
  Strategy (options m) = StrategyIncremental -> chunks <> [] ->
  runs (ProcessChunks m chunks) w
    (fun r ks =>
       incrementalChain m chunks ks /\
       forall res, r = (Some res, None) ->
         length ks = length chunks /\
         lastPayload ks = Some (JSONData res) /\
         merger.Content res = last chunks [] /\
         ChunkIndex res = Z.of_nat (length chunks) - 1).
Proof.
  intros Hs Hne. destruct chunks as [|c0 [|c1 rest]]; [congruence| |].
  - cbn [merger.ProcessChunks].
    eapply runs_weaken; [apply runs_processSingleChunk|].
    intros r ks (k & -> & Hsent & _ & ->). split.
    + split; [discriminate|]. cbn [chained]. split; [exact Hsent|].
      destruct (reply k); reflexivity.
    + destruct (reply k) as [resp|e] eqn:Hr; intros res E; [|discriminate].
      injection E as <-. cbn [JSONData merger.Content ChunkIndex last length].
      split; [reflexivity|]. split; [apply lastPayload_one; exact Hr|].
      split; reflexivity.
  - cbn [merger.ProcessChunks]. rewrite Hs.
    change (bytes_eqb StrategyIncremental StrategyIncremental) with true. cbv iota.
    apply processIncremental_chained. discriminate.
Qed.

(** X12. Under the two-pass and the template-driven strategy on two or
    more chunks, whatever the provider answers, a result comes after one
    extraction call per chunk, in order, and one consolidation call whose
    prompt is made of the payloads of those extractions, in order; the
    result's JSON is the payload of the consolidation, its index -1 and its
    content the word consolidated. *)
Theorem twoPass_consolidates_the_payloads m chunks w :
  Strategy (options m) = StrategyTwoPass \/
  Strategy (options m) = StrategyTemplateDriven ->
  (2 <= length chunks)%nat ->
  runs (ProcessChunks m chunks) w
    (fun r ks =>
       forall res, r = (Some res, None) ->
         exists extractions k,
           ks = extractions ++ [k] /\
           Forall2 (isExtractionCall m) chunks extractions /\
           sent k = createConsolidationPrompt m (payloads extractions) /\
           length (payloads extractions) = length chunks /\
           lastPayload ks = Some (JSONData res) /\
           ChunkIndex res = -1 /\ merger.Content res = B "consolidated").
Proof.
  intros Hs Hlen. destruct chunks as [|c0 [|c1 rest]]; try (cbn [length] in Hlen; lia).
  cbn [merger.ProcessChunks]. destruct Hs as [Hs|Hs]; rewrite Hs.
  - change (bytes_eqb StrategyTwoPass StrategyIncremental) with false.
    change (bytes_eqb StrategyTwoPass StrategyTwoPass) with true. cbv iota.
    apply processTwoPass_payloads. exact Hlen.
  - change (bytes_eqb StrategyTemplateDriven StrategyIncremental) with false.
    change (bytes_eqb StrategyTemplateDriven StrategyTwoPass) with false.
    change (bytes_eqb StrategyTemplateDriven StrategyTemplateDriven) with true.
    cbv iota.
    apply (runs_sim Client (processTwoPass Client provider m (c0 :: c1 :: rest))).
    + apply sim_strategies; reflexivity.
    + apply processTwoPass_payloads. exact Hlen.
Qed.

End MergerProperties.

(** X13. The consolidation prompt holds every partial result under its
    number, counted from 1 in the order of the results. *)
Theorem consolidation_prompt_numbers_the_results m jsonResults j r :
  nth_error jsonResults j = Some r ->
  strings.Contains (merger.createConsolidationPrompt m jsonResults)
    (resultLabel (Z.of_nat j + 1) r) = true.
Proof.
  intros Hj. unfold merger.createConsolidationPrompt, merger.consolidationPromptText.
  do 3 apply contains_facts.Contains_app_r. apply contains_facts.Contains_app_l.
  replace (Z.of_nat j + 1) with (0 + Z.of_nat j + 1) by lia.
  apply trace_facts.resultsStr_labels. exact Hj.
Qed.

(** X9, at a provider that fails its second call, on three chunks. *)
Lemma ProcessChunks_stops_at_the_first_failure_witness :
  runs (merger.ProcessChunks nat failsSecondCall
          (exampleMerger merger.StrategyIncremental [])
          [B "one"; B "two"; B "three"]) freshWorld
    (fun r ks => stoppedAtFailure r ks /\ (1 <= length ks <= 4)%nat).
Proof.
  apply (ProcessChunks_stops_at_the_first_failure nat failsSecondCall
           (exampleMerger merger.StrategyIncremental [])
           [B "one"; B "two"; B "three"] freshWorld).
  - discriminate.
  - right. left. reflexivity.
Defined.

(** That run stops after its second call, and the error names the chunk by
    its index from 0 and ends with the provider's text. *)
Example failed_merge_names_the_chunk :
  let run :=
    merger.ProcessChunks nat failsSecondCall
      (exampleMerger merger.StrategyIncremental [])
      [B "one"; B "two"; B "three"] freshWorld in
  match fst run with
  | Returned (None, Some e) =>
    ErrorText e = B "failed to merge chunk 1: merge failed: rate limited"
  | _ => False
  end /\
  length (effects.calls (snd run)) = 2%nat.
Proof. vm_compute. split; reflexivity. Qed.

(** X11, at a run of the mock client on three chunks. *)
Lemma incremental_chains_the_payloads_witness :
  runs (merger.ProcessChunks llm.MockClient llm.MockComplete
          (exampleMerger merger.StrategyIncremental [])
          [B "one"; B "two"; B "three"]) mockWorld
    (fun r ks =>
       incrementalChain (exampleMerger merger.StrategyIncremental [])
         [B "one"; B "two"; B "three"] ks /\
       forall res, r = (Some res, None) ->
         length ks = 3%nat /\
         lastPayload ks = Some (merger.JSONData res) /\
         merger.Content res = B "three" /\
         merger.ChunkIndex res = 2).
Proof.
  apply (incremental_chains_the_payloads llm.MockClient llm.MockComplete
           (exampleMerger merger.StrategyIncremental [])
           [B "one"; B "two"; B "three"] mockWorld).
  - reflexivity.
  - discriminate.
Defined.

(** X12, at a run of the mock client on two chunks. *)
Lemma twoPass_consolidates_the_payloads_witness :
  runs (merger.ProcessChunks llm.MockClient llm.MockComplete
          (exampleMerger merger.StrategyTwoPass []) [B "one"; B "two"]) mockWorld
    (fun r ks =>
       forall res, r = (Some res, None) ->
         exists extractions k,
           ks = extractions ++ [k] /\
           Forall2 (isExtractionCall (exampleMerger merger.StrategyTwoPass []))
             [B "one"; B "two"] extractions /\
           effects.sent k
           = merger.createConsolidationPrompt (exampleMerger merger.StrategyTwoPass [])
               (payloads extractions) /\
           length (payloads extractions) = 2%nat /\
           lastPayload ks = Some (merger.JSONData res) /\
           merger.ChunkIndex res = -1 /\ merger.Content res = B "consolidated").
Proof.
  apply (twoPass_consolidates_the_payloads llm.MockClient llm.MockComplete
           (exampleMerger merger.StrategyTwoPass []) [B "one"; B "two"] mockWorld).
  - left. reflexivity.
  - cbn. lia.
Defined.

(** X13, at the second of two results. *)
Lemma consolidation_prompt_numbers_the_results_witness :
  strings.Contains
    (merger.createConsolidationPrompt (exampleMerger [] []) [B "{}"; B "[1]"])
    (resultLabel 2 (B "[1]")) = true.
Proof.
  apply (consolidation_prompt_numbers_the_results (exampleMerger [] [])
           [B "{}"; B "[1]"] 1 (B "[1]")).
  reflexivity.
Defined.

(** ** Further properties of the validator *)

Section ValidateProperties.

Import effects validate strings strings_facts contains_facts runs_facts retry_facts.

Variable JSONValue : Type.
Variable EvaluationResult : Type.
Variable Unmarshal : bytes -> JSONValue + bytes.
Variable schemaValidate : JSONValue -> option EvaluationResult.
Variable Client : Type.
Variable provider :
  Client -> bytes -> llm.CompletionOptions ->
  (llm.CompletionResponse + error) * Client.

Local Abbreviation Validate :=
  (validate.Validate JSONValue EvaluationResult Unmarshal schemaValidate).
Local Abbreviation ValidateAndRetry :=
  (validate.ValidateAndRetry JSONValue EvaluationResult Unmarshal schemaValidate
     Client provider).




(** X18. [FormatErrors] shows the message of every finding of a result
    that is not valid, after its path unless the path is empty or root. Of
    a result of [Validate] it therefore never shows a path: it gives the
    parser's error after the words Invalid JSON, the words Validation
    failed, or No validation errors. *)
Theorem FormatErrors_shows_every_finding :
  (forall r e,
     Valid r = false -> In e (Errors r) ->
     Contains (FormatErrors r) (Message e) = true /\
     (Path e <> [] -> Path e <> B "root" ->
      Contains (FormatErrors r) (Path e ++ B ": " ++ Message e) = true)) /\
  (forall data,
     FormatErrors (Validate data)
     = match Unmarshal data with
       | inr err => B "Validation errors:
  Invalid JSON: " ++ err
       | inl jsonData =>
         match schemaValidate jsonData with
         | None => B "No validation errors"
         | Some _ => B "Validation errors:
  Validation failed"
         end
       end).
Proof.
  split.
  - intros r e Hbad He. unfold FormatErrors. rewrite Hbad.
    set (line := fun err : ValidationError =>
                   if negb (bytes_eqb (Path err) []) && negb (bytes_eqb (Path err) (B "root"))
                   then B "  " ++ Path err ++ B ": " ++ Message err
                   else B "  " ++ Message err).
    pose proof (Join_Contains (map line (Errors r)) [x0a] (line e) (in_map line _ _ He))
      as Hline.
    destruct (Contains_inv _ _ Hline) as (pre & post & ->).
    split.
    + apply Contains_app_r, Contains_app_r, Contains_app_l. unfold line.
      destruct (negb _ && negb _); contains_operand.
    + intros H1 H2. apply Contains_app_r, Contains_app_r, Contains_app_l. unfold line.
      apply bytes_eqb_neq in H1, H2. rewrite H1, H2. cbn [negb andb].
      apply Contains_app_r. apply Contains_refl.
  - intros data. unfold validate.Validate.
    destruct (Unmarshal data) as [j|err]; [destruct (schemaValidate j)|]; reflexivity.
Qed.

End ValidateProperties.

Section RepairPromptProperties.

Import validate strings strings_facts contains_facts retry_facts.

(** X17. The repair prompt contains the original prompt, the invalid
    payload and, for every finding, a line made of its path and its
    message. *)
Theorem createRepairPrompt_carries_prompt_payload_and_findings
    originalPrompt invalidJSON res :
  strings.Contains (validate.createRepairPrompt originalPrompt invalidJSON res)
    originalPrompt = true /\
  strings.Contains (validate.createRepairPrompt originalPrompt invalidJSON res)
    invalidJSON = true /\
  forall e, In e (validate.Errors res) ->
    strings.Contains (validate.createRepairPrompt originalPrompt invalidJSON res)
      (B "- " ++ validate.Path e ++ B ": " ++ validate.Message e) = true.
Proof.
  unfold createRepairPrompt. split; [|split].
  - contains_operand.
  - contains_operand.
  - intros e He. apply Contains_app_r, Contains_app_l, Join_Contains.
    apply (in_map (fun err => B "- " ++ Path err ++ B ": " ++ Message err)). exact He.
Qed.

End RepairPromptProperties.

(** ** The chunked extraction of the two commands *)

Section ExtractionProperties.

Import effects merger merger_facts tokenizer tokenizer_more extraction.
Import runs_facts extraction_facts.

Variable Client : Type.
Variable provider :
  Client -> bytes -> llm.CompletionOptions ->
  (llm.CompletionResponse + error) * Client.

(** X19. With a chunk size of 1 or more and one of the three strategy
    names, the chunked branch of the extract command returns whatever the
    provider answers: the chunker gives at least one chunk, so the average
    chunk size is never a division by zero and [ProcessChunks] never sees
    an empty sequence; the provider is called at least once and at most
    once more than the input has bytes, and the run stops at the first
    call the provider fails. *)
Theorem extract_chunked_branch_returns sp chunkSize strategy instructions
    maxRetries showStats input w :
  1 <= chunkSize -> chunkSize < CountTokens input -> knownStrategy strategy ->
  runs (extractChunked Client provider sp chunkSize strategy instructions
          maxRetries showStats input) w
    (fun r ks =>
       stoppedAtFailure r ks /\ (1 <= length ks <= S (length input))%nat).
Proof.
  intros Hb Hbig Hknown. unfold extractChunked.
  destruct (ChunkText_nonempty_spec (NewChunker chunkSize) input Hb Hbig)
    as (chunks & Hrun & Hne & _ & Hlen).
  apply runs_log. intros w1.
  eapply runs_lift; [exact Hrun|]. intros w2.
  eapply runs_lift.
  { unfold div. destruct (Z.eqb_spec (Z.of_nat (length chunks)) 0) as [H0|_];
      [|reflexivity]. destruct chunks; [congruence|cbn [length] in H0; lia]. }
  intros w3. apply runs_log. intros w4.
  eapply runs_bind; [apply runs_chunkDetails|]. intros [] w5 ks0 ->. cbn [app].
  eapply runs_weaken; [apply runExtractChunks_disciplined; assumption|].
  intros r ks [H1 H2]. split; [exact H1|lia].
Qed.

(** X20. With a negative chunk size the chunked branch of the extract
    command panics on every input that is not empty, before any call of
    the provider. *)
Theorem extract_negative_chunk_size_panics sp chunkSize strategy instructions
    maxRetries showStats input w :
  chunkSize < 0 -> input <> [] ->
  fst (extractChunked Client provider sp chunkSize strategy instructions
         maxRetries showStats input w) = Panicked /\
  calls (snd (extractChunked Client provider sp chunkSize strategy instructions
                maxRetries showStats input w)) = calls w.
Proof.
  intros Hb Hne. unfold extractChunked, Info. rewrite bind_log.
  unfold bind at 1, lift at 1.
  rewrite (ChunkText_negative_spec (NewChunker chunkSize) input Hb).
  destruct input; [congruence|]. split; reflexivity.
Qed.

(** X21. The chunked branch of [Render] returns for every value of the
    option [ChunkSize], zero and negative ones included, which stand for
    20000, and for the empty strategy name, which stands for incremental,
    as for the three names: the provider is called at least once and at
    most once more than the input has bytes, and the run stops at the first
    call the provider fails. *)
Theorem render_chunked_branch_returns sp ChunkSize strategy instructions
    showStats input w :
  renderChunkSize ChunkSize < CountTokens input ->
  strategy = [] \/ knownStrategy strategy ->
  runs (renderChunked Client provider sp ChunkSize strategy instructions
          showStats input) w
    (fun r ks =>
       stoppedAtFailure r ks /\ (1 <= length ks <= S (length input))%nat).
Proof.
  intros Hbig Hs. unfold renderChunked.
  destruct (ChunkText_nonempty_spec (NewChunker (renderChunkSize ChunkSize)) input
              (renderChunkSize_pos ChunkSize) Hbig)
    as (chunks & Hrun & Hne & _ & Hlen).
  apply runs_log. intros w1.
  eapply runs_lift; [exact Hrun|]. intros w2.
  eapply runs_lift.
  { unfold div. destruct (Z.eqb_spec (Z.of_nat (length chunks)) 0) as [H0|_];
      [|reflexivity]. destruct chunks; [congruence|cbn [length] in H0; lia]. }
  intros w3. apply runs_log. intros w4.
  eapply runs_weaken.
  - apply runExtractChunks_disciplined; [exact Hne|].
    destruct Hs as [ -> | Hk ].
    + left. reflexivity.
    + destruct (bytes_eqb strategy []) eqn:E; [|exact Hk].
      apply bytes_eqb_nil in E. subst. left. reflexivity.
  - intros r ks [H1 H2]. split; [exact H1|lia].
Qed.

End ExtractionProperties.

(** X19, at a chunk size of 2 and the mock client. *)
Lemma extract_chunked_branch_returns_witness :
  runs (extraction.extractChunked llm.MockClient llm.MockComplete exampleSpec 2
          (B "two-pass") [] 2 false sevenWords) mockWorld
    (fun r ks =>
       stoppedAtFailure r ks /\ (1 <= length ks <= S (length sevenWords))%nat).
Proof.
  apply (extract_chunked_branch_returns llm.MockClient llm.MockComplete exampleSpec 2
           (B "two-pass") [] 2 false sevenWords mockWorld).
  - lia.
  - vm_compute. reflexivity.
  - right. left. reflexivity.
Defined.

(** X20, at a chunk size of -1. *)
Lemma extract_negative_chunk_size_panics_witness :
  fst (extraction.extractChunked llm.MockClient llm.MockComplete exampleSpec (-1)
         (B "incremental") [] 2 false sevenWords mockWorld) = Panicked /\
  effects.calls
    (snd (extraction.extractChunked llm.MockClient llm.MockComplete exampleSpec (-1)
            (B "incremental") [] 2 false sevenWords mockWorld))
  = effects.calls mockWorld.
Proof.
  apply (extract_negative_chunk_size_panics llm.MockClient llm.MockComplete
           exampleSpec (-1) (B "incremental") [] 2 false sevenWords mockWorld).
  - lia.
  - discriminate.
Defined.

(** X21, at the chunk size 0 and the empty strategy name, on an input of
    27500 estimated tokens. *)
Lemma render_chunked_branch_returns_witness :
  runs (extraction.renderChunked llm.MockClient llm.MockComplete exampleSpec 0
          [] [] false longInput) mockWorld
    (fun r ks =>
       stoppedAtFailure r ks /\ (1 <= length ks <= S (length longInput))%nat).
Proof.
  apply (render_chunked_branch_returns llm.MockClient llm.MockComplete exampleSpec 0
           [] [] false longInput mockWorld).
  - vm_compute. reflexivity.
  - left. reflexivity.
Defined.
